(** * Folder image sync: key normalisation, folder grouping, image ordering
    and the reconciliation run of [src/App.tsx].

    The development is a shallow embedding of the pure helpers at the bottom
    of [App.tsx] ([groupFilesByFolder], [getRelativePath],
    [normalizeMatchValue], [normalizeFolderName], [normalizeWhitespace],
    [orderFiles]) and of the [runUpload] handler of the [App] component. *)

From Stdlib Require Import List ZArith NArith Bool Lia String Ascii.
From Stdlib Require Import Permutation Sorted DecimalString.
Import ListNotations.

Set Implicit Arguments.

(** ** JavaScript strings

    A JavaScript string is a sequence of UTF-16 code units.  The regular
    expressions of the source carry no [u] flag, so [\s], [\d], [.] and
    [includes] all work code unit by code unit. *)

Definition codeunit := N.
Definition jsstring := list codeunit.

(** ASCII literal as a JavaScript string. *)
Definition u (s : string) : jsstring :=
  map N_of_ascii (list_ascii_of_string s).
Arguments u s%_string.

Fixpoint streq (a b : jsstring) : bool :=
  match a, b with
  | [], [] => true
  | x :: a', y :: b' => N.eqb x y && streq a' b'
  | _, _ => false
  end.

(** Truthiness of a string: [Boolean(s)] is false exactly for [""]. *)
Definition truthy (s : jsstring) : bool :=
  match s with [] => false | _ :: _ => true end.

(** The class [\s] (ECMAScript WhiteSpace and LineTerminator); [trim] strips
    the same set. *)
Definition isSpace (c : codeunit) : bool :=
  ((9 <=? c) && (c <=? 13) || (c =? 32) || (c =? 0xA0) || (c =? 0x1680)
   || (0x2000 <=? c) && (c <=? 0x200A) || (c =? 0x2028) || (c =? 0x2029)
   || (c =? 0x202F) || (c =? 0x205F) || (c =? 0x3000) || (c =? 0xFEFF))%N.

(** The class [\d]. *)
Definition isDigit (c : codeunit) : bool := ((48 <=? c) && (c <=? 57))%N.

Definition SPACE : codeunit := 32%N.
Definition COMMA : codeunit := 44%N.
Definition DOT : codeunit := 46%N.
Definition SLASH : codeunit := 47%N.
Definition BACKSLASH : codeunit := 92%N.
Definition LPAREN : codeunit := 40%N.
Definition RPAREN : codeunit := 41%N.
Definition HYPHEN : codeunit := 45%N.
Definition IDEOGRAPHIC_SPACE : codeunit := 0x3000%N.

(** "封面", the default priority keyword, and "副本", the copy marker. *)
Definition FENGMIAN : jsstring := [0x5C01; 0x9762]%N.
Definition FUBEN : jsstring := [0x526F; 0x672C]%N.
(** "未知错误", the fallback error text. *)
Definition UNKNOWN_ERROR : jsstring := [0x672A; 0x77E5; 0x9519; 0x8BEF]%N.

Fixpoint dropWhile (p : codeunit -> bool) (s : jsstring) : jsstring :=
  match s with
  | [] => []
  | c :: r => if p c then dropWhile p r else s
  end.

(** [s.startsWith(p)], returning the rest of [s] after the prefix. *)
Fixpoint stripPrefix (p s : jsstring) : option jsstring :=
  match p, s with
  | [], _ => Some s
  | x :: p', y :: s' => if N.eqb x y then stripPrefix p' s' else None
  | _ :: _, [] => None
  end.

(** [s.includes(p)]. *)
Fixpoint includes (s p : jsstring) : bool :=
  match stripPrefix p s with
  | Some _ => true
  | None => match s with [] => false | _ :: r => includes r p end
  end.

(** [items.join(sep)]. *)
Fixpoint join (sep : jsstring) (items : list jsstring) : jsstring :=
  match items with
  | [] => []
  | [x] => x
  | x :: rest => x ++ sep ++ join sep rest
  end.

(** [s.split(/[\\/]/)]: one more segment than there are separators, empty
    segments kept. *)
Definition isPathSep (c : codeunit) : bool :=
  N.eqb c SLASH || N.eqb c BACKSLASH.

Fixpoint splitPath (s : jsstring) : list jsstring :=
  match s with
  | [] => [[]]
  | c :: r =>
      if isPathSep c then [] :: splitPath r
      else match splitPath r with
           | seg :: segs => (c :: seg) :: segs
           | [] => [[c]]
           end
  end.

(** [s.replace(re, "")] for a pattern [re] that ends in [$]: the match starts
    at the leftmost position whose whole remaining suffix satisfies the
    pattern, and everything from there on is removed.  [suffixOk] decides the
    pattern on a suffix. *)
Fixpoint cutSuffix (suffixOk : jsstring -> bool) (s : jsstring) : jsstring :=
  if suffixOk s then []
  else match s with
       | [] => []
       | c :: r => c :: cutSuffix suffixOk r
       end.

(** [/\s*\(\d+\)\s*$/] on a whole suffix. *)
Definition copyNumberSuffix (s : jsstring) : bool :=
  match dropWhile isSpace s with
  | c :: r =>
      N.eqb c LPAREN
      && match r with d :: _ => isDigit d | [] => false end
      && match dropWhile isDigit r with
         | c' :: t => N.eqb c' RPAREN && forallb isSpace t
         | [] => false
         end
  | [] => false
  end.

(** [/\s*-\s*副本$/] on a whole suffix. *)
Definition copyMarkSuffix (s : jsstring) : bool :=
  match dropWhile isSpace s with
  | c :: r => N.eqb c HYPHEN && streq (dropWhile isSpace r) FUBEN
  | [] => false
  end.

(** [/\.[^.]+$/] on a whole suffix. *)
Definition extensionSuffix (s : jsstring) : bool :=
  match s with
  | c :: r => N.eqb c DOT && truthy r && forallb (fun x => negb (N.eqb x DOT)) r
  | [] => false
  end.

(** [s.replace(/\s+/g, " ")]: every maximal run of white space becomes one
    ASCII space.  [inRun] tells that the previous code unit was white space. *)
Fixpoint collapseSpaces (inRun : bool) (s : jsstring) : jsstring :=
  match s with
  | [] => []
  | c :: r =>
      if isSpace c
      then if inRun then collapseSpaces true r
           else SPACE :: collapseSpaces true r
      else c :: collapseSpaces false r
  end.

Definition trimStart (s : jsstring) : jsstring := dropWhile isSpace s.

Fixpoint trimEnd (s : jsstring) : jsstring :=
  match s with
  | [] => []
  | c :: r =>
      match trimEnd r with
      | [] => if isSpace c then [] else [c]
      | r' => c :: r'
      end
  end.

Definition trim (s : jsstring) : jsstring := trimEnd (trimStart s).

(** [normalizeWhitespace], lines 541-543. *)
Definition normalizeWhitespace (input : jsstring) : jsstring :=
  trim
    (collapseSpaces false
       (map (fun c => if N.eqb c IDEOGRAPHIC_SPACE then SPACE else c) input)).

(** [s.match(/\d+/g)]: the maximal digit runs, left to right ([null] is the
    empty list).  [cur] is the run being read. *)
Fixpoint digitRunsFrom (cur : jsstring) (s : jsstring) : list jsstring :=
  match s with
  | [] => match cur with [] => [] | _ => [cur] end
  | c :: r =>
      if isDigit c then digitRunsFrom (cur ++ [c]) r
      else match cur with
           | [] => digitRunsFrom [] r
           | _ => cur :: digitRunsFrom [] r
           end
  end.

Definition digitRuns (s : jsstring) : list jsstring := digitRunsFrom [] s.

(** ** Numbers read by [parseInt]

    [parseInt(s, 10)] is used on digit runs only.  It reads the leading
    decimal digits of [s] and yields the double nearest to their value (ties
    to even), [Infinity] from 2^1024 - 2^970 on, and [NaN] (here [None]) when
    [s] does not start with a digit. *)
Inductive jsint : Type :=
| Finite (n : N)
| PosInfinity.

Definition decimalValue (digits : jsstring) : N :=
  fold_left (fun acc c => (10 * acc + (c - 48))%N) digits 0%N.

Definition roundToDouble (n : N) : jsint :=
  if (n <? 2 ^ 53)%N then Finite n
  else
    let e := (N.log2 n - 52)%N in
    let q := N.shiftr n e in
    let r := (n - N.shiftl q e)%N in
    let half := (2 ^ (e - 1))%N in
    let q' := if (half <? r)%N || (N.eqb r half && N.odd q)
              then (q + 1)%N else q in
    let v := N.shiftl q' e in
    if (v <? 2 ^ 1024)%N then Finite v else PosInfinity.

Fixpoint takeWhile (p : codeunit -> bool) (s : jsstring) : jsstring :=
  match s with
  | [] => []
  | c :: r => if p c then c :: takeWhile p r else []
  end.

Definition parseInt (s : jsstring) : option jsint :=
  match takeWhile isDigit s with
  | [] => None
  | digits => Some (roundToDouble (decimalValue digits))
  end.

(** Sign of [a - b] as the comparator reads it: [Infinity - Infinity] is
    [NaN], which [||] treats like [0]. *)
Definition subSign (a b : jsint) : Z :=
  match a, b with
  | Finite x, Finite y =>
      match N.compare x y with Lt => (-1)%Z | Eq => 0%Z | Gt => 1%Z end
  | Finite _, PosInfinity => (-1)%Z
  | PosInfinity, Finite _ => 1%Z
  | PosInfinity, PosInfinity => 0%Z
  end.

(** ** The runtime the program leans on

    Two built-ins are taken from the JavaScript engine as they are:
    [String(n)] for a number [n], and [String.prototype.localeCompare] with
    the ["zh-CN"] collation; so is the message the engine gives the
    [TypeError] of a conversion to a primitive that fails. *)
Class Runtime : Type := {
  Num : Type;
  numberToString : Num -> jsstring;
  localeCompare : jsstring -> jsstring -> Z;
  conversionError : jsstring
}.

(** ** Field values

    The values a field read returns are JSON-like data: strings, numbers,
    booleans, arrays and plain objects.  [JOther] stands for a further
    primitive value (a symbol), told by what [String(value)] yields for it.
    Values are finite trees of data: functions are left out, and so are
    cyclic objects and BigInt values, on which the [JSON.stringify] of
    [describeValue] throws. *)
#[local] Unset Elimination Schemes.
Inductive JsValue `{Runtime} : Type :=
| JUndefined
| JNull
| JString (s : jsstring)
| JNumber (n : Num)
| JBoolean (b : bool)
| JArray (items : list JsValue)
| JObject (props : list (jsstring * JsValue))
| JOther (rendering : jsstring).
#[local] Set Elimination Schemes.

(** ** Thrown values

    Every handler of the source reads a caught value through
    [(err as Error)?.message || "未知错误"] only, so a thrown value is kept as
    its [message] (empty when the value has none). *)
Record Exn : Type := { message : jsstring }.

Inductive Res (A : Type) : Type :=
| Ok (a : A)
| Throw (e : Exn).
Arguments Ok {A} a.
Arguments Throw {A} e.

Definition errorMessage (err : Exn) : jsstring :=
  if truthy (message err) then message err else UNKNOWN_ERROR.

(** [items.map(f)] where a call of [f] may throw: the first throw, in
    the order of the items, ends the loop. *)
Fixpoint mapRes {A B : Type} (f : A -> Res B) (items : list A)
  : Res (list B) :=
  match items with
  | [] => Ok []
  | item :: rest =>
      match f item with
      | Throw e => Throw e
      | Ok b =>
          match mapRes f rest with
          | Throw e => Throw e
          | Ok bs => Ok (b :: bs)
          end
      end
  end.

Section KeyNormalizer.
Context `{Runtime}.

(** Property read [obj[key]] on a plain object. *)
Fixpoint getProp (props : list (jsstring * JsValue)) (key : jsstring)
  : JsValue :=
  match props with
  | [] => JUndefined
  | (k, v) :: rest => if streq k key then v else getProp rest key
  end.

(** Whether the object has an own property [key]. *)
Definition hasOwn (props : list (jsstring * JsValue)) (key : jsstring)
  : bool :=
  existsb (fun p => streq (fst p) key) props.

Definition booleanToString (b : bool) : jsstring :=
  if b then u "true" else u "false".

Definition OBJECT_OBJECT : jsstring := u "[object Object]".

(** The [TypeError] of a conversion that finds no primitive. *)
Definition CANNOT_CONVERT : Exn := {| message := conversionError |}.

(** [String(value)] where the source reaches it with a plain object.  The
    conversion calls [toString], then [valueOf], and takes the first
    primitive result.  The inherited [toString] yields ["[object Object]"].
    An own [toString] property hides it and, holding data, cannot be
    called; [valueOf] then yields no primitive either (the inherited one
    returns the object, an own one holds data), and the conversion
    throws. *)
Definition objectToString (props : list (jsstring * JsValue))
  : Res jsstring :=
  if hasOwn props (u "toString") then Throw CANNOT_CONVERT
  else Ok OBJECT_OBJECT.

(** [items.map(f).filter(Boolean).join(",")]. *)
Definition joinTruthy (f : JsValue -> Res jsstring) (items : list JsValue)
  : Res jsstring :=
  match mapRes f items with
  | Ok parts => Ok (join [COMMA] (filter truthy parts))
  | Throw e => Throw e
  end.

(** [normalizeMatchValue], lines 493-520.  [budget] is [4 - depth]: the
    guard [depth > 3] is the case [budget = 0]. *)
Fixpoint normalizeWithin (budget : nat) (value : JsValue) : Res jsstring :=
  match budget with
  | O => Ok []
  | S budget' =>
      match value with
      | JUndefined | JNull => Ok []
      | JString s => Ok (normalizeWhitespace s)
      | JNumber n => Ok (numberToString n)
      | JBoolean b => Ok (booleanToString b)
      | JArray items => joinTruthy (normalizeWithin budget') items
      | JOther rendering => Ok (normalizeWhitespace rendering)
      | JObject props =>
          match getProp props (u "text") with
          | JString text => Ok (normalizeWhitespace text)
          | _ =>
            match getProp props (u "text_arr") with
            | JArray text_arr => joinTruthy (normalizeWithin budget') text_arr
            | _ =>
              match getProp props (u "name") with
              | JString name => Ok (normalizeWhitespace name)
              | _ =>
                match getProp props (u "display") with
                | JString display => Ok (normalizeWhitespace display)
                | _ =>
                  match getProp props (u "value") with
                  | JString value' => Ok (normalizeWhitespace value')
                  | _ =>
                    match objectToString props with
                    | Ok text => Ok (normalizeWhitespace text)
                    | Throw e => Throw e
                    end
                  end
                end
              end
            end
          end
      end
  end.

Definition normalizeMatchValueAt (value : JsValue) (depth : nat)
  : Res jsstring :=
  normalizeWithin (4 - depth) value.

(** The call with the default [depth = 0]. *)
Definition normalizeMatchValue (value : JsValue) : Res jsstring :=
  normalizeMatchValueAt value 0.

(** [normalizeFolderName], lines 522-527.  The argument of
    [normalizeMatchValue] is a string here, and the call returns by its
    string case (line 496). *)
Definition normalizeFolderName (folder : jsstring) : jsstring :=
  let base := normalizeWhitespace folder in
  let cleaned := cutSuffix copyMarkSuffix (cutSuffix copyNumberSuffix base) in
  match normalizeMatchValue (JString cleaned) with
  | Ok key => key
  | Throw _ => cleaned
  end.
End KeyNormalizer.

(** ** Files *)

(** A browser [File]: its leaf [name], the [webkitRelativePath] set by the
    folder picker or by the drop handler, and its content as an opaque
    handle. *)
Record File : Type := {
  name : jsstring;
  webkitRelativePath : jsstring;
  blob : N
}.

(** [getRelativePath], lines 483-486. *)
Definition getRelativePath (file : File) : jsstring :=
  let path :=
    if truthy (webkitRelativePath file) then webkitRelativePath file
    else name file in
  match stripPrefix [SLASH] path with
  | Some rest => rest
  | None => path
  end.

(** ** Sorting

    [Array.prototype.sort] is stable; with a consistent comparator its result
    is the one stable ordering, which insertion from the right computes. *)
Section Sort.
Variable A : Type.
Variable cmp : A -> A -> Z.

Fixpoint insertSorted (x : A) (l : list A) : list A :=
  match l with
  | [] => [x]
  | y :: r => if (cmp x y <=? 0)%Z then x :: l else y :: insertSorted x r
  end.

Definition sortBy (l : list A) : list A := fold_right insertSorted [] l.
End Sort.

(** ** File Grouper *)

(** [GroupedFiles = Record<string, File[]>] as the own properties of the
    object, in creation order. *)
Definition GroupedFiles := list (jsstring * list File).

(** The properties every plain object inherits from [Object.prototype]. *)
Definition objectPrototypeKeys : list jsstring :=
  [u "constructor"; u "__defineGetter__"; u "__defineSetter__";
   u "hasOwnProperty"; u "__lookupGetter__"; u "__lookupSetter__";
   u "isPrototypeOf"; u "propertyIsEnumerable"; u "toString"; u "valueOf";
   u "__proto__"; u "toLocaleString"].

(** Keyed collections that remember creation order: the own properties of a
    plain object, and the entries of a [Map]. *)
Fixpoint keyedGet {V : Type} (entries : list (jsstring * V)) (key : jsstring)
  : option V :=
  match entries with
  | [] => None
  | (k, v) :: rest => if streq k key then Some v else keyedGet rest key
  end.

(** [obj[key] = v] and [map.set(key, v)]: an existing key keeps its place, a
    new one goes last. *)
Fixpoint keyedSet {V : Type} (entries : list (jsstring * V)) (key : jsstring)
  (v : V) : list (jsstring * V) :=
  match entries with
  | [] => [(key, v)]
  | (k, old) :: rest =>
      if streq k key then (k, v) :: rest else (k, old) :: keyedSet rest key v
  end.

Definition NOT_A_FUNCTION : Exn :=
  {| message := u "grouped[folder].push is not a function" |}.

(** Lines 477-478: [grouped[folder] = grouped[folder] || []] and then
    [grouped[folder].push(file)].  The read goes through the prototype
    chain: for a folder named like an inherited property it finds a truthy
    value that is no array, and the [push] call throws a [TypeError]. *)
Definition pushFile (grouped : GroupedFiles) (folder : jsstring) (file : File)
  : Res GroupedFiles :=
  match keyedGet grouped folder with
  | Some files => Ok (keyedSet grouped folder (files ++ [file]))
  | None =>
      if existsb (streq folder) objectPrototypeKeys then Throw NOT_A_FUNCTION
      else Ok (keyedSet grouped folder [file])
  end.

(** The segments of a file's path: [relative.split(/[\\/]/).filter(Boolean)]. *)
Definition pathParts (file : File) : list jsstring :=
  filter truthy (splitPath (getRelativePath file)).

(** [parts[0] === root ? parts.slice(1) : parts]. *)
Definition withoutRoot (root : jsstring) (parts : list jsstring)
  : list jsstring :=
  match parts with
  | [] => []
  | first :: rest => if streq first root then rest else parts
  end.

(** The callback of [files.forEach], lines 465-479. *)
Definition groupOne (root : jsstring) (grouped : GroupedFiles) (file : File)
  : Res GroupedFiles :=
  let parts := pathParts file in
  match parts with
  | [] => Ok grouped
  | _ :: _ =>
      let rest := withoutRoot root parts in
      if (List.length rest <? 2)%nat then Ok grouped
      else pushFile grouped (hd [] rest) file
  end.

Fixpoint forEach {S A : Type} (f : S -> A -> Res S) (l : list A) (s : S)
  : Res S :=
  match l with
  | [] => Ok s
  | x :: rest =>
      match f s x with
      | Ok s' => forEach f rest s'
      | Throw e => Throw e
      end
  end.

(** The inferred root, line 463: the first segment of the first file's
    path, before any filtering. *)
Definition inferredRoot (first : File) : jsstring :=
  hd [] (splitPath (getRelativePath first)).

(** [groupFilesByFolder], lines 458-481. *)
Definition groupFilesByFolder (files : list File) : Res GroupedFiles :=
  match files with
  | [] => Ok []
  | first :: _ => forEach (groupOne (inferredRoot first)) files []
  end.

(** A property key is an array index when it is the canonical decimal form of
    an integer up to 2^32 - 2. *)
Definition arrayIndex (key : jsstring) : option N :=
  match key with
  | [] => None
  | c :: r =>
      if forallb isDigit key
         && (negb (N.eqb c 48) || negb (truthy r))
         && (decimalValue key <=? 4294967294)%N
      then Some (decimalValue key)
      else None
  end.

Definition isIndexKey {V : Type} (entry : jsstring * V) : bool :=
  match arrayIndex (fst entry) with Some _ => true | None => false end.

Definition indexOrder {V : Type} (a b : jsstring * V) : Z :=
  (Z.of_N (decimalValue (fst a)) - Z.of_N (decimalValue (fst b)))%Z.

(** [Object.entries(obj)]: array-index keys in ascending numeric order, then
    the other string keys in creation order. *)
Definition Object_entries {V : Type} (obj : list (jsstring * V))
  : list (jsstring * V) :=
  sortBy indexOrder (filter isIndexKey obj)
  ++ filter (fun e => negb (isIndexKey e)) obj.

(** ** Image Orderer *)

Record Numbered : Type := { value : jsint; file : File }.

Record Buckets : Type := {
  cover : list File;
  numbered : list Numbered;
  others : list File
}.

Definition noBuckets : Buckets :=
  {| cover := []; numbered := []; others := [] |}.

(** [name.replace(/\.[^.]+$/, "")]. *)
Definition baseName (fileName : jsstring) : jsstring :=
  cutSuffix extensionSuffix fileName.

(** [priorityKeyword && name.includes(priorityKeyword)]. *)
Definition isCover (priorityKeyword : jsstring) (f : File) : bool :=
  truthy priorityKeyword && includes (name f) priorityKeyword.

(** [nums[nums.length - 1]] under the guard [nums && nums.length]. *)
Definition lastRun (nums : list jsstring) : option jsstring :=
  match nums with
  | [] => None
  | _ :: _ => Some (last nums [])
  end.

(** The callback of [files.forEach], lines 554-573. *)
Definition classify (priorityKeyword : jsstring) (b : Buckets) (f : File)
  : Buckets :=
  let base := baseName (name f) in
  if isCover priorityKeyword f
  then {| cover := cover b ++ [f];
          numbered := numbered b; others := others b |}
  else
    let other := {| cover := cover b; numbered := numbered b;
                    others := others b ++ [f] |} in
    match lastRun (digitRuns base) with
    | Some run =>
        match parseInt run with
        | Some lastNum =>
            {| cover := cover b;
               numbered := numbered b ++ [{| value := lastNum; file := f |}];
               others := others b |}
        | None => other
        end
    | None => other
    end.

Section Orderer.
Context `{Runtime}.

Definition byName (a b : File) : Z := localeCompare (name a) (name b).

(** [a.value - b.value || a.file.name.localeCompare(b.file.name, "zh-CN")]. *)
Definition byValueThenName (a b : Numbered) : Z :=
  let d := subSign (value a) (value b) in
  if (d =? 0)%Z then byName (file a) (file b) else d.

(** [orderFiles], lines 549-584. *)
Definition orderFiles (files : list File) (priorityKeyword : jsstring)
  : list File :=
  let b := fold_left (classify priorityKeyword) files noBuckets in
  sortBy byName (cover b)
  ++ map file (sortBy byValueThenName (numbered b))
  ++ sortBy byName (others b).
End Orderer.

(** ** Reconciliation Engine *)

(** The table of the host, as [runUpload] uses it.  Every call is awaited
    and may reject; [World] is the state of the host. *)
Class Table (World : Type) `{Runtime} : Type := {
  Field : Type;
  getRecordIdList : World -> Res (list jsstring) * World;
  getField : jsstring -> World -> Res Field * World;
  getValue : Field -> jsstring -> World -> Res JsValue * World;
  setValue : Field -> jsstring -> list File -> World -> Res unit * World
}.

(** The lines [runUpload] hands to [appendLog], one constructor per template
    literal, carrying the interpolated values. *)
Inductive LogLine `{Runtime} : Type :=
| LogNoTable
| LogSelectFields
| LogSelectFiles
| LogFetching
| LogRecordKey (recordId key : jsstring) (raw : JsValue)
| LogFetched (records keys : nat)
| LogNoSubfolders
| LogFolders (count : nat) (folderKeys : list jsstring)
| LogMatchKeys (matchKeys : list jsstring)
| LogProcessing (folder : jsstring)
| LogNoMatch (folderKey : jsstring) (available : list jsstring)
| LogNothingToUpload
| LogOverLimit (total : nat) (limit : Z)
| LogUploadOrder (names : list jsstring)
| LogUpdated (recordId : jsstring) (uploaded : nat)
| LogUploadFailed (text : jsstring)
| LogDone (success failed skipped : nat)
| LogRunError (text : jsstring).

(** State of the component that [runUpload] reads. *)
Record AppState : Type := {
  tableReady : bool;
  matchFieldId : jsstring;
  uploadFieldId : jsstring;
  maxImages : Z;
  priorityKeyword : jsstring;
  selectedFiles : list File
}.

(** The three counters of the loop. *)
Record Counts : Type := { success : nat; failed : nat; skipped : nat }.

Definition noCounts : Counts := {| success := 0; failed := 0; skipped := 0 |}.

Section Engine.
Context `{Runtime} {World : Type} `{!Table World}.

(** What a run changes: the host, the [logs] and [busy] state of the
    component, and the write requests handed to [setValue] so far, oldest
    first. *)
Record RunState : Type := {
  world : World;
  logs : list LogLine;
  busy : bool;
  issued : list (jsstring * list File)
}.

(** Computations over the run state that may throw. *)
Definition M (A : Type) : Type := RunState -> Res A * RunState.

Definition ret {A : Type} (a : A) : M A := fun st => (Ok a, st).

(** A call that returns or throws without touching the state. *)
Definition liftRes {A : Type} (r : Res A) : M A := fun st => (r, st).

Definition bind {A B : Type} (c : M A) (k : A -> M B) : M B :=
  fun st =>
    match c st with
    | (Ok a, st') => k a st'
    | (Throw e, st') => (Throw e, st')
    end.

Definition tryCatch {A : Type} (c : M A) (handler : Exn -> M A) : M A :=
  fun st =>
    match c st with
    | (Ok a, st') => (Ok a, st')
    | (Throw e, st') => handler e st'
    end.

Definition tryFinally {A : Type} (c : M A) (cleanup : M unit) : M A :=
  fun st =>
    match c st with
    | (r, st') =>
        match cleanup st' with
        | (Ok _, st'') => (r, st'')
        | (Throw e, st'') => (Throw e, st'')
        end
    end.

(** [appendLog], lines 97-99: newest first, 500 lines kept. *)
Definition appendLog (line : LogLine) : M unit :=
  fun st =>
    (Ok tt, {| world := world st; logs := firstn 500 (line :: logs st);
               busy := busy st; issued := issued st |}).

Definition setLogs (lines : list LogLine) : M unit :=
  fun st =>
    (Ok tt, {| world := world st; logs := lines;
               busy := busy st; issued := issued st |}).

Definition setBusy (b : bool) : M unit :=
  fun st =>
    (Ok tt, {| world := world st; logs := logs st;
               busy := b; issued := issued st |}).

(** An awaited call on the host. *)
Definition await {A : Type} (call : World -> Res A * World) : M A :=
  fun st =>
    let (r, w) := call (world st) in
    (r, {| world := w; logs := logs st;
           busy := busy st; issued := issued st |}).

(** [await uploadField.setValue(recordId, uploadList)]. *)
Definition awaitSetValue (uploadField : Field) (recordId : jsstring)
  (uploadList : list File) : M unit :=
  fun st =>
    let (r, w) := setValue uploadField recordId uploadList (world st) in
    (r, {| world := w; logs := logs st; busy := busy st;
           issued := issued st ++ [(recordId, uploadList)] |}).
Local Notation "x <- c ;; k" := (bind c (fun x => k))
  (at level 61, c at next level, right associativity).
Local Notation "c ;; k" := (bind c (fun _ => k))
  (at level 61, right associativity).

(** The loop of lines 188-198. *)
Fixpoint buildMatchMap (matchField : Field) (recordIds : list jsstring)
  (matchMap : list (jsstring * jsstring))
  : M (list (jsstring * jsstring)) :=
  match recordIds with
  | [] => ret matchMap
  | recordId :: rest =>
      raw <- await (getValue matchField recordId) ;;
      key <- liftRes (normalizeMatchValue raw) ;;
      let matchMap' :=
        if truthy key then keyedSet matchMap key recordId else matchMap in
      appendLog (LogRecordKey recordId key raw) ;;
      buildMatchMap matchField rest matchMap'
  end.

(** [Math.max(1, maxImages || 0)] for a whole number [maxImages]. *)
Definition uploadLimit (app : AppState) : Z :=
  Z.max 1 (if (maxImages app =? 0)%Z then 0%Z else maxImages app).

(** [ordered.slice(0, limit)]; [limit] is at least 1 here. *)
Definition slice0 {A : Type} (l : list A) (limit : Z) : list A :=
  firstn (Z.to_nat limit) l.

(** [matchMap.get(folderKey)] read through [if (!recordId)]: a missing
    entry and an empty record id both count as no match. *)
Definition matchedRecord (matchMap : list (jsstring * jsstring))
  (folderKey : jsstring) : option jsstring :=
  match keyedGet matchMap folderKey with
  | Some recordId => if truthy recordId then Some recordId else None
  | None => None
  end.

(** The body of the loop over the groups, lines 225-268. *)
Definition processGroup (app : AppState) (uploadField : Field)
  (matchMap : list (jsstring * jsstring)) (limit : Z) (c : Counts)
  (group : jsstring * list File) : M Counts :=
  let (folder, files) := group in
  appendLog (LogProcessing folder) ;;
  let folderKey := normalizeFolderName folder in
  match matchedRecord matchMap folderKey with
  | None =>
      appendLog (LogNoMatch folderKey (map fst matchMap)) ;;
      ret {| success := success c; failed := failed c;
             skipped := skipped c + 1 |}
  | Some recordId =>
      let ordered := orderFiles files (priorityKeyword app) in
      let uploadList := slice0 ordered limit in
      match uploadList with
      | [] =>
          appendLog LogNothingToUpload ;;
          ret {| success := success c; failed := failed c;
                 skipped := skipped c + 1 |}
      | _ :: _ =>
          (if (limit <? Z.of_nat (List.length files))%Z
           then appendLog (LogOverLimit (List.length files) limit)
           else ret tt) ;;
          appendLog (LogUploadOrder (map name uploadList)) ;;
          tryCatch
            (awaitSetValue uploadField recordId uploadList ;;
             appendLog (LogUpdated recordId (List.length uploadList)) ;;
             ret {| success := success c + 1; failed := failed c;
                    skipped := skipped c |})
            (fun err =>
               appendLog (LogUploadFailed (errorMessage err)) ;;
               ret {| success := success c; failed := failed c + 1;
                      skipped := skipped c |})
      end
  end.

(** [for (const [folder, files] of groups)]. *)
Fixpoint forGroups (body : Counts -> jsstring * list File -> M Counts)
  (groups : list (jsstring * list File)) (c : Counts) : M Counts :=
  match groups with
  | [] => ret c
  | g :: rest => c' <- body c g ;; forGroups body rest c'
  end.

(** Lines 183-202: the fields and the key to record id map. *)
Definition fetchMatchMap (app : AppState)
  : M (Field * list (jsstring * jsstring)) :=
  appendLog LogFetching ;;
  recordIds <- await getRecordIdList ;;
  matchField <- await (getField (matchFieldId app)) ;;
  uploadField <- await (getField (uploadFieldId app)) ;;
  matchMap <- buildMatchMap matchField recordIds [] ;;
  appendLog (LogFetched (List.length recordIds) (List.length matchMap)) ;;
  ret (uploadField, matchMap).

(** Lines 204-273: the groups, the loop and the summary. *)
Definition runGroups (app : AppState) (uploadField : Field)
  (matchMap : list (jsstring * jsstring)) (groupedFiles : GroupedFiles)
  : M unit :=
  let groups := Object_entries groupedFiles in
  match groups with
  | [] => appendLog LogNoSubfolders
  | _ :: _ =>
      appendLog
        (LogFolders (List.length groups)
           (map (fun g => normalizeFolderName (fst g)) groups)) ;;
      appendLog (LogMatchKeys (map fst matchMap)) ;;
      let limit := uploadLimit app in
      c <- forGroups (processGroup app uploadField matchMap limit)
             groups noCounts ;;
      appendLog (LogDone (success c) (failed c) (skipped c))
  end.

(** Lines 183-273, the [try] block. *)
Definition runBody (app : AppState) (groupedFiles : GroupedFiles)
  : M unit :=
  fetched <- fetchMatchMap app ;;
  runGroups app (fst fetched) (snd fetched) groupedFiles.

(** [runUpload], lines 165-280.  [groupedFiles] is the memo of
    [groupFilesByFolder(selectedFiles)] of the current render. *)
Definition runUpload (app : AppState) (groupedFiles : GroupedFiles)
  : M unit :=
  if negb (tableReady app) then appendLog LogNoTable
  else if negb (truthy (matchFieldId app))
          || negb (truthy (uploadFieldId app))
  then appendLog LogSelectFields
  else match selectedFiles app with
       | [] => appendLog LogSelectFiles
       | _ :: _ =>
           setBusy true ;;
           setLogs [] ;;
           tryFinally
             (tryCatch (runBody app groupedFiles)
                (fun err => appendLog (LogRunError (errorMessage err))))
             (setBusy false)
       end.
End Engine.

(** ** A small host to run the model on *)

(** The numbers of the sample runtime are integers, printed in decimal. *)
Definition decimalString (z : Z) : jsstring :=
  u (NilZero.string_of_int (Z.to_int z)).

(** Code unit order, standing in for the collation. *)
Fixpoint codeUnitOrder (a b : jsstring) : Z :=
  match a, b with
  | [], [] => 0%Z
  | [], _ :: _ => (-1)%Z
  | _ :: _, [] => 1%Z
  | x :: a', y :: b' =>
      match N.compare x y with
      | Lt => (-1)%Z
      | Gt => 1%Z
      | Eq => codeUnitOrder a' b'
      end
  end.

Definition sampleRuntime : Runtime :=
  {| Num := Z; numberToString := decimalString;
     localeCompare := codeUnitOrder;
     conversionError := u "Cannot convert object to primitive value" |}.

(** A table whose rows hold the value of the match field, and which rejects
    the writes to the records listed in [rejecting]. *)
Record SampleWorld : Type := {
  rows : list (jsstring * @JsValue sampleRuntime);
  rejecting : list jsstring
}.

Definition sampleTable : @Table SampleWorld sampleRuntime :=
  {| Field := jsstring;
     getRecordIdList := fun w => (Ok (map fst (rows w)), w);
     getField := fun id w => (Ok id, w);
     getValue := fun _ recordId w =>
       (Ok match keyedGet (rows w) recordId with
           | Some v => v
           | None => JNull
           end, w);
     setValue := fun _ recordId _ w =>
       if existsb (streq recordId) (rejecting w)
       then (Throw {| message := u "write rejected" |}, w)
       else (Ok tt, w) |}.

(** A file as the folder picker delivers it: [name] is the last segment of
    the relative path. *)
Definition fileAt (path : jsstring) (id : N) : File :=
  {| name := last (splitPath path) []; webkitRelativePath := path;
     blob := id |}.

(** A file known by its name only. *)
Definition fileNamed (fileName : jsstring) : File :=
  {| name := fileName; webkitRelativePath := []; blob := 0 |}.

(** ** Notions used in the statements *)

(** No leading white space. *)
Definition startsClean (s : jsstring) : bool :=
  match s with
  | [] => true
  | c :: _ => negb (isSpace c)
  end.

(** Every white space code unit is one ASCII space, followed by something
    that is not white space (or by the end). *)
Fixpoint singleSpaced (s : jsstring) : bool :=
  match s with
  | [] => true
  | c :: r =>
      (if isSpace c then N.eqb c SPACE && startsClean r else true)
      && singleSpaced r
  end.

(** The strings [normalizeWhitespace] leaves alone. *)
Definition Normal (s : jsstring) : Prop :=
  singleSpaced s = true /\ startsClean s = true /\ trimEnd s = s.


(** The group a file is filed under: the first segment of its path once the
    inferred root is dropped, provided another segment follows. *)
Definition folderOf (root : jsstring) (f : File) : option jsstring :=
  match withoutRoot root (pathParts f) with
  | folder :: _ :: _ => Some folder
  | _ => None
  end.

(** The immediate parent folder of a file: the last directory segment of its
    relative path. *)
Definition parentFolder (f : File) : option jsstring :=
  match rev (pathParts f) with
  | _ :: parent :: _ => Some parent
  | _ => None
  end.

(** The integer [orderFiles] reads off a file name: [parseInt] of the last
    digit run of the base name. *)
Definition numberOf (f : File) : option jsint :=
  match lastRun (digitRuns (baseName (name f))) with
  | Some run => parseInt run
  | None => None
  end.

(** The three buckets, each as a selection from the input. *)
Definition coverOf (priorityKeyword : jsstring) (files : list File)
  : list File :=
  filter (isCover priorityKeyword) files.

Definition numberedOf (priorityKeyword : jsstring) (files : list File)
  : list Numbered :=
  flat_map
    (fun f =>
       if isCover priorityKeyword f then []
       else match numberOf f with
            | Some n => [{| value := n; file := f |}]
            | None => []
            end)
    files.

Definition othersOf (priorityKeyword : jsstring) (files : list File)
  : list File :=
  filter
    (fun f =>
       negb (isCover priorityKeyword f)
       && match numberOf f with Some _ => false | None => true end)
    files.

(** Order of the numbers [parseInt] yields. *)
Definition jsle (a b : jsint) : Prop :=
  match a, b with
  | Finite x, Finite y => (x <= y)%N
  | _, PosInfinity => True
  | PosInfinity, Finite _ => False
  end.

Definition total (c : Counts) : nat := success c + failed c + skipped c.

(** ** Sample inputs *)

(** "A/X/1.png" and "B/Y/2.png": no shared root. *)
Definition twoRoots : list File :=
  [fileAt (u "A/X/1.png") 1; fileAt (u "B/Y/2.png") 2].

(** A file two levels below the root. *)
Definition nestedFile : File := fileAt (u "root/X/sub/a.png") 1.


(** Five numbered files, out of order. *)
Definition fiveNumbered : list File :=
  map fileNamed [u "5.png"; u "3.png"; u "1.png"; u "4.png"; u "2.png"].

Definition sampleApp : AppState :=
  {| tableReady := true; matchFieldId := u "fldKey";
     uploadFieldId := u "fldImages"; maxImages := 3;
     priorityKeyword := FENGMIAN;
     selectedFiles :=
       [fileAt (u "root/Alice/1.png") 1; fileAt (u "root/Carol/1.png") 2] |}.

Definition aliceOnly : SampleWorld :=
  {| rows := [(u "r1", @JString sampleRuntime (u "Alice"))];
     rejecting := [] |}.

Definition aliceRejected : SampleWorld :=
  {| rows := [(u "r1", @JString sampleRuntime (u "Alice"))];
     rejecting := [u "r1"] |}.

Definition startOn (w : SampleWorld)
  : @RunState sampleRuntime SampleWorld :=
  {| world := w; logs := []; busy := false; issued := [] |}.

(** The outcome of one group, and the counter it moves. *)
Inductive Outcome : Type := Succeeded | Failed | Skipped.

Definition bump (o : Outcome) (c : Counts) : Counts :=
  match o with
  | Succeeded =>
      {| success := success c + 1; failed := failed c; skipped := skipped c |}
  | Failed =>
      {| success := success c; failed := failed c + 1; skipped := skipped c |}
  | Skipped =>
      {| success := success c; failed := failed c; skipped := skipped c + 1 |}
  end.

(** The run state once [setBusy(true)] and [setLogs([])] are done. *)
Definition startRun `{Runtime} {World : Type} (st : @RunState _ World)
  : @RunState _ World :=
  {| world := world st; logs := []; busy := true; issued := issued st |}.

(** The counters after a sequence of outcomes. *)
Definition tally (outcomes : list Outcome) (c : Counts) : Counts :=
  fold_left (fun c o => bump o c) outcomes c.

(** The run state in which the loop over the groups starts: the two
    header lines of lines 216-217 are logged on top of [st]. *)
Definition loopEntry `{Runtime} {World : Type}
  (matchMap : list (jsstring * jsstring))
  (groups : list (jsstring * list File)) (st : @RunState _ World)
  : @RunState _ World :=
  {| world := world st;
     logs :=
       firstn 500
         (LogMatchKeys (map fst matchMap)
          :: firstn 500
               (LogFolders (List.length groups)
                  (map (fun g => normalizeFolderName (fst g)) groups)
                :: logs st));
     busy := busy st; issued := issued st |}.

(** A table whose first record has a blank match value. *)
Definition blankRow : SampleWorld :=
  {| rows := [(u "r1", @JString sampleRuntime (u "  "));
              (u "r2", @JString sampleRuntime (u "Alice"))];
     rejecting := [] |}.

(** ["img_v2_010.png", "img_v9_3.png"]. *)
Definition versionedNames : list File :=
  map fileNamed [u "img_v2_010.png"; u "img_v9_3.png"].

(** ["a2.mp3", "b1.mp4"]: the digits of the extensions run against the
    digits of the base names. *)
Definition digitExtensions : list File :=
  map fileNamed [u "a2.mp3"; u "b1.mp4"].

(** A table whose first record holds [{toString: "x"}]. *)
Definition hiddenToString : SampleWorld :=
  {| rows := [(u "r1",
               @JObject sampleRuntime
                 [(u "toString", @JString sampleRuntime (u "x"))]);
              (u "r2", @JString sampleRuntime (u "Alice"))];
     rejecting := [] |}.


(** ** Further parts of the component *)

(** [Object.values(obj)]. *)
Definition Object_values {V : Type} (obj : list (jsstring * V)) : list V :=
  map snd (Object_entries obj).

(** [totalImages], lines 90-95. *)
Definition totalImages (groupedFiles : GroupedFiles) : nat :=
  fold_left (fun sum files => sum + List.length files)
            (Object_values groupedFiles) 0.

(** Whether the grouping files [f] under [key]. *)
Definition filedUnder (root key : jsstring) (f : File) : bool :=
  match folderOf root f with
  | Some folder => streq folder key
  | None => false
  end.

(** A property of an object with the given files, if there are any. *)
Definition asGroup (files : list File) : option (list File) :=
  match files with
  | [] => None
  | _ :: _ => Some files
  end.

(** The setup checks of [runUpload], lines 166-177. *)
Definition setupOk (app : AppState) : bool :=
  tableReady app
  && truthy (matchFieldId app)
  && truthy (uploadFieldId app)
  && match selectedFiles app with [] => false | _ :: _ => true end.

Section Plans.
Context `{Runtime}.

(** The write a group leads to, told from the inputs of the loop alone:
    none when no record matches or nothing is left to upload. *)
Definition plannedWrite (app : AppState)
  (matchMap : list (jsstring * jsstring)) (limit : Z)
  (group : jsstring * list File) : list (jsstring * list File) :=
  match matchedRecord matchMap (normalizeFolderName (fst group)) with
  | Some recordId =>
      match slice0 (orderFiles (snd group) (priorityKeyword app)) limit with
      | [] => []
      | uploadList => [(recordId, uploadList)]
      end
  | None => []
  end.

Definition plannedWrites (app : AppState)
  (matchMap : list (jsstring * jsstring)) (limit : Z)
  (groups : list (jsstring * list File)) : list (jsstring * list File) :=
  flat_map (plannedWrite app matchMap limit) groups.

(** The lines a run of [runUpload] can end with. *)
Definition terminal (line : LogLine) : bool :=
  match line with
  | LogNoTable | LogSelectFields | LogSelectFiles | LogNoSubfolders
  | LogDone _ _ _ | LogRunError _ => true
  | _ => false
  end.
End Plans.

(** A table that cannot be reached: listing the records rejects. *)
Definition offlineTable : @Table SampleWorld sampleRuntime :=
  {| Field := jsstring;
     getRecordIdList := fun w => (Throw {| message := u "offline" |}, w);
     getField := fun id w => (Ok id, w);
     getValue := fun _ _ w => (Ok (@JNull sampleRuntime), w);
     setValue := fun _ _ _ w => (Ok tt, w) |}.

(** The sample component before any folder was picked. *)
Definition emptyApp : AppState :=
  {| tableReady := true; matchFieldId := u "fldKey";
     uploadFieldId := u "fldImages"; maxImages := 3;
     priorityKeyword := FENGMIAN; selectedFiles := [] |}.

(** Two records with the same key. *)
Definition twins : SampleWorld :=
  {| rows := [(u "r1", @JString sampleRuntime (u "Alice"));
              (u "r2", @JString sampleRuntime (u " Alice "))];
     rejecting := [] |}.

(** One card of [folderPreview], lines 282-291: its [folder], [total] and
    [preview]. *)
Record PreviewItem : Type := {
  itemFolder : jsstring;
  itemTotal : nat;
  itemPreview : list jsstring
}.

Definition folderPreview `{Runtime} (groupedFiles : GroupedFiles)
  (priorityKeyword : jsstring) : list PreviewItem :=
  map (fun g =>
         let ordered := orderFiles (snd g) priorityKeyword in
         {| itemFolder := fst g; itemTotal := List.length (snd g);
            itemPreview := map name (firstn 3 ordered) |})
      (Object_entries groupedFiles).

(** ** Picking files *)

Definition SUPPORTED_IMAGE_EXTS : list jsstring :=
  [u "jpg"; u "jpeg"; u "png"; u "gif"; u "bmp"; u "webp"].

(** [s.split(".")]. *)
Fixpoint splitDots (s : jsstring) : list jsstring :=
  match s with
  | [] => [[]]
  | c :: r =>
      if N.eqb c DOT then [] :: splitDots r
      else match splitDots r with
           | seg :: segs => (c :: seg) :: segs
           | [] => [[c]]
           end
  end.

(** Lower case of the letters A to Z. *)
Definition asciiLower (c : codeunit) : codeunit :=
  if ((65 <=? c) && (c <=? 90))%N then (c + 32)%N else c.

Definition isAscii (s : jsstring) : bool :=
  forallb (fun c => (c <? 128)%N) s.

(** What the picker and the drop zone log. *)
Inductive PickLog : Type :=
| LogNothingPicked
| LogPicked (images skipped : nat)
| LogReadingDrop
| LogNothingDropped
| LogDropped (images skipped : nat)
| LogDropFailed (text : jsstring).

(** An entry of the dropped items, as [traverseFileTree] reads it: a file
    whose [file()] call resolves or rejects, a directory whose one
    [readEntries()] call resolves with entries or rejects, or an entry that
    is neither. *)
#[local] Unset Elimination Schemes.
Inductive FsEntry : Type :=
| FsFile (file : File)
| FsFileUnreadable (e : Exn)
| FsDirectory (dirName : jsstring) (entries : list FsEntry)
| FsDirectoryUnreadable (dirName : jsstring) (e : Exn)
| FsOther.
#[local] Set Elimination Schemes.

(** [Object.defineProperty(file, "webkitRelativePath", { value })]. *)
Definition withRelativePath (file : File) (fullPath : jsstring) : File :=
  {| name := name file; webkitRelativePath := fullPath; blob := blob file |}.

(** [path ? `${path}/${leaf}` : leaf]. *)
Definition childPath (path leaf : jsstring) : jsstring :=
  if truthy path then path ++ [SLASH] ++ leaf else leaf.

(** [traverseFileTree], lines 614-645. *)
Fixpoint traverseFileTree (entry : FsEntry) (path : jsstring)
  (files : list File) : Res (list File) :=
  match entry with
  | FsFile file =>
      Ok (files ++ [withRelativePath file (childPath path (name file))])
  | FsFileUnreadable e => Throw e
  | FsDirectory dirName entries =>
      let newPath := childPath path dirName in
      forEach (fun collected child => traverseFileTree child newPath collected)
              entries files
  | FsDirectoryUnreadable _ e => Throw e
  | FsOther => Ok files
  end.

(** [getAllFilesFromItems], lines 595-612; an item whose
    [webkitGetAsEntry()] is [null] is [None]. *)
Definition getAllFilesFromItems (items : list (option FsEntry))
  : Res (list File) :=
  let entries :=
    flat_map (fun item => match item with Some e => [e] | None => [] end)
             items in
  forEach (fun collected entry => traverseFileTree entry [] collected)
          entries [].

Section Picker.
(** [String.prototype.toLowerCase], taken from the engine. *)
Variable toLowerCase : jsstring -> jsstring.

(** [isSupportedImage], lines 488-491. *)
Definition isSupportedImage (file : File) : bool :=
  let ext := toLowerCase (last (splitDots (name file)) []) in
  existsb (streq ext) SUPPORTED_IMAGE_EXTS.

Definition setSelectedFiles (app : AppState) (files : list File)
  : AppState :=
  {| tableReady := tableReady app; matchFieldId := matchFieldId app;
     uploadFieldId := uploadFieldId app; maxImages := maxImages app;
     priorityKeyword := priorityKeyword app; selectedFiles := files |}.

(** [handleFolderChange], lines 101-116: the new state and the line
    logged. *)
Definition handleFolderChange (files : list File) (app : AppState)
  : AppState * PickLog :=
  let imageFiles := filter isSupportedImage files in
  (setSelectedFiles app imageFiles,
   match files with
   | [] => LogNothingPicked
   | _ :: _ =>
       LogPicked (List.length imageFiles)
                 (List.length files - List.length imageFiles)
   end).

(** [handleDrop], lines 139-163: the new state and the lines logged, oldest
    first. *)
Definition handleDrop (items : list (option FsEntry)) (app : AppState)
  : AppState * list PickLog :=
  match items with
  | [] => (app, [LogReadingDrop; LogNothingDropped])
  | _ :: _ =>
      match getAllFilesFromItems items with
      | Ok files =>
          let imageFiles := filter isSupportedImage files in
          (setSelectedFiles app imageFiles,
           [LogReadingDrop;
            LogDropped (List.length imageFiles)
                       (List.length files - List.length imageFiles)])
      | Throw e => (app, [LogReadingDrop; LogDropFailed (errorMessage e)])
      end
  end.
End Picker.

(** The files below an entry, each with the directories that lead to it. *)
Fixpoint leaves (entry : FsEntry) : list (list jsstring * File) :=
  match entry with
  | FsFile file => [([], file)]
  | FsDirectory dirName entries =>
      map (fun leaf => (dirName :: fst leaf, snd leaf))
          (flat_map leaves entries)
  | _ => []
  end.

(** Every read below the entry resolves. *)
Fixpoint readable (entry : FsEntry) : bool :=
  match entry with
  | FsFile _ | FsOther => true
  | FsDirectory _ entries => forallb readable entries
  | FsFileUnreadable _ | FsDirectoryUnreadable _ _ => false
  end.

(** A name of a file or a directory: not empty, no path separator. *)
Definition cleanName (s : jsstring) : bool :=
  truthy s && negb (existsb isPathSep s).

Fixpoint cleanNames (entry : FsEntry) : bool :=
  match entry with
  | FsFile file => cleanName (name file)
  | FsDirectory dirName entries =>
      cleanName dirName && forallb cleanNames entries
  | _ => true
  end.

(** Where the traversal puts a leaf found below the directories [segs]. *)
Definition placed (segs : list jsstring) (leaf : list jsstring * File)
  : File :=
  withRelativePath (snd leaf)
    (join [SLASH] (segs ++ fst leaf ++ [name (snd leaf)])).

(** ASCII lower casing, standing in for [toLowerCase]. *)
Definition lowerAscii (s : jsstring) : jsstring := map asciiLower s.

(** A dropped folder "root" with a loose file and two sub-folders. *)
Definition droppedTree : FsEntry :=
  FsDirectory (u "root")
    [FsFile (fileNamed (u "loose.png"));
     FsDirectory (u "Alice")
       [FsFile (fileNamed (u "1.png"));
        FsDirectory (u "raw") [FsFile (fileNamed (u "2.JPG"))]];
     FsDirectory (u "Carol") [FsFile (fileNamed (u "notes.txt"))]].

(** ** Default fields *)

(** The field types the component tells apart. *)
Inductive FieldType : Type := Text | Number | Attachment | OtherType.

(** [IFieldMeta], as far as the component reads it. *)
Record FieldMeta : Type := { fieldId : jsstring; fieldType : FieldType }.

Definition isTextOrNumber (field : FieldMeta) : bool :=
  match fieldType field with Text | Number => true | _ => false end.

Definition isAttachment (field : FieldMeta) : bool :=
  match fieldType field with Attachment => true | _ => false end.

(** The effect of lines 67-84: what [matchFieldId] and [uploadFieldId] are
    after it has run on the given state. *)
Definition chooseDefaultFields (fieldMetaList : list FieldMeta)
  (app : AppState) : AppState :=
  match fieldMetaList with
  | [] => app
  | _ :: _ =>
      let matchId :=
        if truthy (matchFieldId app) then matchFieldId app
        else match find isTextOrNumber fieldMetaList with
             | Some textField => fieldId textField
             | None => matchFieldId app
             end in
      let uploadId :=
        if truthy (uploadFieldId app) then uploadFieldId app
        else match find isAttachment fieldMetaList with
             | Some attachmentField => fieldId attachmentField
             | None => uploadFieldId app
             end in
      {| tableReady := tableReady app; matchFieldId := matchId;
         uploadFieldId := uploadId; maxImages := maxImages app;
         priorityKeyword := priorityKeyword app;
         selectedFiles := selectedFiles app |}
  end.

(** A dropped folder with a file that cannot be read. *)
Definition brokenTree : FsEntry :=
  FsDirectory (u "root")
    [FsDirectory (u "Alice") [FsFile (fileNamed (u "1.png"))];
     FsDirectory (u "Carol")
       [FsFileUnreadable {| message := u "NotFoundError" |}]].

(** * Proofs *)

Unset Implicit Arguments.

(** ** Strings *)

Lemma streq_eq (a b : jsstring) : streq a b = true <-> a = b.
Proof.
  revert b; induction a as [|x a IH]; intros [|y b]; simpl; split;
    try congruence; try reflexivity.
  - intros E. apply andb_true_iff in E as [E1 E2].
    apply N.eqb_eq in E1. apply IH in E2. congruence.
  - intros E. injection E as -> ->. rewrite N.eqb_refl. simpl.
    now apply IH.
Qed.

Lemma streq_refl (a : jsstring) : streq a a = true.
Proof. now apply streq_eq. Qed.

Lemma streq_neq (a b : jsstring) : streq a b = false <-> a <> b.
Proof.
  split.
  - intros E ->. rewrite streq_refl in E. discriminate.
  - intros N. destruct (streq a b) eqn:E; [|reflexivity].
    apply streq_eq in E. contradiction.
Qed.

Lemma SPACE_isSpace : isSpace SPACE = true.
Proof. reflexivity. Qed.

Lemma COMMA_not_space : isSpace COMMA = false.
Proof. reflexivity. Qed.

Lemma startsClean_dropWhile (s : jsstring) :
  startsClean (dropWhile isSpace s) = true.
Proof.
  induction s as [|c r IH]; simpl; [reflexivity|].
  destruct (isSpace c) eqn:E; [exact IH|]. simpl. now rewrite E.
Qed.

Lemma singleSpaced_tail (c : codeunit) (r : jsstring) :
  singleSpaced (c :: r) = true -> singleSpaced r = true.
Proof. simpl. intros E. now apply andb_true_iff in E. Qed.

Lemma singleSpaced_dropWhile (s : jsstring) :
  singleSpaced s = true -> singleSpaced (dropWhile isSpace s) = true.
Proof.
  induction s as [|c r IH]; [reflexivity|]. intros E. simpl.
  destruct (isSpace c); [apply IH; eapply singleSpaced_tail; eauto|exact E].
Qed.

Lemma collapseSpaces_shape (s : jsstring) :
  forall inRun,
    singleSpaced (collapseSpaces inRun s) = true
    /\ (inRun = true -> startsClean (collapseSpaces inRun s) = true).
Proof.
  induction s as [|c r IH]; intros inRun; simpl; [now split|].
  destruct (isSpace c) eqn:E.
  - destruct inRun.
    + apply IH.
    + destruct (IH true) as [I1 I2]. split; [|discriminate].
      change (singleSpaced (SPACE :: collapseSpaces true r) = true).
      cbn [singleSpaced]. rewrite SPACE_isSpace, I1, I2 by reflexivity.
      reflexivity.
  - destruct (IH false) as [I1 _]. split.
    + simpl. now rewrite E, I1.
    + intros _. simpl. now rewrite E.
Qed.

Lemma trimEnd_cons (c : codeunit) (r : jsstring) :
  trimEnd (c :: r) =
  match trimEnd r with
  | [] => if isSpace c then [] else [c]
  | _ :: _ => c :: trimEnd r
  end.
Proof. simpl. now destruct (trimEnd r). Qed.

Lemma startsClean_trimEnd (s : jsstring) :
  startsClean s = true -> startsClean (trimEnd s) = true.
Proof.
  destruct s as [|c r]; [reflexivity|]. intros E. rewrite trimEnd_cons.
  simpl in E. destruct (trimEnd r); [|exact E].
  destruct (isSpace c) eqn:C; [reflexivity|]. simpl. now rewrite C.
Qed.

Lemma startsClean_trimEnd_tail (r : jsstring) :
  startsClean r = true -> startsClean (trimEnd r) = true.
Proof. apply startsClean_trimEnd. Qed.

Lemma singleSpaced_trimEnd (s : jsstring) :
  singleSpaced s = true -> singleSpaced (trimEnd s) = true.
Proof.
  induction s as [|c r IH]; [reflexivity|]. intros E.
  rewrite trimEnd_cons. simpl in E. apply andb_true_iff in E as [E1 E2].
  specialize (IH E2).
  destruct (trimEnd r) as [|d t] eqn:T.
  - destruct (isSpace c) eqn:C; [reflexivity|]. simpl. now rewrite C.
  - change (singleSpaced (c :: d :: t) = true). simpl.
    simpl in IH. rewrite IH. rewrite andb_true_r.
    destruct (isSpace c); [|reflexivity].
    apply andb_true_iff in E1 as [E1 E3]. rewrite E1. simpl.
    apply startsClean_trimEnd in E3. rewrite T in E3. exact E3.
Qed.

Lemma trimEnd_idem (s : jsstring) : trimEnd (trimEnd s) = trimEnd s.
Proof.
  induction s as [|c r IH]; [reflexivity|]. rewrite trimEnd_cons.
  destruct (trimEnd r) as [|d t] eqn:T.
  - destruct (isSpace c) eqn:C; [reflexivity|]. simpl. now rewrite C.
  - rewrite trimEnd_cons, IH. reflexivity.
Qed.

Lemma normalizeWhitespace_Normal (s : jsstring) :
  Normal (normalizeWhitespace s).
Proof.
  unfold normalizeWhitespace, trim, trimStart.
  set (t := collapseSpaces false _).
  destruct (collapseSpaces_shape
              (map (fun c => if N.eqb c IDEOGRAPHIC_SPACE then SPACE else c) s)
              false) as [S1 _]. fold t in S1.
  repeat split.
  - now apply singleSpaced_trimEnd, singleSpaced_dropWhile.
  - apply startsClean_trimEnd, startsClean_dropWhile.
  - apply trimEnd_idem.
Qed.

Lemma singleSpaced_map (s : jsstring) :
  singleSpaced s = true ->
  map (fun c => if N.eqb c IDEOGRAPHIC_SPACE then SPACE else c) s = s.
Proof.
  induction s as [|c r IH]; [reflexivity|]. intros E. simpl in *.
  apply andb_true_iff in E as [E1 E2]. rewrite (IH E2). f_equal.
  destruct (N.eqb c IDEOGRAPHIC_SPACE) eqn:C; [|reflexivity].
  apply N.eqb_eq in C. subst c. discriminate E1.
Qed.

Lemma singleSpaced_collapse (s : jsstring) :
  singleSpaced s = true ->
  forall inRun, (inRun = true -> startsClean s = true) ->
  collapseSpaces inRun s = s.
Proof.
  induction s as [|c r IH]; [reflexivity|]. intros E inRun Hrun.
  simpl in *. apply andb_true_iff in E as [E1 E2].
  destruct (isSpace c) eqn:C.
  - apply andb_true_iff in E1 as [E1 E3]. apply N.eqb_eq in E1. subst c.
    destruct inRun.
    + specialize (Hrun eq_refl). discriminate.
    + f_equal. apply IH; auto.
  - f_equal. apply IH; auto. discriminate.
Qed.

Lemma startsClean_dropWhile_id (s : jsstring) :
  startsClean s = true -> dropWhile isSpace s = s.
Proof.
  destruct s as [|c r]; [reflexivity|]. simpl.
  now destruct (isSpace c).
Qed.

Lemma Normal_fixed (s : jsstring) : Normal s -> normalizeWhitespace s = s.
Proof.
  intros (S1 & S2 & S3). unfold normalizeWhitespace, trim, trimStart.
  rewrite singleSpaced_map by assumption.
  rewrite singleSpaced_collapse by (auto; discriminate).
  rewrite startsClean_dropWhile_id by assumption. exact S3.
Qed.


Lemma nospace_Normal (s : jsstring) :
  existsb isSpace s = false -> Normal s.
Proof.
  intros E. repeat split.
  - induction s as [|c r IH]; [reflexivity|]. simpl in *.
    apply orb_false_iff in E as [E1 E2]. rewrite E1. now apply IH.
  - destruct s as [|c r]; [reflexivity|]. simpl in *.
    apply orb_false_iff in E as [E1 _]. now rewrite E1.
  - induction s as [|c r IH]; [reflexivity|]. simpl in E.
    apply orb_false_iff in E as [E1 E2]. rewrite trimEnd_cons, (IH E2).
    destruct r; [now rewrite E1|reflexivity].
Qed.

Lemma trimEnd_app (a b : jsstring) :
  trimEnd b <> [] -> trimEnd (a ++ b) = a ++ trimEnd b.
Proof.
  intros N. induction a as [|c a IH]; [reflexivity|].
  rewrite <- app_comm_cons, trimEnd_cons, IH.
  destruct (a ++ trimEnd b) eqn:E; [|now rewrite <- E].
  apply app_eq_nil in E as [_ E]. contradiction.
Qed.




Section NormalizerFacts.
Context `{Runtime}.
Hypothesis numberToString_plain :
  forall n, existsb isSpace (numberToString n) = false.




End NormalizerFacts.


Lemma normalizeFolderName_eq `{Runtime} (folder : jsstring) :
  normalizeFolderName folder
  = normalizeWhitespace
      (cutSuffix copyMarkSuffix
         (cutSuffix copyNumberSuffix (normalizeWhitespace folder))).
Proof. reflexivity. Qed.




Lemma normalizeWithin_throws `{Runtime} (budget : nat) :
  forall v e, normalizeWithin budget v = Throw e -> e = CANNOT_CONVERT.
Proof.
  induction budget as [|budget IH]; intros v e E; [discriminate|].
  assert (J : forall items,
             joinTruthy (normalizeWithin budget) items = Throw e ->
             e = CANNOT_CONVERT).
  { intros items. unfold joinTruthy.
    induction items as [|x items IHi]; simpl; [discriminate|].
    destruct (normalizeWithin budget x) as [b|e'] eqn:X.
    - destruct (mapRes (normalizeWithin budget) items); [discriminate|].
      intros [= <-]. now apply IHi.
    - intros [= <-]. exact (IH _ _ X). }
  destruct v; simpl in E; try discriminate E.
  - exact (J _ E).
  - repeat match type of E with
      | match getProp ?p ?k with _ => _ end = _ => destruct (getProp p k)
      end;
      try discriminate E; try exact (J _ E);
      unfold objectToString in E;
      destruct (hasOwn props (u "toString")); try discriminate E;
      now injection E as <-.
Qed.


(** ** Keyed collections *)

Section Keyed.
Variable V : Type.
Implicit Types (entries : list (jsstring * V)) (key : jsstring) (v : V).

Lemma keyedGet_In entries key v :
  keyedGet entries key = Some v -> In (key, v) entries.
Proof.
  induction entries as [|[k w] rest IH]; simpl; [discriminate|].
  destruct (streq k key) eqn:E.
  - apply streq_eq in E. intros [= ->]. subst. now left.
  - intros G. right. now apply IH.
Qed.

Lemma keyedGet_set_same entries key v :
  keyedGet (keyedSet entries key v) key = Some v.
Proof.
  induction entries as [|[k w] rest IH]; simpl.
  - now rewrite streq_refl.
  - destruct (streq k key) eqn:E; simpl; now rewrite E.
Qed.

Lemma keyedGet_set_other entries key key' v :
  key' <> key ->
  keyedGet (keyedSet entries key v) key' = keyedGet entries key'.
Proof.
  intros N. induction entries as [|[k w] rest IH]; simpl.
  - destruct (streq key key') eqn:E; [|reflexivity].
    apply streq_eq in E. congruence.
  - destruct (streq k key) eqn:E; simpl.
    + apply streq_eq in E. subst k.
      destruct (streq key key') eqn:E'; [|reflexivity].
      apply streq_eq in E'. congruence.
    + now rewrite IH.
Qed.

Lemma In_keyedSet entries key v k w :
  In (k, w) (keyedSet entries key v) ->
  In (k, w) entries \/ (k = key /\ w = v).
Proof.
  induction entries as [|[k0 w0] rest IH]; simpl.
  - intros [[= <- <-]|[]]. now right.
  - destruct (streq k0 key) eqn:E; simpl.
    + apply streq_eq in E. subst k0.
      intros [[= <- <-]|I]; [now right|left; now right].
    + intros [E'|I]; [left; now left|].
      destruct (IH I) as [I'|I']; [left; now right|now right].
Qed.

Lemma keyedGet_none_keys entries key :
  keyedGet entries key = None <-> ~ In key (map fst entries).
Proof.
  induction entries as [|[k w] rest IH]; simpl; [tauto|].
  destruct (streq k key) eqn:E.
  - apply streq_eq in E. split; [discriminate|]. intros N. tauto.
  - apply streq_neq in E. rewrite IH. tauto.
Qed.

Lemma keys_keyedSet entries key v k :
  In k (map fst (keyedSet entries key v)) ->
  k = key \/ In k (map fst entries).
Proof.
  induction entries as [|[k0 w0] rest IH]; simpl.
  - intros [<-|[]]. now left.
  - destruct (streq k0 key) eqn:E; simpl; [tauto|].
    intros [<-|I]; [tauto|]. destruct (IH I); tauto.
Qed.
End Keyed.

(** ** File Grouper *)

Lemma splitPath_nonempty (s : jsstring) : splitPath s <> [].
Proof.
  destruct s as [|c r]; simpl; [discriminate|].
  destruct (isPathSep c); [discriminate|].
  destruct (splitPath r); discriminate.
Qed.

Lemma groupOne_folderOf (root : jsstring) (grouped : GroupedFiles)
  (f : File) :
  groupOne root grouped f =
  match folderOf root f with
  | Some folder => pushFile grouped folder f
  | None => Ok grouped
  end.
Proof.
  unfold groupOne, folderOf.
  destruct (pathParts f) as [|p0 ps] eqn:P; [reflexivity|].
  destruct (withoutRoot root (p0 :: ps)) as [|a [|b rest]]; reflexivity.
Qed.

Lemma pushFile_adds (grouped grouped' : GroupedFiles) (folder : jsstring)
  (f : File) :
  pushFile grouped folder f = Ok grouped' ->
  exists fs, keyedGet grouped' folder = Some fs /\ In f fs.
Proof.
  unfold pushFile. destruct (keyedGet grouped folder) as [fs|] eqn:G.
  - intros [= <-]. exists (fs ++ [f]). split.
    + apply keyedGet_set_same.
    + apply in_or_app. right. now left.
  - destruct (existsb _ _); [discriminate|]. intros [= <-].
    exists [f]. split; [apply keyedGet_set_same|now left].
Qed.

Lemma pushFile_keeps (grouped grouped' : GroupedFiles)
  (folder key : jsstring) (f : File) (fs : list File) :
  pushFile grouped folder f = Ok grouped' ->
  keyedGet grouped key = Some fs ->
  exists fs', keyedGet grouped' key = Some fs' /\ incl fs fs'.
Proof.
  unfold pushFile. intros P G.
  destruct (streq folder key) eqn:E.
  - apply streq_eq in E. subst key. rewrite G in P. injection P as <-.
    exists (fs ++ [f]). split; [apply keyedGet_set_same|].
    now apply incl_appl, incl_refl.
  - apply streq_neq in E.
    assert (K : forall v, keyedGet (keyedSet grouped folder v) key = Some fs).
    { intros v. rewrite keyedGet_set_other by congruence. exact G. }
    exists fs. split; [|apply incl_refl].
    destruct (keyedGet grouped folder).
    + injection P as <-. apply K.
    + destruct (existsb _ _); [discriminate|]. injection P as <-. apply K.
Qed.

Lemma pushFile_members (grouped grouped' : GroupedFiles)
  (folder key : jsstring) (f g : File) (fs : list File) :
  pushFile grouped folder f = Ok grouped' ->
  In (key, fs) grouped' -> In g fs ->
  (exists fs0, In (key, fs0) grouped /\ In g fs0) \/ (key = folder /\ g = f).
Proof.
  unfold pushFile. intros P I Hg.
  destruct (keyedGet grouped folder) as [old|] eqn:G.
  - injection P as <-. apply In_keyedSet in I as [I|[-> ->]].
    + left. now exists fs.
    + apply in_app_or in Hg as [Hg|[<-|[]]]; [|now right].
      left. exists old. split; [now apply keyedGet_In|exact Hg].
  - destruct (existsb _ _); [discriminate|]. injection P as <-.
    apply In_keyedSet in I as [I|[-> ->]].
    + left. now exists fs.
    + destruct Hg as [<-|[]]. now right.
Qed.

Section Grouping.
Variable root : jsstring.

Lemma forEach_keeps (files : list File) :
  forall grouped grouped' key fs,
    forEach (groupOne root) files grouped = Ok grouped' ->
    keyedGet grouped key = Some fs ->
    exists fs', keyedGet grouped' key = Some fs' /\ incl fs fs'.
Proof.
  induction files as [|x rest IH]; intros grouped grouped' key fs; simpl.
  - intros [= <-] G. exists fs. split; [exact G|apply incl_refl].
  - destruct (groupOne root grouped x) as [g1|e] eqn:S; [|discriminate].
    intros F G. rewrite groupOne_folderOf in S.
    assert (exists fs1, keyedGet g1 key = Some fs1 /\ incl fs fs1)
      as (fs1 & G1 & I1).
    { destruct (folderOf root x).
      - eapply pushFile_keeps; eauto.
      - injection S as <-. exists fs. split; [exact G|apply incl_refl]. }
    destruct (IH g1 grouped' key fs1 F G1) as (fs' & G' & I').
    exists fs'. split; [exact G'|]. eapply incl_tran; eauto.
Qed.

Lemma forEach_files (files : list File) :
  forall grouped grouped' f folder,
    forEach (groupOne root) files grouped = Ok grouped' ->
    In f files -> folderOf root f = Some folder ->
    exists fs, keyedGet grouped' folder = Some fs /\ In f fs.
Proof.
  induction files as [|x rest IH]; intros grouped grouped' f folder; simpl;
    [intros _ []|].
  destruct (groupOne root grouped x) as [g1|e] eqn:S; [|discriminate].
  intros F [->|I] Hf.
  - rewrite groupOne_folderOf, Hf in S.
    destruct (pushFile_adds grouped g1 folder f S) as (fs & G & I).
    destruct (forEach_keeps rest g1 grouped' folder fs F G) as (fs' & G' & I').
    exists fs'. split; [exact G'|now apply I'].
  - eapply IH; eauto.
Qed.

Lemma forEach_members (files : list File) :
  forall grouped grouped',
    forEach (groupOne root) files grouped = Ok grouped' ->
    (forall key fs g, In (key, fs) grouped -> In g fs ->
                      folderOf root g = Some key) ->
    forall key fs g, In (key, fs) grouped' -> In g fs ->
                     folderOf root g = Some key.
Proof.
  induction files as [|x rest IH]; intros grouped grouped'; simpl.
  - intros [= <-] Inv. exact Inv.
  - destruct (groupOne root grouped x) as [g1|e] eqn:S; [|discriminate].
    intros F Inv. apply (IH _ _ F).
    intros key fs g I Hg. rewrite groupOne_folderOf in S.
    destruct (folderOf root x) as [folder|] eqn:Fx.
    + destruct (pushFile_members grouped g1 folder key x g fs S I Hg)
        as [(fs0 & I0 & Hg0)|[-> ->]]; [eauto|exact Fx].
    + injection S as <-. eauto.
Qed.
End Grouping.

Lemma folderOf_other_root (root : jsstring) (f : File)
  (p0 p1 : jsstring) (more : list jsstring) :
  pathParts f = p0 :: p1 :: more -> p0 <> root ->
  folderOf root f = Some p0.
Proof.
  intros P N. unfold folderOf. rewrite P. simpl.
  apply streq_neq in N. now rewrite N.
Qed.

Lemma folderOf_parent (root : jsstring) (f : File) (key : jsstring) :
  folderOf root f = Some key ->
  List.length (withoutRoot root (pathParts f)) = 2 ->
  parentFolder f = Some key.
Proof.
  unfold folderOf, parentFolder.
  destruct (pathParts f) as [|p0 ps]; simpl; [discriminate|].
  destruct (streq p0 root).
  - destruct ps as [|a [|b [|c rest]]]; simpl; try discriminate.
    now intros [= ->] _.
  - destruct ps as [|b [|c rest]]; simpl; try discriminate.
    now intros [= ->] _.
Qed.

(** The grouping returns unless a folder is named like a property that every
    object inherits. *)
Lemma groupFilesByFolder_returns (files : list File) :
  (forall first f folder,
      hd_error files = Some first -> In f files ->
      folderOf (inferredRoot first) f = Some folder ->
      existsb (streq folder) objectPrototypeKeys = false) ->
  exists grouped, groupFilesByFolder files = Ok grouped.
Proof.
  destruct files as [|first rest]; [now exists []|].
  intros Hsafe. unfold groupFilesByFolder.
  assert (Hs : forall f folder,
             In f (first :: rest) ->
             folderOf (inferredRoot first) f = Some folder ->
             existsb (streq folder) objectPrototypeKeys = false)
    by (intros f folder; now apply Hsafe).
  clear Hsafe. generalize (@nil (jsstring * list File)).
  revert Hs. generalize (first :: rest) as files.
  induction files as [|x xs IH]; intros Hs grouped; simpl;
    [now exists grouped|].
  assert (exists g1, groupOne (inferredRoot first) grouped x = Ok g1)
    as (g1 & S).
  { rewrite groupOne_folderOf.
    destruct (folderOf (inferredRoot first) x) as [folder|] eqn:F;
      [|now exists grouped].
    unfold pushFile. destruct (keyedGet grouped folder); [eauto|].
    rewrite (Hs x folder (or_introl eq_refl) F). eauto. }
  rewrite S. apply IH. intros f folder I. apply Hs. now right.
Qed.

(** ** Worked examples *)

Example copy_number_suffix `{Runtime} :
  normalizeFolderName (u "Alice (2)") = u "Alice".
Proof. reflexivity. Qed.

Example copy_mark_suffix `{Runtime} :
  normalizeFolderName (u "Bob - " ++ FUBEN) = u "Bob".
Proof. reflexivity. Qed.

Example shallow_file_has_no_group :
  groupFilesByFolder [fileAt (u "root/a.png") 1] = Ok [].
Proof. reflexivity. Qed.

Example subfolder_file_is_grouped :
  groupFilesByFolder [fileAt (u "root/X/a.png") 1]
  = Ok [(u "X", [fileAt (u "root/X/a.png") 1])].
Proof. reflexivity. Qed.

Example inherited_name_throws :
  groupFilesByFolder [fileAt (u "root/constructor/a.png") 1]
  = Throw NOT_A_FUNCTION.
Proof. reflexivity. Qed.

Example index_keys_come_first :
  map fst (Object_entries [(u "X", 1%nat); (u "10", 2%nat); (u "2", 3%nat)])
  = [u "2"; u "10"; u "X"].
Proof. reflexivity. Qed.

Example parseInt_rounds_to_double :
  parseInt (u "9007199254740993") = Some (Finite 9007199254740992).
Proof. vm_compute. reflexivity. Qed.

(** ** Sorting *)

Section SortFacts.
Variable A : Type.
Variable cmp : A -> A -> Z.

Lemma insertSorted_perm (x : A) (l : list A) :
  Permutation (insertSorted cmp x l) (x :: l).
Proof.
  induction l as [|y r IH]; simpl; [reflexivity|].
  destruct (cmp x y <=? 0)%Z; [reflexivity|].
  rewrite IH. apply perm_swap.
Qed.

Lemma sortBy_perm (l : list A) : Permutation (sortBy cmp l) l.
Proof.
  induction l as [|x r IH]; simpl; [reflexivity|].
  rewrite insertSorted_perm. now constructor.
Qed.

Lemma sortBy_length (l : list A) :
  List.length (sortBy cmp l) = List.length l.
Proof. apply Permutation_length, sortBy_perm. Qed.

Variable R : A -> A -> Prop.
Hypothesis cmp_le : forall a b, (cmp a b <= 0)%Z -> R a b.
Hypothesis cmp_gt : forall a b, (0 < cmp a b)%Z -> R b a.

Lemma insertSorted_HdRel (x y : A) (l : list A) :
  R y x -> HdRel R y l -> HdRel R y (insertSorted cmp x l).
Proof.
  intros Ryx H. destruct l as [|z r]; simpl; [now constructor|].
  destruct (cmp x z <=? 0)%Z; constructor; [exact Ryx|].
  now inversion H.
Qed.

Lemma insertSorted_sorted (x : A) (l : list A) :
  Sorted R l -> Sorted R (insertSorted cmp x l).
Proof.
  induction 1 as [|y r Hs IH Hd]; simpl; [repeat constructor|].
  destruct (cmp x y <=? 0)%Z eqn:E.
  - apply Z.leb_le in E. constructor; [now constructor|].
    constructor. now apply cmp_le.
  - apply Z.leb_gt in E. constructor; [exact IH|].
    apply insertSorted_HdRel; [now apply cmp_gt|exact Hd].
Qed.

Lemma sortBy_sorted (l : list A) : Sorted R (sortBy cmp l).
Proof.
  induction l as [|x r IH]; simpl; [constructor|].
  now apply insertSorted_sorted.
Qed.
End SortFacts.

(** ** Image Orderer *)



Lemma jsle_trans (a b c : jsint) : jsle a b -> jsle b c -> jsle a c.
Proof.
  destruct a, b, c; simpl; try easy. apply N.le_trans.
Qed.


(** Where a [$]-anchored replace cuts. *)
Lemma cutSuffix_at (suffixOk : jsstring -> bool) (a b : jsstring) :
  suffixOk b = true ->
  (forall a1 a2, a = a1 ++ a2 -> a2 <> [] -> suffixOk (a2 ++ b) = false) ->
  cutSuffix suffixOk (a ++ b) = a.
Proof.
  intros Hb. induction a as [|c r IH]; intros Ha.
  - destruct b; simpl; now rewrite Hb.
  - assert (X : suffixOk ((c :: r) ++ b) = false)
      by (apply (Ha [] (c :: r) eq_refl); discriminate).
    simpl in *. rewrite X. f_equal. apply IH. intros a1 a2 E N.
    apply (Ha (c :: a1)); [|exact N].
    simpl. now rewrite E.
Qed.

Lemma cutSuffix_none (suffixOk : jsstring -> bool) (s : jsstring) :
  (forall a1 a2, s = a1 ++ a2 -> suffixOk a2 = false) ->
  cutSuffix suffixOk s = s.
Proof.
  induction s as [|c r IH]; intros Hs.
  - simpl. now rewrite (Hs [] [] eq_refl).
  - simpl. rewrite (Hs [] (c :: r) eq_refl). f_equal. apply IH.
    intros a1 a2 E. apply (Hs (c :: a1)). simpl. now rewrite E.
Qed.


Lemma takeWhile_all (p : codeunit -> bool) (s : jsstring) :
  forallb p s = true -> takeWhile p s = s.
Proof.
  induction s as [|c r IH]; simpl; [reflexivity|].
  intros E. apply andb_true_iff in E as [E1 E2]. now rewrite E1, IH.
Qed.

Lemma parseInt_run (run : jsstring) :
  run <> [] -> forallb isDigit run = true ->
  parseInt run = Some (roundToDouble (decimalValue run)).
Proof.
  intros N D. unfold parseInt. rewrite (takeWhile_all _ _ D).
  destruct run; [contradiction|reflexivity].
Qed.

Lemma lastRun_last (nums : list jsstring) :
  nums <> [] -> lastRun nums = Some (last nums []) /\ In (last nums []) nums.
Proof.
  intros N. destruct nums as [|x r]; [contradiction|]. split; [reflexivity|].
  destruct (exists_last N) as (l & a & ->). rewrite last_last.
  apply in_or_app. right. now left.
Qed.


(** The base name of "stem.ext". *)
Lemma baseName_extension (stem ext : jsstring) :
  ext <> [] -> existsb (N.eqb DOT) ext = false ->
  baseName (stem ++ DOT :: ext) = stem.
Proof.
  intros N E. unfold baseName.
  assert (F : forallb (fun x => negb (N.eqb x DOT)) ext = true).
  { clear N. induction ext as [|c r IH]; [reflexivity|].
    change (N.eqb DOT c || existsb (N.eqb DOT) r = false) in E.
    apply orb_false_iff in E as [E1 E2]. cbn [forallb].
    now rewrite (N.eqb_sym c DOT), E1, (IH E2). }
  apply cutSuffix_at.
  - unfold extensionSuffix. rewrite N.eqb_refl, F. now destruct ext.
  - intros a1 a2 _ Na. destruct a2 as [|c r]; [contradiction|].
    unfold extensionSuffix. simpl app. cbv beta iota.
    rewrite forallb_app. cbn [forallb]. rewrite N.eqb_refl. cbn [negb].
    now rewrite !andb_false_r.
Qed.

(** The base name of a name without a dot. *)
Lemma baseName_plain (s : jsstring) :
  existsb (N.eqb DOT) s = false -> baseName s = s.
Proof.
  intros E. apply cutSuffix_none. intros a1 a2 ->.
  rewrite existsb_app in E. apply orb_false_iff in E as [_ E].
  destruct a2 as [|c r]; [reflexivity|].
  change (N.eqb DOT c || existsb (N.eqb DOT) r = false) in E.
  apply orb_false_iff in E as [E _]. unfold extensionSuffix.
  now rewrite (N.eqb_sym c DOT), E.
Qed.

Lemma digitRunsFrom_run (run : jsstring) :
  forall cur rest,
    forallb isDigit run = true ->
    digitRunsFrom cur (run ++ rest) = digitRunsFrom (cur ++ run) rest.
Proof.
  induction run as [|c r IH]; intros cur rest D; simpl.
  - now rewrite app_nil_r.
  - simpl in D. apply andb_true_iff in D as [D1 D2]. rewrite D1.
    rewrite (IH _ _ D2), <- app_assoc. reflexivity.
Qed.

Lemma digitRunsFrom_plain (post : jsstring) :
  forall cur,
    existsb isDigit post = false ->
    digitRunsFrom cur post = match cur with [] => [] | _ => [cur] end.
Proof.
  induction post as [|c r IH]; intros cur E; [reflexivity|].
  simpl in *. apply orb_false_iff in E as [E1 E2]. rewrite E1.
  rewrite (IH [] E2). reflexivity.
Qed.

Lemma digitRunsFrom_break (pre : jsstring) :
  forall cur rest,
    pre <> [] -> isDigit (last pre SPACE) = false ->
    digitRunsFrom cur (pre ++ rest)
    = digitRunsFrom cur pre ++ digitRunsFrom [] rest.
Proof.
  induction pre as [|c p IH]; intros cur rest N L; [contradiction|].
  destruct p as [|d p'].
  - simpl in *. rewrite L. now destruct cur.
  - assert (L' : isDigit (last (d :: p') SPACE) = false) by exact L.
    assert (N' : d :: p' <> []) by discriminate.
    change (digitRunsFrom cur (c :: (d :: p') ++ rest)
            = digitRunsFrom cur (c :: d :: p') ++ digitRunsFrom [] rest).
    cbn [digitRunsFrom]. destruct (isDigit c).
    + exact (IH _ _ N' L').
    + destruct cur; [exact (IH _ _ N' L')|].
      rewrite (IH _ _ N' L'). reflexivity.
Qed.

(** The last maximal digit run of a string, told from the string. *)
Lemma digitRuns_last_run (pre run post : jsstring) :
  run <> [] -> forallb isDigit run = true ->
  isDigit (last pre SPACE) = false ->
  existsb isDigit post = false ->
  digitRuns (pre ++ run ++ post) = digitRuns pre ++ [run].
Proof.
  intros N D L P. unfold digitRuns.
  assert (R : digitRunsFrom [] (run ++ post) = [run]).
  { rewrite (digitRunsFrom_run run [] post D). simpl.
    rewrite (digitRunsFrom_plain post run P). now destruct run. }
  destruct pre as [|c p]; [exact R|].
  rewrite digitRunsFrom_break; [now rewrite R|discriminate|exact L].
Qed.

Lemma numberOf_run (f : File) (pre run post : jsstring) :
  baseName (name f) = pre ++ run ++ post ->
  run <> [] -> forallb isDigit run = true ->
  isDigit (last pre SPACE) = false ->
  existsb isDigit post = false ->
  numberOf f = Some (roundToDouble (decimalValue run)).
Proof.
  intros B N D L P. unfold numberOf.
  rewrite B, (digitRuns_last_run pre run post N D L P).
  assert (X : digitRuns pre ++ [run] <> []).
  { intros E. apply app_eq_nil in E as [_ E]. discriminate. }
  destruct (lastRun_last _ X) as [-> _]. rewrite last_last.
  now apply parseInt_run.
Qed.

Lemma roundToDouble_exact (n : N) :
  (n < 2 ^ 53)%N -> roundToDouble n = Finite n.
Proof.
  intros L. unfold roundToDouble.
  apply N.ltb_lt in L. now rewrite L.
Qed.

Lemma classify_numberOf (kw : jsstring) (b : Buckets) (f : File) :
  classify kw b f =
  if isCover kw f
  then {| cover := cover b ++ [f]; numbered := numbered b;
          others := others b |}
  else match numberOf f with
       | Some n =>
           {| cover := cover b;
              numbered := numbered b ++ [{| value := n; file := f |}];
              others := others b |}
       | None =>
           {| cover := cover b; numbered := numbered b;
              others := others b ++ [f] |}
       end.
Proof.
  unfold classify, numberOf. destruct (isCover kw f); [reflexivity|].
  destruct (lastRun _); [|reflexivity]. now destruct (parseInt _).
Qed.

Lemma classify_fold (kw : jsstring) (files : list File) :
  forall b,
    fold_left (classify kw) files b =
    {| cover := cover b ++ coverOf kw files;
       numbered := numbered b ++ numberedOf kw files;
       others := others b ++ othersOf kw files |}.
Proof.
  induction files as [|f rest IH]; intros b; simpl.
  - rewrite !app_nil_r. now destruct b.
  - rewrite IH, classify_numberOf. unfold coverOf, numberedOf, othersOf.
    simpl. destruct (isCover kw f); simpl.
    + now rewrite <- app_assoc.
    + destruct (numberOf f); simpl; now rewrite <- app_assoc.
Qed.

Lemma buckets_perm (kw : jsstring) (files : list File) :
  Permutation
    (coverOf kw files ++ map file (numberedOf kw files) ++ othersOf kw files)
    files.
Proof.
  induction files as [|f rest IH]; [reflexivity|].
  unfold coverOf, numberedOf, othersOf in *. simpl.
  destruct (isCover kw f); simpl.
  - now constructor.
  - destruct (numberOf f); simpl.
    + symmetry. apply Permutation_cons_app. now symmetry.
    + symmetry. rewrite app_assoc. apply Permutation_cons_app.
      rewrite <- app_assoc. now symmetry.
Qed.

Section OrdererFacts.
Context `{Runtime}.

Lemma orderFiles_buckets (files : list File) (kw : jsstring) :
  orderFiles files kw =
  sortBy byName (coverOf kw files)
  ++ map file (sortBy byValueThenName (numberedOf kw files))
  ++ sortBy byName (othersOf kw files).
Proof. unfold orderFiles. now rewrite classify_fold. Qed.

Lemma orderFiles_perm (files : list File) (kw : jsstring) :
  Permutation (orderFiles files kw) files.
Proof.
  rewrite orderFiles_buckets.
  rewrite <- (buckets_perm kw files) at 4.
  repeat apply Permutation_app; try apply sortBy_perm.
  apply Permutation_map, sortBy_perm.
Qed.

Lemma orderFiles_length (files : list File) (kw : jsstring) :
  List.length (orderFiles files kw) = List.length files.
Proof. apply Permutation_length, orderFiles_perm. Qed.



End OrdererFacts.

(** ** Reconciliation Engine *)

Lemma firstn_min (A : Type) (n : nat) (l : list A) :
  firstn (Nat.min (List.length l) n) l = firstn n l.
Proof.
  destruct (Nat.le_ge_cases n (List.length l)) as [L|L].
  - now rewrite Nat.min_r.
  - rewrite Nat.min_l by assumption.
    now rewrite firstn_all, firstn_all2.
Qed.

Lemma firstn_nonempty (A : Type) (n : nat) (l : list A) :
  l <> [] -> (1 <= n)%nat -> firstn n l <> [].
Proof.
  intros N L. destruct l; [contradiction|]. destruct n; [lia|]. discriminate.
Qed.

Lemma uploadLimit_max (app : AppState) :
  uploadLimit app = Z.max 1 (maxImages app).
Proof.
  unfold uploadLimit. destruct (maxImages app =? 0)%Z eqn:E; [|reflexivity].
  apply Z.eqb_eq in E. now rewrite E.
Qed.

Lemma uploadLimit_pos (app : AppState) : (1 <= Z.to_nat (uploadLimit app))%nat.
Proof. rewrite uploadLimit_max. lia. Qed.

Section EngineFacts.
Context `{Runtime} {World : Type} `{!Table World}.
Variables (app : AppState) (uploadField : Field)
          (matchMap : list (jsstring * jsstring)).

Lemma slice0_nonempty (files : list File) :
  files <> [] ->
  slice0 (orderFiles files (priorityKeyword app)) (uploadLimit app) <> [].
Proof.
  intros N. apply firstn_nonempty; [|apply uploadLimit_pos].
  intros E. apply N. apply length_zero_iff_nil.
  rewrite <- (orderFiles_length files (priorityKeyword app)), E.
  reflexivity.
Qed.

(** A group without a matching record is skipped and nothing is written. *)
Lemma processGroup_unmatched (limit : Z) (c : Counts) (folder : jsstring)
  (files : list File) (st : RunState) :
  matchedRecord matchMap (normalizeFolderName folder) = None ->
  exists st',
    processGroup app uploadField matchMap limit c (folder, files) st
    = (Ok (bump Skipped c), st')
    /\ world st' = world st
    /\ issued st' = issued st
    /\ hd_error (logs st')
       = Some (LogNoMatch (normalizeFolderName folder) (map fst matchMap)).
Proof.
  intros E. unfold processGroup, bind, appendLog, ret. simpl.
  rewrite E. simpl. eexists. repeat split.
Qed.

(** A matched group with something to upload issues one write; the result
    of the write picks the counter. *)
Lemma processGroup_matched (limit : Z) (c : Counts) (folder : jsstring)
  (files : list File) (recordId : jsstring) (st : RunState) :
  matchedRecord matchMap (normalizeFolderName folder) = Some recordId ->
  slice0 (orderFiles files (priorityKeyword app)) limit <> [] ->
  let uploadList := slice0 (orderFiles files (priorityKeyword app)) limit in
  exists st',
    issued st' = issued st ++ [(recordId, uploadList)]
    /\ world st' = snd (setValue uploadField recordId uploadList (world st))
    /\ match fst (setValue uploadField recordId uploadList (world st)) with
       | Ok _ =>
           processGroup app uploadField matchMap limit c (folder, files) st
           = (Ok (bump Succeeded c), st')
           /\ hd_error (logs st')
              = Some (LogUpdated recordId (List.length uploadList))
       | Throw e =>
           processGroup app uploadField matchMap limit c (folder, files) st
           = (Ok (bump Failed c), st')
           /\ hd_error (logs st') = Some (LogUploadFailed (errorMessage e))
       end.
Proof.
  intros E N uploadList. subst uploadList.
  unfold processGroup, bind, appendLog, ret, tryCatch, awaitSetValue.
  simpl. rewrite E.
  destruct (slice0 (orderFiles files (priorityKeyword app)) limit)
    as [|x xs] eqn:U; [contradiction|].
  destruct (limit <? Z.of_nat (List.length files))%Z; simpl;
    destruct (setValue uploadField recordId (x :: xs) (world st))
      as [[[]|e] w]; simpl;
    match goal with
    | |- exists st', _ /\ _ /\ (_, ?s) = _ /\ _ => exists s
    end; repeat split.
Qed.

(** A matched group left with nothing to upload is skipped. *)
Lemma processGroup_nothing (limit : Z) (c : Counts) (folder : jsstring)
  (files : list File) (recordId : jsstring) (st : RunState) :
  matchedRecord matchMap (normalizeFolderName folder) = Some recordId ->
  slice0 (orderFiles files (priorityKeyword app)) limit = [] ->
  exists st',
    processGroup app uploadField matchMap limit c (folder, files) st
    = (Ok (bump Skipped c), st')
    /\ issued st' = issued st.
Proof.
  intros E U. unfold processGroup, bind, appendLog, ret. simpl.
  rewrite E, U. simpl. eexists. repeat split.
Qed.

Lemma processGroup_outcome (limit : Z) (c : Counts)
  (g : jsstring * list File) (st : RunState) :
  exists o st',
    processGroup app uploadField matchMap limit c g st
    = (Ok (bump o c), st').
Proof.
  destruct g as [folder files].
  destruct (matchedRecord matchMap (normalizeFolderName folder))
    as [recordId|] eqn:E.
  - destruct (slice0 (orderFiles files (priorityKeyword app)) limit)
      as [|x xs] eqn:U.
    + destruct (processGroup_nothing limit c folder files recordId st E U)
        as (st' & P & _). now exists Skipped, st'.
    + assert (N : slice0 (orderFiles files (priorityKeyword app)) limit
                  <> []) by (rewrite U; discriminate).
      destruct (processGroup_matched limit c folder files recordId st E N)
        as (st' & _ & _ & P).
      destruct (fst (setValue _ _ _ _)); destruct P as [P _].
      * now exists Succeeded, st'.
      * now exists Failed, st'.
  - destruct (processGroup_unmatched limit c folder files st E)
      as (st' & P & _). now exists Skipped, st'.
Qed.

Lemma total_bump (o : Outcome) (c : Counts) : total (bump o c) = total c + 1.
Proof. destruct o; unfold total; simpl; lia. Qed.

Lemma forGroups_cons (limit : Z) (g : jsstring * list File)
  (rest : list (jsstring * list File)) (c c' : Counts)
  (st st' : RunState) :
  processGroup app uploadField matchMap limit c g st = (Ok c', st') ->
  forGroups (processGroup app uploadField matchMap limit) (g :: rest) c st
  = forGroups (processGroup app uploadField matchMap limit) rest c' st'.
Proof. intros P. simpl. unfold bind. now rewrite P. Qed.

(** The loop never throws, and every group moves exactly one counter. *)
Lemma forGroups_total (limit : Z) (groups : list (jsstring * list File)) :
  forall c st,
  exists c' st',
    forGroups (processGroup app uploadField matchMap limit) groups c st
    = (Ok c', st')
    /\ total c' = total c + List.length groups.
Proof.
  induction groups as [|g rest IH]; intros c st.
  - exists c, st. split; [reflexivity|simpl; lia].
  - destruct (processGroup_outcome limit c g st) as (o & st1 & P).
    destruct (IH (bump o c) st1) as (c' & st' & F & T).
    exists c', st'.
    rewrite (forGroups_cons limit g rest c (bump o c) st st1 P).
    split; [exact F|].
    rewrite T, total_bump. simpl. lia.
Qed.

Lemma runGroups_summary (groupedFiles : GroupedFiles) (st : RunState) :
  Object_entries groupedFiles <> [] ->
  exists c st',
    runGroups app uploadField matchMap groupedFiles st = (Ok tt, st')
    /\ hd_error (logs st')
       = Some (LogDone (success c) (failed c) (skipped c))
    /\ total c = List.length (Object_entries groupedFiles).
Proof.
  intros N. unfold runGroups.
  destruct (Object_entries groupedFiles) as [|g gs] eqn:G; [contradiction|].
  unfold bind at 1. unfold appendLog at 1.
  unfold bind at 1. unfold appendLog at 1.
  unfold bind at 1.
  match goal with
  | |- context [forGroups ?b ?l ?c ?s] =>
      destruct (forGroups_total (uploadLimit app) l c s)
        as (c' & st' & F & T)
  end.
  rewrite F. unfold appendLog. eexists c', _. repeat split.
  rewrite T. reflexivity.
Qed.
End EngineFacts.

Section WriteFacts.
Context `{Runtime} {World : Type} `{!Table World}.
Variables (app : AppState) (uploadField : Field)
          (matchMap : list (jsstring * jsstring)) (limit : Z).

Lemma processGroup_planned (c : Counts) (g : jsstring * list File)
  (st : RunState) :
  exists c' st',
    processGroup app uploadField matchMap limit c g st = (Ok c', st')
    /\ issued st' = issued st ++ plannedWrite app matchMap limit g
    /\ success c' + failed c'
       = success c + failed c
         + List.length (plannedWrite app matchMap limit g)
    /\ skipped c' + List.length (plannedWrite app matchMap limit g)
       = skipped c + 1.
Proof.
  destruct g as [folder files]. unfold plannedWrite. simpl fst. simpl snd.
  destruct (matchedRecord matchMap (normalizeFolderName folder))
    as [recordId|] eqn:E.
  - destruct (slice0 (orderFiles files (priorityKeyword app)) limit)
      as [|x xs] eqn:U.
    + destruct (processGroup_nothing app uploadField matchMap limit c folder
                  files recordId st E U) as (st' & P & I).
      exists (bump Skipped c), st'. rewrite I, app_nil_r. simpl.
      repeat split; auto; lia.
    + assert (N : slice0 (orderFiles files (priorityKeyword app)) limit
                  <> []) by (rewrite U; discriminate).
      destruct (processGroup_matched app uploadField matchMap limit c folder
                  files recordId st E N) as (st' & I & _ & P).
      rewrite U in I.
      destruct (fst (setValue _ _ _ _)); destruct P as [P _].
      * exists (bump Succeeded c), st'. simpl. repeat split; auto; lia.
      * exists (bump Failed c), st'. simpl. repeat split; auto; lia.
  - destruct (processGroup_unmatched app uploadField matchMap limit c folder
                files st E) as (st' & P & _ & I & _).
    exists (bump Skipped c), st'. rewrite I, app_nil_r. simpl.
    repeat split; auto; lia.
Qed.

Lemma forGroups_planned (groups : list (jsstring * list File)) :
  forall c st,
  exists c' st',
    forGroups (processGroup app uploadField matchMap limit) groups c st
    = (Ok c', st')
    /\ issued st' = issued st ++ plannedWrites app matchMap limit groups
    /\ success c' + failed c'
       = success c + failed c
         + List.length (plannedWrites app matchMap limit groups)
    /\ skipped c' + List.length (plannedWrites app matchMap limit groups)
       = skipped c + List.length groups.
Proof.
  induction groups as [|g rest IH]; intros c st.
  - exists c, st. simpl. rewrite app_nil_r. repeat split; lia.
  - destruct (processGroup_planned c g st) as (c1 & st1 & P & I1 & S1 & K1).
    destruct (IH c1 st1) as (c' & st' & F & I & S & K).
    exists c', st'.
    rewrite (forGroups_cons app uploadField matchMap limit g rest c c1 st
               st1 P).
    unfold plannedWrites in *. simpl flat_map. rewrite length_app.
    split; [exact F|]. rewrite I, I1, app_assoc. simpl List.length.
    repeat split; lia.
Qed.
Lemma plannedWrite_nil (g : jsstring * list File) :
  plannedWrite app matchMap limit g = [] <->
  matchedRecord matchMap (normalizeFolderName (fst g)) = None
  \/ slice0 (orderFiles (snd g) (priorityKeyword app)) limit = [].
Proof.
  unfold plannedWrite.
  destruct (matchedRecord matchMap (normalizeFolderName (fst g)));
    [|now split; auto].
  destruct (slice0 (orderFiles (snd g) (priorityKeyword app)) limit);
    [now split; auto|].
  split; [discriminate|]. now intros [|].
Qed.

Lemma processGroup_step (c : Counts) (g : jsstring * list File)
  (st : RunState) :
  exists o st',
    processGroup app uploadField matchMap limit c g st
    = (Ok (bump o c), st')
    /\ issued st' = issued st ++ plannedWrite app matchMap limit g
    /\ (o = Skipped <-> plannedWrite app matchMap limit g = []).
Proof.
  destruct g as [folder files]. unfold plannedWrite. simpl fst. simpl snd.
  destruct (matchedRecord matchMap (normalizeFolderName folder))
    as [recordId|] eqn:E.
  - destruct (slice0 (orderFiles files (priorityKeyword app)) limit)
      as [|x xs] eqn:U.
    + destruct (processGroup_nothing app uploadField matchMap limit c folder
                  files recordId st E U) as (st' & P & I).
      exists Skipped, st'. rewrite I, app_nil_r. now repeat split.
    + assert (N : slice0 (orderFiles files (priorityKeyword app)) limit
                  <> []) by (rewrite U; discriminate).
      destruct (processGroup_matched app uploadField matchMap limit c folder
                  files recordId st E N) as (st' & I & _ & P).
      rewrite U in I.
      destruct (fst (setValue _ _ _ _)); destruct P as [P _].
      * exists Succeeded, st'. repeat split; auto; discriminate.
      * exists Failed, st'. repeat split; auto; discriminate.
  - destruct (processGroup_unmatched app uploadField matchMap limit c folder
                files st E) as (st' & P & _ & I & _).
    exists Skipped, st'. rewrite I, app_nil_r. now repeat split.
Qed.

(** The loop yields one outcome per group, in the order of the groups. *)
Lemma forGroups_outcomes (groups : list (jsstring * list File)) :
  forall c st,
  exists outcomes c' st',
    forGroups (processGroup app uploadField matchMap limit) groups c st
    = (Ok c', st')
    /\ Forall2
         (fun g o => o = Skipped <-> plannedWrite app matchMap limit g = [])
         groups outcomes
    /\ c' = tally outcomes c
    /\ issued st' = issued st ++ plannedWrites app matchMap limit groups.
Proof.
  induction groups as [|g rest IH]; intros c st.
  - exists [], c, st. simpl. rewrite app_nil_r. repeat split. constructor.
  - destruct (processGroup_step c g st) as (o & st1 & P & I1 & K).
    destruct (IH (bump o c) st1) as (os & c' & st' & F & A & T & I).
    exists (o :: os), c', st'.
    rewrite (forGroups_cons app uploadField matchMap limit g rest c
               (bump o c) st st1 P).
    split; [exact F|]. split; [now constructor|]. split; [exact T|].
    unfold plannedWrites in *. simpl flat_map. now rewrite I, I1, app_assoc.
Qed.

Lemma total_tally (outcomes : list Outcome) :
  forall c, total (tally outcomes c) = total c + List.length outcomes.
Proof.
  induction outcomes as [|o os IH]; intros c; simpl; [lia|].
  unfold tally in *. simpl. rewrite IH, total_bump. lia.
Qed.

(** From the state the header lines leave, [runGroups] is the loop followed
    by the summary line. *)
Lemma runGroups_loop (groupedFiles : GroupedFiles) (st st2 : RunState)
  (c : Counts) :
  Object_entries groupedFiles <> [] ->
  limit = uploadLimit app ->
  forGroups (processGroup app uploadField matchMap limit)
    (Object_entries groupedFiles) noCounts
    (loopEntry matchMap (Object_entries groupedFiles) st) = (Ok c, st2) ->
  runGroups app uploadField matchMap groupedFiles st
  = (Ok tt,
     {| world := world st2;
        logs := firstn 500
                  (LogDone (success c) (failed c) (skipped c) :: logs st2);
        busy := busy st2; issued := issued st2 |}).
Proof.
  intros N -> F. unfold runGroups.
  destruct (Object_entries groupedFiles) as [|g gs] eqn:G; [contradiction|].
  unfold bind at 1. unfold appendLog at 1.
  unfold bind at 1. unfold appendLog at 1.
  unfold bind at 1. unfold loopEntry in F. cbn [world logs busy issued].
  rewrite F. reflexivity.
Qed.

End WriteFacts.

Section RunFacts.
Context `{Runtime} {World : Type} `{!Table World}.

(** One turn of the loop over the records. *)
Lemma buildMatchMap_cons (matchField : Field) (recordId : jsstring)
  (rest : list jsstring) (matchMap : list (jsstring * jsstring))
  (st : RunState) :
  buildMatchMap matchField (recordId :: rest) matchMap st =
  match getValue matchField recordId (world st) with
  | (Ok raw, w) =>
      match normalizeMatchValue raw with
      | Ok key =>
          buildMatchMap matchField rest
            (if truthy key then keyedSet matchMap key recordId else matchMap)
            {| world := w;
               logs := firstn 500 (LogRecordKey recordId key raw :: logs st);
               busy := busy st; issued := issued st |}
      | Throw e =>
          (Throw e, {| world := w; logs := logs st; busy := busy st;
                       issued := issued st |})
      end
  | (Throw e, w) =>
      (Throw e, {| world := w; logs := logs st; busy := busy st;
                   issued := issued st |})
  end.
Proof.
  cbn [buildMatchMap]. unfold bind at 1. unfold await.
  destruct (getValue matchField recordId (world st)) as [[raw|e] w];
    [|reflexivity].
  unfold bind at 1. unfold liftRes.
  destruct (normalizeMatchValue raw) as [key|e]; reflexivity.
Qed.

Lemma buildMatchMap_keys (matchField : Field) (recordIds : list jsstring) :
  forall matchMap0 st matchMap st',
    buildMatchMap matchField recordIds matchMap0 st = (Ok matchMap, st') ->
    ~ In [] (map fst matchMap0) -> ~ In [] (map fst matchMap).
Proof.
  induction recordIds as [|recordId rest IH];
    intros matchMap0 st matchMap st'.
  - simpl. unfold ret. now intros [= <- _].
  - rewrite buildMatchMap_cons.
    destruct (getValue matchField recordId (world st)) as [[raw|e] w];
      [|discriminate].
    destruct (normalizeMatchValue raw) as [key|e]; [|discriminate].
    intros B N. apply (IH _ _ _ _ B).
    destruct (truthy key) eqn:T; [|exact N].
    intros I. apply keys_keyedSet in I as [E|I]; [|now apply N].
    rewrite <- E in T. discriminate.
Qed.

Lemma buildMatchMap_app (matchField : Field) (a b : list jsstring) :
  forall matchMap st,
    buildMatchMap matchField (a ++ b) matchMap st
    = match buildMatchMap matchField a matchMap st with
      | (Ok m, s) => buildMatchMap matchField b m s
      | (Throw e, s) => (Throw e, s)
      end.
Proof.
  induction a as [|r a IH]; intros matchMap st; [reflexivity|].
  change ((r :: a) ++ b) with (r :: a ++ b). rewrite !buildMatchMap_cons.
  destruct (getValue matchField r (world st)) as [[raw|e] w];
    [|reflexivity].
  destruct (normalizeMatchValue raw) as [key|e]; [|reflexivity].
  apply IH.
Qed.

Lemma buildMatchMap_frame (matchField : Field) (recordIds : list jsstring) :
  forall matchMap st r st',
    buildMatchMap matchField recordIds matchMap st = (r, st') ->
    issued st' = issued st /\ busy st' = busy st.
Proof.
  induction recordIds as [|recordId rest IH]; intros matchMap st r st'.
  - simpl. unfold ret. now intros [= _ <-].
  - rewrite buildMatchMap_cons.
    destruct (getValue matchField recordId (world st)) as [[raw|e] w];
      [|now intros [= _ <-]].
    destruct (normalizeMatchValue raw) as [key|e]; [|now intros [= _ <-]].
    intros B. apply IH in B. exact B.
Qed.

Lemma fetchMatchMap_frame (app : AppState) (st : RunState)
  (r : Res (Field * list (jsstring * jsstring))) (st' : RunState) :
  fetchMatchMap app st = (r, st') ->
  issued st' = issued st /\ busy st' = busy st.
Proof.
  unfold fetchMatchMap. unfold bind at 1. unfold appendLog at 1.
  unfold bind at 1. unfold await at 1. cbn [world logs busy issued].
  destruct (getRecordIdList (world st)) as [[recordIds|e] w1];
    [|now intros [= _ <-]].
  unfold bind at 1. unfold await at 1. cbn [world logs busy issued].
  destruct (getField (matchFieldId app) w1) as [[matchField|e] w2];
    [|now intros [= _ <-]].
  unfold bind at 1. unfold await at 1. cbn [world logs busy issued].
  destruct (getField (uploadFieldId app) w2) as [[uploadField|e] w3];
    [|now intros [= _ <-]].
  unfold bind at 1.
  destruct (buildMatchMap matchField recordIds [] _) as [[matchMap|e] s]
    eqn:B; apply buildMatchMap_frame in B; cbn [issued busy] in B.
  - unfold bind, appendLog, ret. now intros [= _ <-].
  - now intros [= _ <-].
Qed.

Lemma matchedRecord_empty (matchMap : list (jsstring * jsstring)) :
  ~ In [] (map fst matchMap) -> matchedRecord matchMap [] = None.
Proof.
  intros N. apply keyedGet_none_keys in N. unfold matchedRecord.
  now rewrite N.
Qed.

Lemma orderFiles_singleton (f : File) (kw : jsstring) :
  orderFiles [f] kw = [f].
Proof.
  apply Permutation_length_1_inv. symmetry. apply orderFiles_perm.
Qed.

Lemma numberedOf_In (kw : jsstring) (files : list File) (x : Numbered) :
  In x (numberedOf kw files) <->
  In (file x) files /\ isCover kw (file x) = false
  /\ numberOf (file x) = Some (value x).
Proof.
  unfold numberedOf. rewrite in_flat_map. split.
  - intros (f & I & Hx). destruct (isCover kw f) eqn:C; [destruct Hx|].
    destruct (numberOf f) eqn:E; [|destruct Hx].
    destruct Hx as [<-|[]]. simpl. now rewrite C, E.
  - intros (I & C & E). exists (file x). split; [exact I|].
    rewrite C, E. left. now destruct x.
Qed.

Lemma runUpload_reaches_loop (app : AppState) (groupedFiles : GroupedFiles)
  (st st1 st2 : RunState) (uploadField : Field)
  (matchMap : list (jsstring * jsstring)) :
  tableReady app = true ->
  truthy (matchFieldId app) = true ->
  truthy (uploadFieldId app) = true ->
  selectedFiles app <> [] ->
  fetchMatchMap app (startRun st) = (Ok (uploadField, matchMap), st1) ->
  runGroups app uploadField matchMap groupedFiles st1 = (Ok tt, st2) ->
  runUpload app groupedFiles st =
  (Ok tt, {| world := world st2; logs := logs st2; busy := false;
             issued := issued st2 |}).
Proof.
  intros T M U S F G. unfold runUpload. rewrite T, M, U. simpl.
  destruct (selectedFiles app) as [|f fs]; [contradiction|].
  unfold bind at 1. unfold setBusy at 1.
  unfold bind at 1. unfold setLogs at 1.
  unfold tryFinally, tryCatch, runBody. unfold bind at 1.
  cbn [world logs busy issued].
  change {| world := world st; logs := []; busy := true;
            issued := issued st |} with (startRun st).
  rewrite F. cbn [fst snd]. rewrite G. reflexivity.
Qed.
End RunFacts.



(** * The claims *)

(** C1 (as the code has it).  For the two files "A/X/1.png" and "B/Y/2.png"
    the grouping returns exactly two groups, keyed "X" and "B", each holding
    its one file.  In general a file with at least two path segments whose
    first segment differs from the inferred root (the first segment of the
    first file) is grouped under its own first segment. *)
Theorem C1_heterogeneous_roots (first : File) (rest : list File)
  (grouped : GroupedFiles) (f : File) (p0 p1 : jsstring)
  (more : list jsstring) :
  groupFilesByFolder (first :: rest) = Ok grouped ->
  In f (first :: rest) ->
  pathParts f = p0 :: p1 :: more ->
  p0 <> inferredRoot first ->
  (exists fs, keyedGet grouped p0 = Some fs /\ In f fs)
  /\ groupFilesByFolder twoRoots
     = Ok [(u "X", [fileAt (u "A/X/1.png") 1]);
           (u "B", [fileAt (u "B/Y/2.png") 2])]
  /\ map fst (Object_entries
                [(u "X", [fileAt (u "A/X/1.png") 1]);
                 (u "B", [fileAt (u "B/Y/2.png") 2])])
     = [u "X"; u "B"].
Proof.
  intros G I P N. split; [|split; reflexivity].
  eapply forEach_files; [exact G|exact I|].
  eapply folderOf_other_root; eauto.
Qed.


(** C3 (as the code has it).  Every file in a group has the group's key as
    the first segment of its path once the inferred root is dropped, with at
    least one more segment after it; the key is the file's immediate parent
    folder when exactly two segments remain. *)
Theorem C3_group_key (files : list File) (grouped : GroupedFiles)
  (key : jsstring) (fs : list File) (f : File) :
  groupFilesByFolder files = Ok grouped ->
  In (key, fs) grouped ->
  In f fs ->
  exists first,
    hd_error files = Some first
    /\ folderOf (inferredRoot first) f = Some key
    /\ (List.length (withoutRoot (inferredRoot first) (pathParts f)) = 2 ->
        parentFolder f = Some key).
Proof.
  destruct files as [|first rest].
  - simpl. intros [= <-] [].
  - intros G I Hf. unfold groupFilesByFolder in G.
    exists first. split; [reflexivity|].
    assert (K : folderOf (inferredRoot first) f = Some key).
    { eapply forEach_members; [exact G| |exact I|exact Hf].
      intros k l g []. }
    split; [exact K|]. now apply folderOf_parent.
Qed.

(** C4.  In a run that reaches the loop over the groups, the loop goes
    through the entries of the grouped object, starting in the state the two
    header lines leave, and every turn moves exactly one of the three
    counters.  The groups get one outcome each, in order: a skip exactly for
    a group without a matching record or without anything to upload, a
    success or a failure otherwise.  The run ends with the summary line,
    whose counts are the tally of these outcomes and add up to the number of
    groups, and the writes it has issued are the planned writes of the
    groups.  With the record map {"Alice": r1} and the groups "Alice" and
    "Carol", the run issues one write, for r1 with the file of "Alice", logs
    the no-match line for "Carol" and ends with a summary that counts one
    skip next to one success or failure. *)
Theorem C4_one_outcome_per_group `{Runtime} {World : Type} `{!Table World}
  (app : AppState) (groupedFiles : GroupedFiles) (st st1 : RunState)
  (uploadField : Field) (matchMap : list (jsstring * jsstring)) :
  tableReady app = true ->
  truthy (matchFieldId app) = true ->
  truthy (uploadFieldId app) = true ->
  selectedFiles app <> [] ->
  fetchMatchMap app (startRun st) = (Ok (uploadField, matchMap), st1) ->
  Object_entries groupedFiles <> [] ->
  let groups := Object_entries groupedFiles in
  let limit := uploadLimit app in
  let body := processGroup app uploadField matchMap limit in
  (forall c g s, exists o s', body c g s = (Ok (bump o c), s'))
  /\ (exists (outcomes : list Outcome) (c : Counts) (st2 : RunState),
         forGroups body groups noCounts (loopEntry matchMap groups st1)
         = (Ok c, st2)
         /\ runUpload app groupedFiles st
            = (Ok tt,
               {| world := world st2;
                  logs := firstn 500
                            (LogDone (success c) (failed c) (skipped c)
                             :: logs st2);
                  busy := false; issued := issued st2 |})
         /\ Forall2
              (fun g o =>
                 o = Skipped <->
                 matchedRecord matchMap (normalizeFolderName (fst g)) = None
                 \/ slice0 (orderFiles (snd g) (priorityKeyword app)) limit
                    = [])
              groups outcomes
         /\ c = tally outcomes noCounts
         /\ success c + failed c + skipped c = List.length groups
         /\ issued st2 = issued st ++ plannedWrites app matchMap limit groups)
  /\ (matchMap = [(u "Alice", u "r1")] ->
      groupedFiles = [(u "Alice", [fileAt (u "root/Alice/1.png") 1]);
                      (u "Carol", [fileAt (u "root/Carol/1.png") 2])] ->
      exists (s f : nat) (rest : list LogLine) (st' : RunState),
        runUpload app groupedFiles st = (Ok tt, st')
        /\ issued st'
           = issued st ++ [(u "r1", [fileAt (u "root/Alice/1.png") 1])]
        /\ s + f = 1
        /\ logs st'
           = LogDone s f 1 :: LogNoMatch (u "Carol") [u "Alice"] :: rest).
Proof.
  intros T M U S F N groups limit body.
  assert (Fi : issued st1 = issued st).
  { now destruct (fetchMatchMap_frame app _ _ _ F) as [Fi _]. }
  assert (Run : forall c st2,
             forGroups body groups noCounts (loopEntry matchMap groups st1)
             = (Ok c, st2) ->
             runUpload app groupedFiles st
             = (Ok tt,
                {| world := world st2;
                   logs := firstn 500
                             (LogDone (success c) (failed c) (skipped c)
                              :: logs st2);
                   busy := false; issued := issued st2 |})).
  { intros c st2 L.
    rewrite (runUpload_reaches_loop app groupedFiles st st1 _ uploadField
               matchMap T M U S F
               (runGroups_loop app uploadField matchMap limit groupedFiles
                  st1 st2 c N eq_refl L)).
    reflexivity. }
  split; [|split].
  - intros c g s. apply processGroup_outcome.
  - destruct (forGroups_outcomes app uploadField matchMap limit groups
                noCounts (loopEntry matchMap groups st1))
      as (outcomes & c & st2 & L & A & Tc & I).
    exists outcomes, c, st2. split; [exact L|]. split; [exact (Run c st2 L)|].
    split; [|split; [exact Tc|split]].
    + clear - A. induction A as [|g o gs os K _ IH]; constructor; auto.
      now rewrite K, plannedWrite_nil.
    + pose proof (total_tally outcomes noCounts) as E.
      rewrite <- Tc in E. unfold total in E. simpl in E.
      rewrite E. symmetry. clear - A. induction A; simpl; congruence.
    + rewrite I. cbn [loopEntry issued]. now rewrite Fi.
  - intros Em Eg.
    set (fA := fileAt (u "root/Alice/1.png") 1).
    set (fC := fileAt (u "root/Carol/1.png") 2).
    assert (Gs : groups = [(u "Alice", [fA]); (u "Carol", [fC])]).
    { unfold groups. now rewrite Eg. }
    set (s0 := loopEntry matchMap groups st1).
    assert (NA : slice0 (orderFiles [fA] (priorityKeyword app)) limit <> []).
    { apply slice0_nonempty. discriminate. }
    assert (EA : matchedRecord matchMap (normalizeFolderName (u "Alice"))
                 = Some (u "r1")) by now rewrite Em.
    assert (EC : matchedRecord matchMap (normalizeFolderName (u "Carol"))
                 = None) by now rewrite Em.
    destruct (processGroup_matched app uploadField matchMap limit noCounts
                (u "Alice") [fA] (u "r1") s0 EA NA) as (s1 & I1 & _ & P1).
    assert (UA : slice0 (orderFiles [fA] (priorityKeyword app)) limit
                 = [fA]).
    { rewrite orderFiles_singleton. unfold slice0, limit.
      pose proof (uploadLimit_pos app) as L.
      destruct (Z.to_nat (uploadLimit app)); [lia|].
      simpl. now rewrite firstn_nil. }
    rewrite UA in I1.
    assert (exists o, (o = Succeeded \/ o = Failed)
                      /\ body noCounts (u "Alice", [fA]) s0
                         = (Ok (bump o noCounts), s1)) as (o & Ho & PA).
    { destruct (fst (setValue _ _ _ _)); destruct P1 as [P1 _];
        [exists Succeeded|exists Failed]; auto. }
    destruct (processGroup_unmatched app uploadField matchMap limit
                (bump o noCounts) (u "Carol") [fC] s1 EC)
      as (s2 & P2 & _ & I2 & L2).
    assert (L : forGroups body groups noCounts s0
                = (Ok (bump Skipped (bump o noCounts)), s2)).
    { rewrite Gs. unfold body.
      rewrite (forGroups_cons app uploadField matchMap limit _ _ _ _ _ _ PA).
      rewrite (forGroups_cons app uploadField matchMap limit _ _ _ _ _ _ P2).
      reflexivity. }
    rewrite (Run _ _ L). rewrite Em in L2.
    destruct (logs s2) as [|line lines] eqn:Ls; [discriminate|].
    injection L2 as ->.
    exists (success (bump o noCounts)), (failed (bump o noCounts)),
      (firstn 498 lines).
    eexists. split; [reflexivity|]. cbn [issued logs].
    rewrite I2, I1. cbn [loopEntry issued s0]. rewrite Fi.
    split; [reflexivity|].
    destruct Ho as [-> | ->]; split; reflexivity.
Qed.


(** C6.  Take a file that is no cover file and whose name is "stem.ext",
    with a non-empty extension free of dots, or the dot-free "stem"; and let
    [run] be the last maximal digit run of the stem: the stem is
    [pre ++ run ++ post], where [run] is a non-empty run of digits, [pre]
    does not end in a digit and [post] holds no digit.  Then the file lands
    in the numbered bucket with the integer [parseInt] reads from [run],
    whatever the earlier runs and the extension hold, and so in the numbered
    tier of the result.  "img_v2_010.png" carries the value 10 and is
    ordered after "img_v9_3.png"; "a2.mp3" carries the value 2, not 3, and is
    ordered after "b1.mp4". *)
Theorem C6_last_digit_run `{Runtime} (files : list File) (kw : jsstring)
  (f : File) (pre run post ext : jsstring) :
  In f files ->
  isCover kw f = false ->
  (name f = pre ++ run ++ post ++ DOT :: ext
   /\ ext <> [] /\ existsb (N.eqb DOT) ext = false)
  \/ (name f = pre ++ run ++ post
      /\ existsb (N.eqb DOT) (name f) = false) ->
  run <> [] ->
  forallb isDigit run = true ->
  isDigit (last pre SPACE) = false ->
  existsb isDigit post = false ->
  let n := roundToDouble (decimalValue run) in
  parseInt run = Some n
  /\ (forall item,
         In item (numbered (fold_left (classify kw) files noBuckets)) ->
         file item = f -> value item = n)
  /\ In {| value := n; file := f |}
        (numbered (fold_left (classify kw) files noBuckets))
  /\ In f (map file (sortBy byValueThenName (numberedOf kw files)))
  /\ In {| value := Finite 10; file := fileNamed (u "img_v2_010.png") |}
        (numbered (fold_left (classify FENGMIAN) versionedNames noBuckets))
  /\ orderFiles versionedNames FENGMIAN
     = map fileNamed [u "img_v9_3.png"; u "img_v2_010.png"]
  /\ In {| value := Finite 2; file := fileNamed (u "a2.mp3") |}
        (numbered (fold_left (classify FENGMIAN) digitExtensions noBuckets))
  /\ orderFiles digitExtensions FENGMIAN
     = map fileNamed [u "b1.mp4"; u "a2.mp3"].
Proof.
  intros I C Hname N D L P n.
  assert (B : baseName (name f) = pre ++ run ++ post).
  { destruct Hname as [(E & Ne & Ee)|(E & Ee)].
    - rewrite E.
      replace (pre ++ run ++ post ++ DOT :: ext)
        with ((pre ++ run ++ post) ++ DOT :: ext)
        by now rewrite <- !app_assoc.
      now apply baseName_extension.
    - rewrite (baseName_plain _ Ee). exact E. }
  pose proof (numberOf_run f pre run post B N D L P) as E. fold n in E.
  assert (Hn : In {| value := n; file := f |} (numberedOf kw files)).
  { apply numberedOf_In. simpl. auto. }
  split; [now apply parseInt_run|]. split; [|split; [|split]].
  - intros item Hi Ef. rewrite classify_fold in Hi. simpl in Hi.
    apply numberedOf_In in Hi as (_ & _ & Hv). rewrite Ef, E in Hv.
    now injection Hv.
  - rewrite classify_fold. exact Hn.
  - apply in_map_iff. eexists. split; [|eapply Permutation_in;
      [symmetry; apply sortBy_perm|exact Hn]]. reflexivity.
  - repeat split; try reflexivity; simpl; auto.
Qed.

(** C7.  For a matched group the list handed to the write is the first
    min(|ordered|, max(1, maxImages)) files of the ordered sequence; at least
    one file is kept; the list is a front part of the cover tier, then of
    the numbered tier, then of the other tier.  With five numbered files and
    cap 3 the three lowest-numbered are kept. *)
Theorem C7_cap_keeps_tier_order `{Runtime} {World : Type} `{!Table World}
  (app : AppState) (uploadField : Field)
  (matchMap : list (jsstring * jsstring)) (c : Counts) (folder : jsstring)
  (files : list File) (recordId : jsstring) (st : RunState) :
  matchedRecord matchMap (normalizeFolderName folder) = Some recordId ->
  files <> [] ->
  let kw := priorityKeyword app in
  let ordered := orderFiles files kw in
  let n := Nat.min (List.length ordered)
                   (Z.to_nat (Z.max 1 (maxImages app))) in
  let coverTier := sortBy byName (coverOf kw files) in
  let numberedTier := map file (sortBy byValueThenName (numberedOf kw files)) in
  let otherTier := sortBy byName (othersOf kw files) in
  (exists c' st',
      processGroup app uploadField matchMap (uploadLimit app) c
        (folder, files) st = (Ok c', st')
      /\ issued st' = issued st ++ [(recordId, firstn n ordered)])
  /\ (1 <= n)%nat
  /\ firstn n ordered
     = firstn n coverTier
       ++ firstn (n - List.length coverTier) numberedTier
       ++ firstn (n - List.length coverTier - List.length numberedTier)
            otherTier
  /\ firstn (Nat.min 5 3) (orderFiles fiveNumbered FENGMIAN)
     = map fileNamed [u "1.png"; u "2.png"; u "3.png"].
Proof.
  intros E N kw ordered n coverTier numberedTier otherTier.
  assert (L : List.length ordered = List.length files)
    by apply orderFiles_length.
  split; [|split; [|split]].
  - pose proof (slice0_nonempty app files N) as U.
    destruct (processGroup_matched app uploadField matchMap (uploadLimit app)
                c folder files recordId st E U) as (st' & I & _ & P).
    unfold n. rewrite firstn_min, <- uploadLimit_max.
    destruct (fst (setValue _ _ _ _)); destruct P as [P _];
      eexists; exists st'; (split; [exact P|exact I]).
  - unfold n. destruct files; [contradiction|]. simpl in L. lia.
  - unfold ordered. rewrite orderFiles_buckets.
    fold coverTier numberedTier otherTier.
    rewrite firstn_app, firstn_app. reflexivity.
  - reflexivity.
Qed.

(** C8.  When the write for a group is rejected, the rejection is caught:
    the line with the message of the error is logged, the failed counter
    goes up by one while the skipped counter stays, and the loop goes on
    with the remaining groups and ends without throwing. *)
Theorem C8_write_failure_isolated `{Runtime} {World : Type} `{!Table World}
  (app : AppState) (uploadField : Field)
  (matchMap : list (jsstring * jsstring)) (c : Counts) (folder : jsstring)
  (files : list File) (rest : list (jsstring * list File))
  (recordId : jsstring) (st : RunState) (e : Exn) (w : World) :
  matchedRecord matchMap (normalizeFolderName folder) = Some recordId ->
  files <> [] ->
  setValue uploadField recordId
    (slice0 (orderFiles files (priorityKeyword app)) (uploadLimit app))
    (world st) = (Throw e, w) ->
  let body := processGroup app uploadField matchMap (uploadLimit app) in
  let c1 := {| success := success c; failed := failed c + 1;
               skipped := skipped c |} in
  exists st1,
    body c (folder, files) st = (Ok c1, st1)
    /\ hd_error (logs st1) = Some (LogUploadFailed (errorMessage e))
    /\ (message e <> [] -> errorMessage e = message e)
    /\ forGroups body ((folder, files) :: rest) c st
       = forGroups body rest c1 st1
    /\ exists c2 st2,
         forGroups body ((folder, files) :: rest) c st = (Ok c2, st2)
         /\ total c2 = total c + 1 + List.length rest.
Proof.
  intros E N W body c1.
  pose proof (slice0_nonempty app files N) as U.
  destruct (processGroup_matched app uploadField matchMap (uploadLimit app)
              c folder files recordId st E U) as (st1 & _ & _ & P).
  rewrite W in P. simpl in P. destruct P as [P L].
  exists st1. split; [exact P|]. split; [exact L|]. split.
  - unfold errorMessage. destruct (message e); [congruence|reflexivity].
  - pose proof (forGroups_cons app uploadField matchMap (uploadLimit app)
                  (folder, files) rest c c1 st st1 P) as F.
    split; [exact F|].
    destruct (forGroups_total app uploadField matchMap (uploadLimit app)
                rest c1 st1) as (c2 & st2 & G & T).
    exists c2, st2. unfold body. rewrite F. split; [exact G|].
    rewrite T. unfold total, c1. simpl. lia.
Qed.

(** C9.  The key to record map never holds the empty key, so a group whose
    folder name normalises to the empty string finds no record: it is
    counted as skipped, the no-match line is logged, and nothing is
    written. *)
Theorem C9_empty_key_skipped `{Runtime} {World : Type} `{!Table World}
  (app : AppState) (matchField uploadField : Field)
  (recordIds : list jsstring) (st0 st1 : RunState)
  (matchMap : list (jsstring * jsstring)) (limit : Z) (c : Counts)
  (folder : jsstring) (files : list File) (st : RunState) :
  buildMatchMap matchField recordIds [] st0 = (Ok matchMap, st1) ->
  normalizeFolderName folder = [] ->
  ~ In [] (map fst matchMap)
  /\ keyedGet matchMap [] = None
  /\ exists st',
       processGroup app uploadField matchMap limit c (folder, files) st
       = (Ok {| success := success c; failed := failed c;
                skipped := skipped c + 1 |}, st')
       /\ issued st' = issued st
       /\ world st' = world st
       /\ hd_error (logs st') = Some (LogNoMatch [] (map fst matchMap)).
Proof.
  intros B E.
  assert (K : ~ In [] (map fst matchMap)).
  { eapply buildMatchMap_keys; [exact B|]. intros []. }
  split; [exact K|]. split; [now apply keyedGet_none_keys|].
  pose proof (matchedRecord_empty matchMap K) as M. rewrite <- E in M.
  destruct (processGroup_unmatched app uploadField matchMap limit c folder
              files st M) as (st' & P & Wd & I & L).
  exists st'. rewrite E in L. auto.
Qed.

(** C10.  The result of the ordering is a permutation of its input: every
    input file occurs in the result as often as in the input, and nothing
    else occurs. *)
Theorem C10_order_permutation `{Runtime} (files : list File)
  (kw : jsstring) :
  Permutation (orderFiles files kw) files.
Proof. apply orderFiles_perm. Qed.

(** * The claims on sample inputs *)

(** "A/X/1.png" and "B/Y/2.png" do not come out as the groups "X" and "Y". *)
Lemma C1_counterexample :
  ~ exists grouped,
      groupFilesByFolder twoRoots = Ok grouped
      /\ map fst (Object_entries grouped) = [u "X"; u "Y"].
Proof.
  intros (grouped & G & K). vm_compute in G. injection G as <-.
  vm_compute in K. discriminate.
Qed.

Lemma C1_witness :
  exists fs,
    keyedGet [(u "X", [fileAt (u "A/X/1.png") 1]);
              (u "B", [fileAt (u "B/Y/2.png") 2])] (u "B") = Some fs
    /\ In (fileAt (u "B/Y/2.png") 2) fs.
Proof.
  refine (proj1 (C1_heterogeneous_roots
                   (fileAt (u "A/X/1.png") 1) [fileAt (u "B/Y/2.png") 2]
                   _ (fileAt (u "B/Y/2.png") 2) (u "B") (u "Y") [u "2.png"]
                   _ _ _ _)).
  - reflexivity.
  - simpl. auto.
  - reflexivity.
  - discriminate.
Defined.



(** A file two levels below the root sits in the group of the upper folder,
    which is not its immediate parent. *)
Lemma C3_counterexample :
  groupFilesByFolder [nestedFile] = Ok [(u "X", [nestedFile])]
  /\ parentFolder nestedFile = Some (u "sub")
  /\ ~ (forall key fs f,
           In (key, fs) [(u "X", [nestedFile])] -> In f fs ->
           parentFolder f = Some key).
Proof.
  split; [reflexivity|]. split; [reflexivity|].
  intros A. specialize (A (u "X") [nestedFile] nestedFile).
  assert (E : parentFolder nestedFile = Some (u "X")).
  { apply A; simpl; auto. }
  vm_compute in E. discriminate.
Qed.

Lemma C3_witness :
  exists first,
    hd_error [nestedFile] = Some first
    /\ folderOf (inferredRoot first) nestedFile = Some (u "X")
    /\ (List.length (withoutRoot (inferredRoot first) (pathParts nestedFile))
        = 2 -> parentFolder nestedFile = Some (u "X")).
Proof.
  apply (C3_group_key [nestedFile] [(u "X", [nestedFile])] (u "X")
           [nestedFile] nestedFile).
  - reflexivity.
  - simpl. auto.
  - simpl. auto.
Defined.

Lemma C4_witness :
  exists (s f : nat) (rest : list LogLine) (st' : RunState),
    @runUpload sampleRuntime SampleWorld sampleTable sampleApp
      [(u "Alice", [fileAt (u "root/Alice/1.png") 1]);
       (u "Carol", [fileAt (u "root/Carol/1.png") 2])]
      (startOn aliceOnly) = (Ok tt, st')
    /\ issued st'
       = issued (startOn aliceOnly)
         ++ [(u "r1", [fileAt (u "root/Alice/1.png") 1])]
    /\ s + f = 1
    /\ logs st'
       = LogDone s f 1 :: LogNoMatch (u "Carol") [u "Alice"] :: rest.
Proof.
  refine (proj2 (proj2
    (@C4_one_outcome_per_group sampleRuntime SampleWorld sampleTable
       sampleApp
       [(u "Alice", [fileAt (u "root/Alice/1.png") 1]);
        (u "Carol", [fileAt (u "root/Carol/1.png") 2])]
       (startOn aliceOnly)
       (snd (@fetchMatchMap sampleRuntime SampleWorld sampleTable sampleApp
               (startRun (startOn aliceOnly))))
       (u "fldImages") [(u "Alice", u "r1")] _ _ _ _ _ _)) eq_refl eq_refl).
  - reflexivity.
  - reflexivity.
  - reflexivity.
  - discriminate.
  - vm_compute. reflexivity.
  - vm_compute. discriminate.
Defined.

Lemma C6_witness :
  In {| value := Finite 2; file := fileNamed (u "a2.mp3") |}
     (numbered (fold_left (classify FENGMIAN) digitExtensions noBuckets))
  /\ (forall item,
         In item
            (numbered (fold_left (classify FENGMIAN) digitExtensions
                         noBuckets)) ->
         file item = fileNamed (u "a2.mp3") -> value item = Finite 2).
Proof.
  destruct
    (@C6_last_digit_run sampleRuntime digitExtensions FENGMIAN
       (fileNamed (u "a2.mp3")) (u "a") (u "2") [] (u "mp3"))
    as (_ & A & B & _).
  - simpl. auto.
  - reflexivity.
  - left. split; [reflexivity|]. split; [discriminate|reflexivity].
  - discriminate.
  - reflexivity.
  - reflexivity.
  - reflexivity.
  - split; [exact B|exact A].
Defined.

Lemma C7_witness :
  exists c' st',
    @processGroup sampleRuntime SampleWorld sampleTable sampleApp
      (u "fldImages") [(u "Alice", u "r1")] (uploadLimit sampleApp) noCounts
      (u "Alice (2)", fiveNumbered) (startOn aliceOnly) = (Ok c', st')
    /\ issued st'
       = issued (startOn aliceOnly)
         ++ [(u "r1",
              firstn
                (Nat.min
                   (List.length
                      (@orderFiles sampleRuntime fiveNumbered
                         (priorityKeyword sampleApp)))
                   (Z.to_nat (Z.max 1 (maxImages sampleApp))))
                (@orderFiles sampleRuntime fiveNumbered
                   (priorityKeyword sampleApp)))].
Proof.
  refine (proj1
    (@C7_cap_keeps_tier_order sampleRuntime SampleWorld sampleTable sampleApp
       (u "fldImages") [(u "Alice", u "r1")] noCounts (u "Alice (2)")
       fiveNumbered (u "r1") (startOn aliceOnly) _ _)).
  - reflexivity.
  - discriminate.
Defined.

Lemma C8_witness :
  exists st1,
    @processGroup sampleRuntime SampleWorld sampleTable sampleApp
      (u "fldImages") [(u "Alice", u "r1")] (uploadLimit sampleApp) noCounts
      (u "Alice", fiveNumbered) (startOn aliceRejected)
    = (Ok {| success := 0; failed := 1; skipped := 0 |}, st1)
    /\ hd_error (logs st1) = Some (LogUploadFailed (u "write rejected")).
Proof.
  destruct
    (@C8_write_failure_isolated sampleRuntime SampleWorld sampleTable
       sampleApp (u "fldImages") [(u "Alice", u "r1")] noCounts (u "Alice")
       fiveNumbered [(u "Carol", [fileAt (u "root/Carol/1.png") 2])]
       (u "r1") (startOn aliceRejected)
       {| message := u "write rejected" |} aliceRejected
       eq_refl ltac:(discriminate) eq_refl)
    as (st1 & P & L & _).
  exists st1. split; [exact P|exact L].
Defined.

Lemma C9_witness :
  keyedGet [(u "Alice", u "r2")] [] = None
  /\ exists st',
       @processGroup sampleRuntime SampleWorld sampleTable sampleApp
         (u "fldImages") [(u "Alice", u "r2")] 3%Z noCounts
         (u " (1)", fiveNumbered) (startOn blankRow)
       = (Ok {| success := 0; failed := 0; skipped := 1 |}, st')
       /\ issued st' = [].
Proof.
  destruct
    (@C9_empty_key_skipped sampleRuntime SampleWorld sampleTable sampleApp
       (u "fldKey") (u "fldImages") [u "r1"; u "r2"] (startOn blankRow)
       (snd (@buildMatchMap sampleRuntime SampleWorld sampleTable
               (u "fldKey") [u "r1"; u "r2"] [] (startOn blankRow)))
       [(u "Alice", u "r2")] 3%Z noCounts (u " (1)") fiveNumbered
       (startOn blankRow) eq_refl eq_refl)
    as (_ & K & st' & P & I & _).
  split; [exact K|]. exists st'. split; [exact P|exact I].
Defined.


(** * Further properties *)

(** ** Key Normalizer *)

Lemma isSpace_fix (c : codeunit) :
  isSpace (if N.eqb c IDEOGRAPHIC_SPACE then SPACE else c) = isSpace c.
Proof.
  destruct (N.eqb c IDEOGRAPHIC_SPACE) eqn:E; [|reflexivity].
  apply N.eqb_eq in E. now subst c.
Qed.

Lemma forallb_isSpace_fix (s : jsstring) :
  forallb isSpace
    (map (fun c => if N.eqb c IDEOGRAPHIC_SPACE then SPACE else c) s)
  = forallb isSpace s.
Proof.
  induction s as [|c r IH]; [reflexivity|]. simpl.
  now rewrite isSpace_fix, IH.
Qed.

Lemma forallb_isSpace_collapse (s : jsstring) :
  forall inRun,
    forallb isSpace (collapseSpaces inRun s) = forallb isSpace s.
Proof.
  induction s as [|c r IH]; intros inRun; [reflexivity|]. simpl.
  destruct (isSpace c) eqn:C.
  - destruct inRun; simpl; rewrite ?SPACE_isSpace; apply IH.
  - simpl. rewrite C. reflexivity.
Qed.

Lemma forallb_isSpace_dropWhile (s : jsstring) :
  forallb isSpace (dropWhile isSpace s) = forallb isSpace s.
Proof.
  induction s as [|c r IH]; [reflexivity|]. simpl.
  destruct (isSpace c) eqn:C; [exact IH|]. simpl. now rewrite C.
Qed.

Lemma trimEnd_nil_iff (s : jsstring) :
  trimEnd s = [] <-> forallb isSpace s = true.
Proof.
  induction s as [|c r IH]; [now split|]. rewrite trimEnd_cons. simpl.
  destruct (trimEnd r) as [|d t] eqn:T.
  - destruct IH as [IH _]. rewrite (IH eq_refl), andb_true_r.
    destruct (isSpace c); split; congruence.
  - split; [discriminate|]. intros E. apply andb_true_iff in E as [_ E].
    apply IH in E. discriminate.
Qed.

(** X1.  The result of [normalizeWhitespace] is empty exactly for the inputs
    that hold white space only. *)
Theorem normalizeWhitespace_blank (s : jsstring) :
  normalizeWhitespace s = [] <-> forallb isSpace s = true.
Proof.
  unfold normalizeWhitespace, trim, trimStart.
  rewrite trimEnd_nil_iff, forallb_isSpace_dropWhile,
    forallb_isSpace_collapse, forallb_isSpace_fix.
  reflexivity.
Qed.

(** X2.  [normalizeWhitespace] is idempotent, and what it returns has no white
    space at either end and no white space inside other than single ASCII
    spaces. *)
Theorem normalizeWhitespace_idempotent (s : jsstring) :
  normalizeWhitespace (normalizeWhitespace s) = normalizeWhitespace s
  /\ startsClean (normalizeWhitespace s) = true
  /\ trimEnd (normalizeWhitespace s) = normalizeWhitespace s
  /\ singleSpaced (normalizeWhitespace s) = true.
Proof.
  destruct (normalizeWhitespace_Normal s) as (S1 & S2 & S3).
  split; [apply Normal_fixed; now repeat split|]. auto.
Qed.

Lemma dropWhile_app_stop (p : codeunit -> bool) (a b : jsstring) :
  forallb p a = false -> dropWhile p (a ++ b) = dropWhile p a ++ b.
Proof.
  induction a as [|c r IH]; [discriminate|]. simpl.
  destruct (p c); [exact IH|reflexivity].
Qed.

Lemma dropWhile_app_all (p : codeunit -> bool) (a b : jsstring) :
  forallb p a = true -> dropWhile p (a ++ b) = dropWhile p b.
Proof.
  induction a as [|c r IH]; [reflexivity|]. simpl.
  destruct (p c); [exact IH|discriminate].
Qed.

Lemma dropWhile_stop_nonempty (p : codeunit -> bool) (a : jsstring) :
  forallb p a = false -> dropWhile p a <> [].
Proof.
  induction a as [|c r IH]; [discriminate|]. simpl.
  destruct (p c); [exact IH|discriminate].
Qed.

Lemma trimEnd_length (s : jsstring) :
  (List.length (trimEnd s) <= List.length s)%nat.
Proof.
  induction s as [|c r IH]; [reflexivity|]. rewrite trimEnd_cons.
  destruct (trimEnd r); [destruct (isSpace c)|]; simpl in *; lia.
Qed.

Lemma trimEnd_app_blank (a b : jsstring) :
  forallb isSpace b = true -> trimEnd (a ++ b) = trimEnd a.
Proof.
  intros E. induction a as [|c r IH]; simpl app.
  - now apply trimEnd_nil_iff.
  - now rewrite !trimEnd_cons, IH.
Qed.

Lemma trimmed_suffix_ink (a1 a2 : jsstring) :
  trimEnd (a1 ++ a2) = a1 ++ a2 -> a2 <> [] -> forallb isSpace a2 = false.
Proof.
  intros T N. destruct (forallb isSpace a2) eqn:E; [|reflexivity].
  rewrite trimEnd_app_blank in T by assumption.
  pose proof (trimEnd_length a1) as L. rewrite T, length_app in L.
  destruct a2; [contradiction|]. simpl in L. lia.
Qed.

Lemma Normal_add_word (a w : jsstring) :
  Normal a -> a <> [] -> w <> [] -> existsb isSpace w = false ->
  Normal (a ++ SPACE :: w).
Proof.
  intros (A1 & A2 & A3) NA NW W.
  destruct (nospace_Normal w W) as (W1 & W2 & W3).
  assert (T : trimEnd (SPACE :: w) = SPACE :: w).
  { rewrite trimEnd_cons, W3. destruct w; [contradiction|reflexivity]. }
  repeat split.
  - clear A2. induction a as [|c r IH]; [contradiction|].
    assert (Tr : r <> [] -> trimEnd r = r).
    { intros Nr. rewrite trimEnd_cons in A3.
      destruct (trimEnd r) eqn:E.
      - destruct r; [contradiction|]. destruct (isSpace c); discriminate.
      - now injection A3. }
    simpl in A1. apply andb_true_iff in A1 as [A1 A1'].
    destruct r as [|d r'].
    + assert (C : isSpace c = false).
      { simpl in A3. destruct (isSpace c); [discriminate|reflexivity]. }
      change (singleSpaced (c :: SPACE :: w) = true). cbn [singleSpaced].
      rewrite C, SPACE_isSpace, N.eqb_refl, W2, W1. reflexivity.
    + assert (I : singleSpaced ((d :: r') ++ SPACE :: w) = true).
      { apply IH; [exact A1'|apply Tr; discriminate|discriminate]. }
      change (singleSpaced (c :: (d :: r') ++ SPACE :: w) = true).
      cbn [singleSpaced]. rewrite I, andb_true_r.
      destruct (isSpace c); [|reflexivity].
      apply andb_true_iff in A1 as [A1 A1'']. rewrite A1. exact A1''.
  - destruct a; [contradiction|exact A2].
  - rewrite trimEnd_app; rewrite T; [reflexivity|discriminate].
Qed.




Section CopySuffixes.
Context `{Runtime}.

End CopySuffixes.

Lemma dropWhile_suffix (p : codeunit -> bool) (s : jsstring) :
  exists pre, s = pre ++ dropWhile p s.
Proof.
  induction s as [|c r [pre IH]]; [now exists []|]. simpl.
  destruct (p c); [|now exists []].
  exists (c :: pre). simpl. now rewrite <- IH.
Qed.

Lemma last_app_nonempty (a b : jsstring) (d : codeunit) :
  b <> [] -> last (a ++ b) d = last b d.
Proof.
  intros N. induction a as [|c r IH]; [reflexivity|].
  simpl app. rewrite <- IH.
  destruct (r ++ b) eqn:E; [|reflexivity].
  apply app_eq_nil in E as [_ E]. contradiction.
Qed.

Lemma forallb_last (p : codeunit -> bool) (t : jsstring) (d : codeunit) :
  forallb p t = true -> t <> [] -> p (last t d) = true.
Proof.
  induction t as [|c r IH]; [contradiction|]. intros E _.
  simpl in E. apply andb_true_iff in E as [E1 E2].
  destruct r as [|c' r']; [exact E1|]. apply IH; [exact E2|discriminate].
Qed.

(** A string on which [/\s*\(\d+\)\s*$/] matches ends in ")" or in white
    space. *)
Lemma copyNumberSuffix_last (x : jsstring) :
  copyNumberSuffix x = true ->
  last x 0%N = RPAREN \/ isSpace (last x 0%N) = true.
Proof.
  unfold copyNumberSuffix. intros E.
  destruct (dropWhile_suffix isSpace x) as [pre Hx].
  destruct (dropWhile isSpace x) as [|c r]; [discriminate|].
  apply andb_true_iff in E as [_ E].
  destruct (dropWhile_suffix isDigit r) as [pre2 Hr].
  destruct (dropWhile isDigit r) as [|c' t]; [discriminate|].
  apply andb_true_iff in E as [E1 E2]. apply N.eqb_eq in E1. subst c'.
  rewrite Hx, Hr.
  rewrite last_app_nonempty by discriminate.
  change (c :: pre2 ++ RPAREN :: t) with ((c :: pre2) ++ RPAREN :: t).
  rewrite last_app_nonempty by discriminate.
  destruct t as [|y t']; [now left|right].
  change (last (RPAREN :: y :: t') 0%N) with (last (y :: t') 0%N).
  apply forallb_last; [exact E2|discriminate].
Qed.

Lemma copyMarkSuffix_inside (a2 : jsstring) :
  forallb isSpace a2 = false ->
  copyMarkSuffix (a2 ++ SPACE :: HYPHEN :: SPACE :: FUBEN) = false.
Proof.
  intros Ink. unfold copyMarkSuffix.
  rewrite dropWhile_app_stop by assumption.
  destruct (dropWhile isSpace a2) as [|c r0] eqn:D;
    [now apply dropWhile_stop_nonempty in Ink|].
  simpl app. cbv beta iota.
  destruct (N.eqb c HYPHEN); [|reflexivity]. rewrite andb_true_l.
  destruct (forallb isSpace r0) eqn:Sp.
  - rewrite dropWhile_app_all by assumption. reflexivity.
  - rewrite dropWhile_app_stop by assumption.
    destruct (dropWhile isSpace r0) as [|x t0] eqn:D';
      [now apply dropWhile_stop_nonempty in Sp|].
    apply streq_neq. intros E.
    apply (f_equal (@List.length codeunit)) in E.
    rewrite length_app in E. simpl in E. lia.
Qed.

Section CopyMark.
Context `{Runtime}.

(** X4.  A folder name made of a key [s] and the suffix " - 副本" normalises to
    [s]: a copy of a folder matches the record of the original. *)
Theorem copy_mark_absorbed (s : jsstring) :
  Normal s -> s <> [] ->
  normalizeFolderName (s ++ SPACE :: HYPHEN :: SPACE :: FUBEN) = s.
Proof.
  intros Ns Hs.
  assert (Nf : Normal (s ++ SPACE :: HYPHEN :: SPACE :: FUBEN)).
  { change (s ++ SPACE :: HYPHEN :: SPACE :: FUBEN)
      with (s ++ (SPACE :: [HYPHEN]) ++ SPACE :: FUBEN).
    rewrite app_assoc. apply Normal_add_word; try discriminate.
    - apply Normal_add_word; auto; discriminate.
    - destruct s; [contradiction|discriminate].
    - reflexivity. }
  unfold normalizeFolderName. rewrite (Normal_fixed _ Nf).
  rewrite (cutSuffix_none copyNumberSuffix).
  - rewrite cutSuffix_at.
    + now apply Normal_fixed.
    + reflexivity.
    + intros a1 a2 Ea Na. apply copyMarkSuffix_inside.
      destruct Ns as (_ & _ & T). rewrite Ea in T.
      now apply (trimmed_suffix_ink a1 a2).
  - intros a1 a2 Ea. destruct a2 as [|y a2']; [reflexivity|].
    destruct (copyNumberSuffix (y :: a2')) eqn:C; [|reflexivity].
    apply copyNumberSuffix_last in C.
    assert (L : last (y :: a2') 0%N = 0x672C%N).
    { rewrite <- (last_app_nonempty a1 (y :: a2')) by discriminate.
      rewrite <- Ea. now rewrite last_app_nonempty by discriminate. }
    rewrite L in C. destruct C as [C|C]; vm_compute in C; discriminate.
Qed.
End CopyMark.


Lemma copy_mark_absorbed_witness :
  @normalizeFolderName sampleRuntime
    (u "Bob" ++ SPACE :: HYPHEN :: SPACE :: FUBEN) = u "Bob".
Proof.
  apply (@copy_mark_absorbed sampleRuntime (u "Bob")).
  - repeat split.
  - discriminate.
Defined.

(** ** File Grouper *)

Lemma keys_keyedSet_eq (V : Type) (entries : list (jsstring * V))
  (key : jsstring) (v : V) :
  map fst (keyedSet entries key v)
  = match keyedGet entries key with
    | Some _ => map fst entries
    | None => map fst entries ++ [key]
    end.
Proof.
  induction entries as [|[k w] rest IH]; simpl; [reflexivity|].
  destruct (streq k key) eqn:E; simpl; [reflexivity|].
  rewrite IH. now destruct (keyedGet rest key).
Qed.

Lemma In_keyedGet_NoDup (V : Type) (entries : list (jsstring * V))
  (key : jsstring) (v : V) :
  NoDup (map fst entries) -> In (key, v) entries ->
  keyedGet entries key = Some v.
Proof.
  induction entries as [|[k w] rest IH]; simpl; [intros _ []|].
  intros N I. inversion N as [|? ? Hk Hrest]; subst.
  destruct I as [[= -> ->]|I].
  - now rewrite streq_refl.
  - destruct (streq k key) eqn:E; [|now apply IH].
    apply streq_eq in E. subst k. exfalso. apply Hk.
    apply in_map_iff. now exists (key, v).
Qed.

Lemma folderOf_nonempty (root : jsstring) (f : File) (folder : jsstring) :
  folderOf root f = Some folder -> folder <> [].
Proof.
  unfold folderOf, pathParts. intros E.
  assert (I : In folder (filter truthy (splitPath (getRelativePath f)))).
  { destruct (filter truthy (splitPath (getRelativePath f))) as [|p0 ps];
      [discriminate|]. simpl in E.
    destruct (streq p0 root).
    - destruct ps as [|a [|b r]]; try discriminate.
      injection E as ->. right. now left.
    - destruct ps as [|b r]; try discriminate.
      injection E as ->. now left. }
  apply filter_In in I as [_ T]. now destruct folder.
Qed.

Section GroupInvariants.
Variable root : jsstring.

Lemma forEach_invariant (P : GroupedFiles -> Prop) :
  (forall grouped x grouped',
      P grouped -> groupOne root grouped x = Ok grouped' -> P grouped') ->
  forall files grouped grouped',
    P grouped -> forEach (groupOne root) files grouped = Ok grouped' ->
    P grouped'.
Proof.
  intros Step. induction files as [|x rest IH]; intros grouped grouped' Hp;
    simpl.
  - now intros [= <-].
  - destruct (groupOne root grouped x) as [g1|e] eqn:S; [|discriminate].
    apply IH. eapply Step; eauto.
Qed.

Lemma groupOne_contents (done : list File) (grouped grouped' : GroupedFiles)
  (x : File) :
  (forall key,
      keyedGet grouped key = asGroup (filter (filedUnder root key) done)) ->
  groupOne root grouped x = Ok grouped' ->
  forall key,
    keyedGet grouped' key
    = asGroup (filter (filedUnder root key) (done ++ [x])).
Proof.
  intros Inv S key. rewrite groupOne_folderOf in S.
  rewrite filter_app. simpl. unfold filedUnder at 2.
  destruct (folderOf root x) as [folder|] eqn:F.
  - assert (G : exists v, grouped' = keyedSet grouped folder v
                 /\ v = filter (filedUnder root folder) done ++ [x]).
    { unfold pushFile in S. rewrite (Inv folder) in S.
      destruct (filter (filedUnder root folder) done) as [|y l];
        cbn [asGroup] in S.
      - destruct (existsb _ _); [discriminate|]. injection S as <-. eauto.
      - injection S as <-. eauto. }
    destruct G as (v & -> & ->).
    destruct (streq folder key) eqn:E.
    + apply streq_eq in E. subst key. rewrite keyedGet_set_same.
      now destruct (filter (filedUnder root folder) done).
    + apply streq_neq in E. rewrite keyedGet_set_other by congruence.
      now rewrite app_nil_r.
  - injection S as <-. now rewrite app_nil_r.
Qed.

Lemma forEach_contents (files : list File) :
  forall done grouped grouped',
    (forall key,
        keyedGet grouped key = asGroup (filter (filedUnder root key) done)) ->
    forEach (groupOne root) files grouped = Ok grouped' ->
    forall key,
      keyedGet grouped' key
      = asGroup (filter (filedUnder root key) (done ++ files)).
Proof.
  induction files as [|x rest IH]; intros done grouped grouped' Inv; simpl.
  - intros [= <-]. now rewrite app_nil_r.
  - destruct (groupOne root grouped x) as [g1|e] eqn:S; [|discriminate].
    intros F key.
    change (x :: rest) with ([x] ++ rest). rewrite app_assoc.
    apply (IH (done ++ [x]) g1 grouped'); [|exact F].
    now apply (groupOne_contents done grouped g1 x).
Qed.

Lemma groupOne_keys (grouped grouped' : GroupedFiles) (x : File) :
  NoDup (map fst grouped)
  /\ (forall key, In key (map fst grouped) ->
        key <> [] /\ existsb (streq key) objectPrototypeKeys = false) ->
  groupOne root grouped x = Ok grouped' ->
  NoDup (map fst grouped')
  /\ (forall key, In key (map fst grouped') ->
        key <> [] /\ existsb (streq key) objectPrototypeKeys = false).
Proof.
  intros [N K] S. rewrite groupOne_folderOf in S.
  destruct (folderOf root x) as [folder|] eqn:F;
    [|injection S as <-; now split].
  unfold pushFile in S.
  destruct (keyedGet grouped folder) as [fs|] eqn:G.
  - injection S as <-. rewrite keys_keyedSet_eq, G. now split.
  - destruct (existsb (streq folder) objectPrototypeKeys) eqn:P;
      [discriminate|].
    injection S as <-. rewrite keys_keyedSet_eq, G. split.
    + apply NoDup_app; [exact N|repeat constructor; intros []|].
      intros k I [<-|[]]. now apply keyedGet_none_keys in G.
    + intros key I. apply in_app_or in I as [I|[<-|[]]]; [now apply K|].
      split; [now apply (folderOf_nonempty root x)|exact P].
Qed.

Lemma forEach_throws (files : list File) :
  forall grouped,
    (forall key, In key (map fst grouped) ->
       key <> [] /\ existsb (streq key) objectPrototypeKeys = false) ->
    NoDup (map fst grouped) ->
    (exists f folder,
        In f files /\ folderOf root f = Some folder
        /\ existsb (streq folder) objectPrototypeKeys = true) ->
    forEach (groupOne root) files grouped = Throw NOT_A_FUNCTION.
Proof.
  induction files as [|x rest IH]; intros grouped K N (f & folder & I & F & P);
    [destruct I|]. simpl.
  destruct (groupOne root grouped x) as [g1|e] eqn:S.
  - destruct (groupOne_keys grouped g1 x (conj N K) S) as [N1 K1].
    apply IH; auto. destruct I as [->|I]; [|now exists f, folder].
    exfalso. rewrite groupOne_folderOf, F in S. unfold pushFile in S.
    destruct (keyedGet grouped folder) as [fs|] eqn:G.
    + apply keyedGet_In in G.
      assert (Ik : In folder (map fst grouped))
        by (apply in_map_iff; now exists (folder, fs)).
      destruct (K folder Ik) as [_ Q]. congruence.
    + rewrite P in S. discriminate.
  - rewrite groupOne_folderOf in S.
    destruct (folderOf root x) as [bad|]; [|discriminate].
    unfold pushFile in S.
    destruct (keyedGet grouped bad); [discriminate|].
    destruct (existsb (streq bad) objectPrototypeKeys); congruence.
Qed.

Lemma forEach_thrown (files : list File) :
  forall grouped e,
    forEach (groupOne root) files grouped = Throw e ->
    exists f folder,
      In f files /\ folderOf root f = Some folder
      /\ existsb (streq folder) objectPrototypeKeys = true.
Proof.
  induction files as [|x rest IH]; intros grouped e; simpl; [discriminate|].
  destruct (groupOne root grouped x) as [g1|e1] eqn:S.
  - intros F. destruct (IH g1 e F) as (f & folder & I & Hf & P).
    exists f, folder. auto.
  - intros _. rewrite groupOne_folderOf in S.
    destruct (folderOf root x) as [folder|] eqn:F; [|discriminate].
    unfold pushFile in S. destruct (keyedGet grouped folder); [discriminate|].
    destruct (existsb (streq folder) objectPrototypeKeys) eqn:P;
      [|discriminate].
    exists x, folder. auto.
Qed.
End GroupInvariants.

(** X5.  Each group holds exactly the input files filed under its key, in
    input order, and a key is present exactly when some file is filed under
    it. A file with fewer than two segments below the root is filed under no
    key. *)
Theorem groups_are_selections (files : list File) (first : File)
  (grouped : GroupedFiles) :
  hd_error files = Some first ->
  groupFilesByFolder files = Ok grouped ->
  forall key,
    keyedGet grouped key
    = asGroup (filter (filedUnder (inferredRoot first) key) files).
Proof.
  destruct files as [|x rest]; [discriminate|]. intros [= ->] G key.
  unfold groupFilesByFolder in G.
  apply (forEach_contents (inferredRoot first) (first :: rest) [] []
           grouped);
    [reflexivity|exact G].
Qed.

(** X6.  The keys of the result are pairwise different, none is empty or names
    a property that plain objects inherit, and no group is empty. *)
Theorem group_keys_distinct (files : list File) (grouped : GroupedFiles) :
  groupFilesByFolder files = Ok grouped ->
  NoDup (map fst grouped)
  /\ forall key fs,
       In (key, fs) grouped ->
       key <> [] /\ fs <> []
       /\ existsb (streq key) objectPrototypeKeys = false
       /\ keyedGet grouped key = Some fs.
Proof.
  destruct files as [|first rest].
  - simpl. intros [= <-]. split; [constructor|intros key fs []].
  - intros G.
    assert (K : NoDup (map fst grouped)
                /\ (forall key, In key (map fst grouped) ->
                      key <> []
                      /\ existsb (streq key) objectPrototypeKeys = false)).
    { unfold groupFilesByFolder in G.
      refine (forEach_invariant (inferredRoot first)
                (fun g => NoDup (map fst g)
                          /\ (forall key, In key (map fst g) ->
                                key <> []
                                /\ existsb (streq key) objectPrototypeKeys
                                   = false))
                _ (first :: rest) [] grouped _ G).
      - intros g x g' Hp S.
        now apply (groupOne_keys (inferredRoot first) g g' x).
      - split; [constructor|intros key []]. }
    destruct K as [N K]. split; [exact N|]. intros key fs I.
    assert (Ik : In key (map fst grouped))
      by (apply in_map_iff; now exists (key, fs)).
    destruct (K key Ik) as [K1 K2].
    pose proof (In_keyedGet_NoDup _ grouped key fs N I) as Gk.
    repeat split; auto.
    unfold groupFilesByFolder in G.
    rewrite (forEach_contents (inferredRoot first) (first :: rest) [] []
               grouped (fun _ => eq_refl) G key) in Gk.
    intros ->. simpl app in Gk. destruct (filter _ _); discriminate.
Qed.

(** X7.  The grouping throws exactly when a file that would be grouped sits in
    a folder named like a property that plain objects inherit ("constructor",
    "toString", "__proto__" and the like). *)
Theorem grouping_throws_iff (files : list File) (first : File) :
  hd_error files = Some first ->
  groupFilesByFolder files = Throw NOT_A_FUNCTION
  <-> exists f folder,
        In f files /\ folderOf (inferredRoot first) f = Some folder
        /\ existsb (streq folder) objectPrototypeKeys = true.
Proof.
  destruct files as [|x rest]; [discriminate|]. intros [= ->].
  unfold groupFilesByFolder. split.
  - apply forEach_thrown.
  - apply forEach_throws; [intros key []|constructor].
Qed.

Lemma filter_split_perm (A : Type) (p : A -> bool) (l : list A) :
  Permutation (filter p l ++ filter (fun x => negb (p x)) l) l.
Proof.
  induction l as [|x r IH]; [reflexivity|]. simpl.
  destruct (p x); simpl.
  - now constructor.
  - symmetry. apply Permutation_cons_app. now symmetry.
Qed.

Lemma filter_none (A : Type) (p : A -> bool) (l : list A) :
  (forall x, In x l -> p x = false) -> filter p l = [].
Proof.
  induction l as [|x r IH]; [reflexivity|]. intros Hp. simpl.
  rewrite (Hp x (or_introl eq_refl)). apply IH. intros y I. apply Hp.
  now right.
Qed.

Lemma filter_all (A : Type) (p : A -> bool) (l : list A) :
  (forall x, In x l -> p x = true) -> filter p l = l.
Proof.
  induction l as [|x r IH]; [reflexivity|]. intros Hp. simpl.
  rewrite (Hp x (or_introl eq_refl)). f_equal. apply IH. intros y I.
  apply Hp. now right.
Qed.

Lemma Object_entries_perm (V : Type) (obj : list (jsstring * V)) :
  Permutation (Object_entries obj) obj.
Proof.
  unfold Object_entries. rewrite sortBy_perm. apply filter_split_perm.
Qed.

(** X8.  [Object.entries] lists every property exactly once: first the
    properties whose key is an array index, in ascending numeric order, then
    the other properties in creation order; an object without array-index
    keys is listed in creation order. *)
Theorem Object_entries_complete (V : Type) (obj : list (jsstring * V)) :
  Permutation (Object_entries obj) obj
  /\ (exists idx,
         Object_entries obj
         = idx ++ filter (fun e => negb (isIndexKey e)) obj
         /\ Forall (fun e => isIndexKey e = true) idx
         /\ Sorted
              (fun a b => (decimalValue (fst a) <= decimalValue (fst b))%N)
              idx)
  /\ ((forall e, In e obj -> isIndexKey e = false) ->
      Object_entries obj = obj).
Proof.
  split; [apply Object_entries_perm|]. unfold Object_entries. split.
  - exists (sortBy indexOrder (filter isIndexKey obj)).
    split; [reflexivity|]. split.
    + apply Forall_forall. intros e I.
      apply (Permutation_in e (sortBy_perm _ indexOrder _)) in I.
      now apply filter_In in I as [_ I].
    + apply sortBy_sorted; unfold indexOrder; intros a b; lia.
  - intros Hn. rewrite (filter_none _ _ obj Hn). simpl.
    apply filter_all. intros e I. now rewrite (Hn e I).
Qed.

Lemma fold_left_sum (l : list (list File)) (acc : nat) :
  fold_left (fun sum files => sum + List.length files) l acc
  = acc + list_sum (map (@List.length File) l).
Proof.
  revert acc. induction l as [|x r IH]; intros acc; simpl; [lia|].
  rewrite IH. lia.
Qed.

Lemma list_sum_perm (l l' : list nat) :
  Permutation l l' -> list_sum l = list_sum l'.
Proof. induction 1; simpl; lia. Qed.

Lemma totalImages_sum (grouped : GroupedFiles) :
  totalImages grouped
  = list_sum (map (fun e => List.length (snd e)) grouped).
Proof.
  unfold totalImages, Object_values. rewrite fold_left_sum, map_map.
  simpl. apply list_sum_perm, Permutation_map.
  apply Object_entries_perm.
Qed.

Lemma sum_keyedSet_push (grouped : GroupedFiles) (key : jsstring)
  (old : list File) (x : File) :
  keyedGet grouped key = Some old ->
  list_sum (map (fun e => List.length (snd e))
                (keyedSet grouped key (old ++ [x])))
  = S (list_sum (map (fun e => List.length (snd e)) grouped)).
Proof.
  induction grouped as [|[k v] rest IH]; simpl; [discriminate|].
  destruct (streq k key).
  - intros [= ->]. simpl. rewrite length_app. simpl. lia.
  - intros G. simpl. rewrite (IH G). lia.
Qed.

Lemma sum_keyedSet_new (grouped : GroupedFiles) (key : jsstring) (x : File) :
  keyedGet grouped key = None ->
  list_sum (map (fun e => List.length (snd e)) (keyedSet grouped key [x]))
  = S (list_sum (map (fun e => List.length (snd e)) grouped)).
Proof.
  induction grouped as [|[k v] rest IH]; simpl; [reflexivity|].
  destruct (streq k key); [discriminate|].
  intros G. simpl. rewrite (IH G). lia.
Qed.

Lemma forEach_sum (root : jsstring) (files : list File) :
  forall grouped grouped',
    forEach (groupOne root) files grouped = Ok grouped' ->
    list_sum (map (fun e => List.length (snd e)) grouped')
    = list_sum (map (fun e => List.length (snd e)) grouped)
      + List.length
          (filter (fun f => match folderOf root f with
                            | Some _ => true
                            | None => false
                            end) files).
Proof.
  induction files as [|x rest IH]; intros grouped grouped'; simpl.
  - intros [= <-]. lia.
  - destruct (groupOne root grouped x) as [g1|e] eqn:S; [|discriminate].
    intros F. rewrite (IH g1 grouped' F). rewrite groupOne_folderOf in S.
    destruct (folderOf root x) as [folder|].
    + unfold pushFile in S. simpl.
      destruct (keyedGet grouped folder) as [old|] eqn:G.
      * injection S as <-. rewrite (sum_keyedSet_push _ _ _ _ G). lia.
      * destruct (existsb _ _); [discriminate|]. injection S as <-.
        rewrite (sum_keyedSet_new _ _ _ G). lia.
    + injection S as <-. lia.
Qed.

(** X9.  [totalImages] counts the files that lie at least one folder below the
    inferred root: every such file is counted once, the others not at all. *)
Theorem totalImages_counts (files : list File) (first : File)
  (grouped : GroupedFiles) :
  hd_error files = Some first ->
  groupFilesByFolder files = Ok grouped ->
  totalImages grouped
  = List.length
      (filter (fun f => match folderOf (inferredRoot first) f with
                        | Some _ => true
                        | None => false
                        end) files).
Proof.
  destruct files as [|x rest]; [discriminate|]. intros [= ->] G.
  unfold groupFilesByFolder in G. rewrite totalImages_sum.
  now rewrite (forEach_sum _ _ _ _ G).
Qed.

Lemma splitPath_clean (s : jsstring) :
  existsb isPathSep s = false -> splitPath s = [s].
Proof.
  induction s as [|c r IH]; [reflexivity|]. simpl. intros E.
  apply orb_false_iff in E as [E1 E2]. now rewrite E1, (IH E2).
Qed.

Lemma splitPath_app (a b : jsstring) (c : codeunit) :
  existsb isPathSep a = false -> isPathSep c = true ->
  splitPath (a ++ c :: b) = a :: splitPath b.
Proof.
  intros A C. induction a as [|x r IH]; simpl.
  - now rewrite C.
  - simpl in A. apply orb_false_iff in A as [A1 A2].
    now rewrite A1, (IH A2).
Qed.

Lemma splitPath_join_clean (segs : list jsstring) :
  segs <> [] ->
  Forall (fun seg => existsb isPathSep seg = false) segs ->
  splitPath (join [SLASH] segs) = segs.
Proof.
  intros N F. induction F as [|seg rest Hs Hrest IH]; [contradiction|].
  destruct rest as [|seg' rest']; [now apply splitPath_clean|].
  change (join [SLASH] (seg :: seg' :: rest'))
    with (seg ++ SLASH :: join [SLASH] (seg' :: rest')).
  rewrite splitPath_app by (auto; reflexivity).
  f_equal. apply IH. discriminate.
Qed.

(** X10.  Splitting a path undoes joining clean segments with "/", and joining
    with "/" undoes splitting a path that holds no backslash. *)
Theorem splitPath_join (segs : list jsstring) (s : jsstring) :
  (segs <> [] ->
   Forall (fun seg => existsb isPathSep seg = false) segs ->
   splitPath (join [SLASH] segs) = segs)
  /\ (existsb (N.eqb BACKSLASH) s = false ->
      join [SLASH] (splitPath s) = s).
Proof.
  split; [apply splitPath_join_clean|].
  induction s as [|c r IH]; [reflexivity|]. intros E.
  change (N.eqb BACKSLASH c || existsb (N.eqb BACKSLASH) r = false) in E.
  apply orb_false_iff in E as [E1 E2]. specialize (IH E2).
  cbn [splitPath]. unfold isPathSep.
  rewrite (N.eqb_sym c BACKSLASH), E1, orb_false_r.
  destruct (N.eqb c SLASH) eqn:C.
  - apply N.eqb_eq in C. subst c.
    destruct (splitPath r) as [|part parts] eqn:P;
      [now apply splitPath_nonempty in P|].
    change (join [SLASH] ([] :: part :: parts))
      with (SLASH :: join [SLASH] (part :: parts)).
    now rewrite IH.
  - destruct (splitPath r) as [|part parts] eqn:P;
      [now apply splitPath_nonempty in P|].
    rewrite <- IH. now destruct parts.
Qed.

Lemma totalImages_counts_witness :
  totalImages [(u "Alice", [fileAt (u "root/Alice/1.png") 1]);
               (u "Carol", [fileAt (u "root/Carol/1.png") 2])]
  = 2.
Proof.
  apply (totalImages_counts (selectedFiles sampleApp)
           (fileAt (u "root/Alice/1.png") 1)).
  - reflexivity.
  - reflexivity.
Defined.

Lemma groups_are_selections_witness :
  keyedGet [(u "X", [nestedFile])] (u "X") = Some [nestedFile].
Proof.
  apply (groups_are_selections [nestedFile] nestedFile
           [(u "X", [nestedFile])] eq_refl eq_refl (u "X")).
Defined.

Lemma group_keys_distinct_witness :
  NoDup (map fst [(u "X", [nestedFile])]).
Proof.
  apply (proj1 (group_keys_distinct [nestedFile] [(u "X", [nestedFile])]
                  eq_refl)).
Defined.

Lemma grouping_throws_iff_witness :
  groupFilesByFolder [fileAt (u "root/toString/a.png") 1]
  = Throw NOT_A_FUNCTION.
Proof.
  apply (proj2 (grouping_throws_iff [fileAt (u "root/toString/a.png") 1]
                  (fileAt (u "root/toString/a.png") 1) eq_refl)).
  exists (fileAt (u "root/toString/a.png") 1), (u "toString").
  repeat split. simpl. auto.
Defined.

Lemma splitPath_join_witness :
  splitPath (join [SLASH] [u "root"; u "X"; u "a.png"])
  = [u "root"; u "X"; u "a.png"].
Proof.
  apply (proj1 (splitPath_join [u "root"; u "X"; u "a.png"] [])).
  - discriminate.
  - repeat constructor.
Defined.

(** ** Image Orderer *)

(** X11.  The base name of "stem.ext" is "stem" whenever "ext" is not empty
    and holds no dot, whatever dots the stem holds; a name without any dot is
    its own base name. *)
Theorem baseName_strips_last_extension (stem ext s : jsstring) :
  (ext <> [] -> existsb (N.eqb DOT) ext = false ->
   baseName (stem ++ DOT :: ext) = stem)
  /\ (existsb (N.eqb DOT) s = false -> baseName s = s).
Proof.
  unfold baseName. split.
  - intros N E.
    assert (F : forallb (fun x => negb (N.eqb x DOT)) ext = true).
    { clear N. induction ext as [|c r IH]; [reflexivity|].
      change (N.eqb DOT c || existsb (N.eqb DOT) r = false) in E.
      apply orb_false_iff in E as [E1 E2]. cbn [forallb].
      now rewrite (N.eqb_sym c DOT), E1, (IH E2). }
    apply cutSuffix_at.
    + unfold extensionSuffix. rewrite N.eqb_refl, F.
      now destruct ext.
    + intros a1 a2 _ Na. destruct a2 as [|c r]; [contradiction|].
      unfold extensionSuffix. simpl app. cbv beta iota.
      rewrite forallb_app.
      cbn [forallb]. rewrite N.eqb_refl. cbn [negb].
      now rewrite !andb_false_r.
  - intros E. apply cutSuffix_none. intros a1 a2 ->.
    rewrite existsb_app in E. apply orb_false_iff in E as [_ E].
    destruct a2 as [|c r]; [reflexivity|].
    change (N.eqb DOT c || existsb (N.eqb DOT) r = false) in E.
    apply orb_false_iff in E as [E _]. unfold extensionSuffix.
    now rewrite (N.eqb_sym c DOT), E.
Qed.

Lemma baseName_strips_last_extension_witness :
  baseName (u "archive.v2" ++ DOT :: u "png") = u "archive.v2".
Proof.
  apply (proj1 (baseName_strips_last_extension (u "archive.v2") (u "png")
                  [])).
  - discriminate.
  - reflexivity.
Defined.



Lemma decimalValue_app (a b : jsstring) :
  decimalValue (a ++ b)
  = fold_left (fun acc c => (10 * acc + (c - 48))%N) b (decimalValue a).
Proof. unfold decimalValue. apply fold_left_app. Qed.

Lemma decimalValue_zeros (k : nat) : decimalValue (repeat 48%N k) = 0%N.
Proof.
  induction k as [|k IH]; [reflexivity|].
  change (repeat 48%N (S k)) with ([48%N] ++ repeat 48%N k).
  rewrite decimalValue_app. exact IH.
Qed.

(** X13.  Leading zeros do not change the number read from a digit run, and a
    run below 2^53 is read exactly. *)
Theorem parseInt_leading_zeros (k : nat) (run : jsstring) :
  run <> [] -> forallb isDigit run = true ->
  parseInt (repeat 48%N k ++ run) = parseInt run
  /\ ((decimalValue run < 2 ^ 53)%N ->
      parseInt run = Some (Finite (decimalValue run))).
Proof.
  intros N D. split.
  - assert (Z : forallb isDigit (repeat 48%N k) = true).
    { induction k; [reflexivity|]. simpl. exact IHk. }
    assert (P : parseInt (repeat 48%N k ++ run)
                = Some (roundToDouble (decimalValue (repeat 48%N k ++ run)))).
    { apply parseInt_run.
      - destruct run; [contradiction|]. now destruct (repeat 48%N k).
      - rewrite forallb_app. apply andb_true_iff. split; [exact Z|exact D]. }
    rewrite P, (parseInt_run run N D).
    rewrite decimalValue_app.
    pose proof (decimalValue_zeros k) as Z0.
    unfold decimalValue in *. now rewrite Z0.
  - intros L. rewrite (parseInt_run run N D).
    now rewrite roundToDouble_exact.
Qed.

Lemma parseInt_leading_zeros_witness :
  parseInt (repeat 48%N 2 ++ u "10") = parseInt (u "10").
Proof.
  apply (proj1 (parseInt_leading_zeros 2 (u "10") ltac:(discriminate)
                  eq_refl)).
Defined.


Section TierOrder.
Context `{Runtime}.
Hypothesis localeCompare_antisym :
  forall a b, (0 < localeCompare a b)%Z -> (localeCompare b a <= 0)%Z.


End TierOrder.



(** ** Reconciliation Engine *)

Section WriteTheorems.
Context `{Runtime} {World : Type} `{!Table World}.

(** X15.  Which writes the loop issues, and in which order, is settled by the
    groups, the record map, the cap and the keyword alone: the outcome of a
    write changes neither the later writes nor how many there are.  The writes
    are counted by success plus failed, the groups without a write by
    skipped. *)
Theorem writes_follow_the_plan (app : AppState) (uploadField : Field)
  (matchMap : list (jsstring * jsstring)) (limit : Z)
  (groups : list (jsstring * list File)) (c : Counts) (st : RunState) :
  exists c' st',
    forGroups (processGroup app uploadField matchMap limit) groups c st
    = (Ok c', st')
    /\ issued st' = issued st ++ plannedWrites app matchMap limit groups
    /\ success c' + failed c'
       = success c + failed c
         + List.length (plannedWrites app matchMap limit groups)
    /\ skipped c' + List.length (plannedWrites app matchMap limit groups)
       = skipped c + List.length groups.
Proof. apply forGroups_planned. Qed.
End WriteTheorems.

Lemma matchedRecord_value (matchMap : list (jsstring * jsstring))
  (key recordId : jsstring) :
  matchedRecord matchMap key = Some recordId ->
  In (key, recordId) matchMap /\ recordId <> [].
Proof.
  unfold matchedRecord. destruct (keyedGet matchMap key) as [r|] eqn:G;
    [|discriminate].
  destruct (truthy r) eqn:T; [|discriminate]. intros [= <-].
  split; [now apply keyedGet_In|]. now destruct r.
Qed.

Section PlanFacts.
Context `{Runtime}.

Lemma plannedWrite_shape (app : AppState)
  (matchMap : list (jsstring * jsstring)) (limit : Z)
  (g w : jsstring * list File) :
  In w (plannedWrite app matchMap limit g) ->
  In (normalizeFolderName (fst g), fst w) matchMap
  /\ fst w <> []
  /\ snd w = firstn (Z.to_nat limit)
                    (orderFiles (snd g) (priorityKeyword app))
  /\ snd w <> []
  /\ (List.length (snd w) <= Z.to_nat limit)%nat
  /\ (forall f, In f (snd w) -> In f (snd g)).
Proof.
  unfold plannedWrite.
  destruct (matchedRecord matchMap (normalizeFolderName (fst g)))
    as [recordId|] eqn:E; [|intros []].
  destruct (matchedRecord_value _ _ _ E) as [I N].
  destruct (slice0 (orderFiles (snd g) (priorityKeyword app)) limit)
    as [|x xs] eqn:U; [intros []|].
  intros [<-|[]]. cbn [fst snd]. unfold slice0 in U. rewrite <- U.
  repeat split; auto.
  - rewrite U. discriminate.
  - apply firstn_le_length.
  - intros f If.
    apply (Permutation_in f
             (orderFiles_perm (snd g) (priorityKeyword app))).
    rewrite <- (firstn_skipn (Z.to_nat limit)
                  (orderFiles (snd g) (priorityKeyword app))).
    apply in_or_app. now left.
Qed.
End PlanFacts.

Section RunTheorems.
Context `{Runtime} {World : Type} `{!Table World}.

Lemma runGroups_ends (app : AppState) (uploadField : Field)
  (matchMap : list (jsstring * jsstring)) (groupedFiles : GroupedFiles)
  (st : RunState) :
  exists st' line rest,
    runGroups app uploadField matchMap groupedFiles st = (Ok tt, st')
    /\ logs st' = firstn 500 (line :: rest)
    /\ terminal line = true
    /\ (Object_entries groupedFiles = [] -> line = LogNoSubfolders)
    /\ busy st' = busy st
    /\ issued st'
       = issued st
         ++ plannedWrites app matchMap (uploadLimit app)
              (Object_entries groupedFiles).
Proof.
  unfold runGroups.
  destruct (Object_entries groupedFiles) as [|g gs] eqn:G.
  - unfold appendLog. eexists. exists LogNoSubfolders, (logs st).
    simpl. rewrite app_nil_r. repeat split.
  - unfold bind at 1. unfold appendLog at 1.
    unfold bind at 1. unfold appendLog at 1.
    unfold bind at 1.
    match goal with
    | |- context [forGroups ?b ?l ?c ?s] =>
        destruct (forGroups_planned app uploadField matchMap
                    (uploadLimit app) l c s) as (c' & st' & F & I & _);
        assert (B : busy st' = busy s)
    end.
    { clear I. revert F. generalize noCounts.
      match goal with |- forall c, forGroups _ ?l c ?s = _ -> _ =>
        generalize s; generalize l end.
      induction l as [|x l IH]; intros s c0; simpl.
      - unfold ret. now intros [= _ <-].
      - unfold bind at 1.
        destruct (processGroup_outcome app uploadField matchMap
                    (uploadLimit app) c0 x s) as (o & s1 & P).
        rewrite P. intros F. rewrite (IH _ _ F).
        clear - P. destruct x as [folder files].
        unfold processGroup, bind, appendLog, ret, tryCatch, awaitSetValue
          in P. simpl in P.
        destruct (matchedRecord _ _); [|now injection P as _ <-].
        destruct (slice0 _ _); [now injection P as _ <-|].
        destruct (_ <? _)%Z; simpl in P;
          destruct (setValue _ _ _ _) as [[[]|e] w]; simpl in P;
          now injection P as _ <-. }
    rewrite F. unfold appendLog. eexists.
    exists (LogDone (success c') (failed c') (skipped c')), (logs st').
    cbn [logs issued busy]. repeat split; auto. discriminate.
Qed.

Lemma runUpload_started (app : AppState) (groupedFiles : GroupedFiles)
  (st : RunState) :
  setupOk app = true ->
  runUpload app groupedFiles st
  = tryFinally
      (tryCatch (runBody app groupedFiles)
         (fun err => appendLog (LogRunError (errorMessage err))))
      (setBusy false) (startRun st).
Proof.
  unfold setupOk. intros S.
  apply andb_true_iff in S as [S S4]. apply andb_true_iff in S as [S S3].
  apply andb_true_iff in S as [S1 S2].
  unfold runUpload. rewrite S1, S2, S3. simpl.
  destruct (selectedFiles app); [discriminate|]. reflexivity.
Qed.

(** X16.  Every run returns normally and ends with one closing line of the
    log: a setup warning, the no-sub-folders warning, the summary or the run
    error. The log never holds more than 500 lines, and once the setup checks
    have passed the busy flag is down again at the end. *)
Theorem runUpload_always_concludes (app : AppState)
  (groupedFiles : GroupedFiles) (st : RunState) :
  exists st' line,
    runUpload app groupedFiles st = (Ok tt, st')
    /\ hd_error (logs st') = Some line
    /\ terminal line = true
    /\ (List.length (logs st') <= 500)%nat
    /\ (setupOk app = true -> busy st' = false).
Proof.
  destruct (setupOk app) eqn:S.
  - rewrite (runUpload_started app groupedFiles st S).
    unfold tryFinally, tryCatch, runBody. unfold bind at 1.
    destruct (fetchMatchMap app (startRun st)) as [[[uf mm]|e] s1].
    + cbn [fst snd].
      destruct (runGroups_ends app uf mm groupedFiles s1)
        as (s2 & line & rest & G & L & T & _).
      rewrite G. unfold setBusy. eexists. exists line.
      cbn [logs busy]. rewrite L. repeat split; auto.
      apply firstn_le_length.
    + unfold appendLog, setBusy. eexists.
      exists (LogRunError (errorMessage e)). cbn [logs busy].
      repeat split. apply firstn_le_length.
  - unfold setupOk in S. unfold runUpload.
    destruct (tableReady app);
      [|eexists; exists LogNoTable; unfold appendLog; cbn [logs];
        repeat split; [apply firstn_le_length|discriminate]].
    destruct (truthy (matchFieldId app));
      [|eexists; exists LogSelectFields; unfold appendLog; cbn [logs];
        repeat split; [apply firstn_le_length|discriminate]].
    destruct (truthy (uploadFieldId app));
      [|eexists; exists LogSelectFields; unfold appendLog; cbn [logs];
        repeat split; [apply firstn_le_length|discriminate]].
    destruct (selectedFiles app); [|discriminate].
    eexists. exists LogSelectFiles. unfold appendLog. cbn [logs negb orb].
    repeat split; [apply firstn_le_length|discriminate].
Qed.

(** X17.  When a setup check fails (no table, no field chosen, no file
    selected) the run does not start: one warning is logged and the host, the
    busy flag and the issued writes stay as they were. *)
Theorem setup_failure_touches_nothing (app : AppState)
  (groupedFiles : GroupedFiles) (st : RunState) :
  setupOk app = false ->
  exists line,
    In line [LogNoTable; LogSelectFields; LogSelectFiles]
    /\ runUpload app groupedFiles st
       = (Ok tt, {| world := world st; logs := firstn 500 (line :: logs st);
                    busy := busy st; issued := issued st |}).
Proof.
  unfold setupOk, runUpload. intros S.
  destruct (tableReady app); [|exists LogNoTable; simpl; auto].
  destruct (truthy (matchFieldId app));
    [|exists LogSelectFields; simpl; auto].
  destruct (truthy (uploadFieldId app));
    [|exists LogSelectFields; simpl; auto].
  destruct (selectedFiles app); [|discriminate].
  exists LogSelectFiles. simpl. auto.
Qed.

(** X18.  A run in which the record map gets built (every read resolves and
    the normalisation of every value read returns) issues exactly the planned
    writes of its groups, in the order of the groups, and nothing else; with
    no group at all it issues none and ends with the no-sub-folders
    warning. *)
Theorem run_issues_planned_writes (app : AppState)
  (groupedFiles : GroupedFiles) (st st1 : RunState) (uploadField : Field)
  (matchMap : list (jsstring * jsstring)) :
  setupOk app = true ->
  fetchMatchMap app (startRun st) = (Ok (uploadField, matchMap), st1) ->
  exists st',
    runUpload app groupedFiles st = (Ok tt, st')
    /\ issued st'
       = issued st
         ++ plannedWrites app matchMap (uploadLimit app)
              (Object_entries groupedFiles)
    /\ (Object_entries groupedFiles = [] ->
        issued st' = issued st
        /\ hd_error (logs st') = Some LogNoSubfolders).
Proof.
  intros S F. rewrite (runUpload_started app groupedFiles st S).
  unfold tryFinally, tryCatch, runBody. unfold bind at 1. rewrite F.
  cbn [fst snd].
  destruct (runGroups_ends app uploadField matchMap groupedFiles st1)
    as (s2 & line & rest & G & L & _ & E & _ & I).
  rewrite G. unfold setBusy. eexists. split; [reflexivity|].
  cbn [issued logs]. apply fetchMatchMap_frame in F as [F _].
  cbn [issued startRun] in F. rewrite I, F. split; [reflexivity|].
  intros O. rewrite O. simpl. rewrite app_nil_r. split; [reflexivity|].
  rewrite L, (E O). reflexivity.
Qed.

(** X19.  When listing the records, fetching a field or reading a value
    rejects, the rejection is caught at the top: the run logs the error with
    its message, issues no write and lowers the busy flag. *)
Theorem read_failure_is_reported (app : AppState)
  (groupedFiles : GroupedFiles) (st st1 : RunState) (e : Exn) :
  setupOk app = true ->
  fetchMatchMap app (startRun st) = (Throw e, st1) ->
  exists st',
    runUpload app groupedFiles st = (Ok tt, st')
    /\ hd_error (logs st') = Some (LogRunError (errorMessage e))
    /\ issued st' = issued st
    /\ world st' = world st1
    /\ busy st' = false.
Proof.
  intros S F. rewrite (runUpload_started app groupedFiles st S).
  unfold tryFinally, tryCatch, runBody. unfold bind at 1. rewrite F.
  unfold appendLog, setBusy. eexists. split; [reflexivity|].
  cbn [logs issued world busy]. apply fetchMatchMap_frame in F as [F _].
  repeat split. exact F.
Qed.

(** X20.  Every write the loop issues goes to the record the map holds for the
    group's key, carries the first files of the group's ordering, at least one
    and at most the cap, and only files of that group. *)
Theorem every_write_is_bounded (app : AppState) (uploadField : Field)
  (matchMap : list (jsstring * jsstring)) (limit : Z)
  (groups : list (jsstring * list File)) (c c' : Counts)
  (st st' : RunState) (w : jsstring * list File) :
  forGroups (processGroup app uploadField matchMap limit) groups c st
  = (Ok c', st') ->
  In w (issued st') ->
  In w (issued st)
  \/ exists g,
       In g groups
       /\ In (normalizeFolderName (fst g), fst w) matchMap
       /\ snd w = firstn (Z.to_nat limit)
                         (orderFiles (snd g) (priorityKeyword app))
       /\ snd w <> []
       /\ (List.length (snd w) <= Z.to_nat limit)%nat
       /\ (forall f, In f (snd w) -> In f (snd g)).
Proof.
  intros F I.
  destruct (forGroups_planned app uploadField matchMap limit groups c st)
    as (c2 & st2 & F2 & I2 & _).
  rewrite F in F2. injection F2 as <- <-. rewrite I2 in I.
  apply in_app_or in I as [I|I]; [now left|right].
  unfold plannedWrites in I. apply in_flat_map in I as (g & Ig & Iw).
  exists g. split; [exact Ig|].
  destruct (plannedWrite_shape app matchMap limit g w Iw)
    as (A & _ & B & C & D & E). auto.
Qed.
Lemma fetchMatchMap_reads (app : AppState) (st : RunState)
  (recordIds : list jsstring) (matchField uploadField : Field)
  (w1 w2 w3 : World) :
  getRecordIdList (world st) = (Ok recordIds, w1) ->
  getField (matchFieldId app) w1 = (Ok matchField, w2) ->
  getField (uploadFieldId app) w2 = (Ok uploadField, w3) ->
  fetchMatchMap app st
  = match buildMatchMap matchField recordIds []
            {| world := w3; logs := firstn 500 (LogFetching :: logs st);
               busy := busy st; issued := issued st |} with
    | (Ok matchMap, s) =>
        (Ok (uploadField, matchMap),
         {| world := world s;
            logs := firstn 500
                      (LogFetched (List.length recordIds)
                         (List.length matchMap) :: logs s);
            busy := busy s; issued := issued s |})
    | (Throw e, s) => (Throw e, s)
    end.
Proof.
  intros R F1 F2. unfold fetchMatchMap.
  unfold bind at 1. unfold appendLog at 1.
  unfold bind at 1. unfold await at 1. cbn [world logs busy issued].
  rewrite R.
  unfold bind at 1. unfold await at 1. cbn [world logs busy issued].
  rewrite F1.
  unfold bind at 1. unfold await at 1. cbn [world logs busy issued].
  rewrite F2.
  unfold bind at 1.
  destruct (buildMatchMap matchField recordIds [] _) as [[matchMap|e] s];
    reflexivity.
Qed.

(** X29.  When the value read for a record is one on which the normalisation
    throws, the throw leaves the loop over the records and is caught at the
    top: the records after it are not read, the run logs the run error with
    the message of the [TypeError], issues no write and lowers the busy
    flag. *)
Theorem conversion_failure_stops_the_run (app : AppState)
  (groupedFiles : GroupedFiles) (st st1 : RunState)
  (before after : list jsstring) (recordId : jsstring)
  (matchField uploadField : Field) (w1 w2 w3 w : World)
  (matchMap : list (jsstring * jsstring)) (raw : JsValue) (e : Exn) :
  setupOk app = true ->
  getRecordIdList (world st) = (Ok (before ++ recordId :: after), w1) ->
  getField (matchFieldId app) w1 = (Ok matchField, w2) ->
  getField (uploadFieldId app) w2 = (Ok uploadField, w3) ->
  buildMatchMap matchField before []
    {| world := w3; logs := [LogFetching]; busy := true;
       issued := issued st |} = (Ok matchMap, st1) ->
  getValue matchField recordId (world st1) = (Ok raw, w) ->
  normalizeMatchValue raw = Throw e ->
  e = CANNOT_CONVERT
  /\ runUpload app groupedFiles st
     = (Ok tt,
        {| world := w;
           logs := firstn 500 (LogRunError (errorMessage e) :: logs st1);
           busy := false; issued := issued st |}).
Proof.
  intros S R F1 F2 B G K. split; [exact (normalizeWithin_throws _ _ _ K)|].
  rewrite (runUpload_started app groupedFiles st S).
  unfold tryFinally, tryCatch, runBody. unfold bind at 1.
  rewrite (fetchMatchMap_reads app (startRun st) _ matchField uploadField
             w1 w2 w3 R F1 F2).
  cbn [startRun logs busy issued firstn].
  rewrite buildMatchMap_app, B, buildMatchMap_cons, G, K.
  unfold appendLog, setBusy. cbn [world logs busy issued].
  destruct (buildMatchMap_frame _ _ _ _ _ _ B) as [I _].
  cbn [issued] in I. now rewrite I.
Qed.
End RunTheorems.

Lemma setup_failure_touches_nothing_witness :
  exists line,
    In line [@LogNoTable sampleRuntime; LogSelectFields; LogSelectFiles]
    /\ @runUpload sampleRuntime SampleWorld sampleTable emptyApp []
         (startOn aliceOnly)
       = (Ok tt, {| world := aliceOnly; logs := firstn 500 [line];
                    busy := false; issued := [] |}).
Proof.
  apply (@setup_failure_touches_nothing sampleRuntime SampleWorld sampleTable
           emptyApp [] (startOn aliceOnly)).
  reflexivity.
Defined.

Lemma run_issues_planned_writes_witness :
  exists st',
    @runUpload sampleRuntime SampleWorld sampleTable sampleApp
      [(u "Alice", [fileAt (u "root/Alice/1.png") 1]);
       (u "Carol", [fileAt (u "root/Carol/1.png") 2])]
      (startOn aliceOnly) = (Ok tt, st')
    /\ issued st' = [(u "r1", [fileAt (u "root/Alice/1.png") 1])].
Proof.
  destruct
    (@run_issues_planned_writes sampleRuntime SampleWorld sampleTable
       sampleApp
       [(u "Alice", [fileAt (u "root/Alice/1.png") 1]);
        (u "Carol", [fileAt (u "root/Carol/1.png") 2])]
       (startOn aliceOnly)
       (snd (@fetchMatchMap sampleRuntime SampleWorld sampleTable sampleApp
               (startRun (startOn aliceOnly))))
       (u "fldImages") [(u "Alice", u "r1")] eq_refl eq_refl)
    as (st' & R & I & _).
  exists st'. split; [exact R|exact I].
Defined.

Lemma read_failure_is_reported_witness :
  exists st',
    @runUpload sampleRuntime SampleWorld offlineTable sampleApp
      [(u "Alice", [fileAt (u "root/Alice/1.png") 1])]
      (@startOn aliceOnly) = (Ok tt, st')
    /\ hd_error (logs st') = Some (LogRunError (u "offline"))
    /\ issued st' = [].
Proof.
  destruct
    (@read_failure_is_reported sampleRuntime SampleWorld offlineTable
       sampleApp [(u "Alice", [fileAt (u "root/Alice/1.png") 1])]
       (startOn aliceOnly)
       (snd (@fetchMatchMap sampleRuntime SampleWorld offlineTable sampleApp
               (startRun (startOn aliceOnly))))
       {| message := u "offline" |} eq_refl eq_refl)
    as (st' & R & L & I & _).
  exists st'. auto.
Defined.

Lemma conversion_failure_stops_the_run_witness :
  @runUpload sampleRuntime SampleWorld sampleTable sampleApp
    [(u "Alice", [fileAt (u "root/Alice/1.png") 1])]
    (startOn hiddenToString)
  = (Ok tt,
     {| world := hiddenToString;
        logs := [LogRunError (u "Cannot convert object to primitive value");
                 LogFetching];
        busy := false; issued := [] |}).
Proof.
  exact (proj2
    (@conversion_failure_stops_the_run sampleRuntime SampleWorld sampleTable
       sampleApp [(u "Alice", [fileAt (u "root/Alice/1.png") 1])]
       (startOn hiddenToString)
       {| world := hiddenToString; logs := [LogFetching]; busy := true;
          issued := [] |}
       [] [u "r2"] (u "r1") (u "fldKey") (u "fldImages")
       hiddenToString hiddenToString hiddenToString hiddenToString []
       (@JObject sampleRuntime
          [(u "toString", @JString sampleRuntime (u "x"))])
       (@CANNOT_CONVERT sampleRuntime)
       eq_refl eq_refl eq_refl eq_refl eq_refl eq_refl eq_refl)).
Defined.

Lemma every_write_is_bounded_witness :
  exists g,
    In g [(u "Alice", fiveNumbered)]
    /\ In (@normalizeFolderName sampleRuntime (fst g), u "r1")
          [(u "Alice", u "r1")]
    /\ map fileNamed [u "1.png"; u "2.png"; u "3.png"]
       = firstn (Z.to_nat 3)
                (@orderFiles sampleRuntime (snd g)
                   (priorityKeyword sampleApp)).
Proof.
  destruct
    (@every_write_is_bounded sampleRuntime SampleWorld sampleTable sampleApp
       (u "fldImages") [(u "Alice", u "r1")] 3%Z
       [(u "Alice", fiveNumbered)] noCounts (bump Succeeded noCounts)
       (startOn aliceOnly)
       (snd (forGroups
          (@processGroup sampleRuntime SampleWorld sampleTable sampleApp
             (u "fldImages") [(u "Alice", u "r1")] 3%Z)
          [(u "Alice", fiveNumbered)] noCounts (startOn aliceOnly)))
       (u "r1", map fileNamed [u "1.png"; u "2.png"; u "3.png"]))
    as [[]|(g & Ig & Im & E & _)].
  - vm_compute. reflexivity.
  - vm_compute. auto.
  - exists g. auto.
Defined.

Lemma keyedSet_length (V : Type) (entries : list (jsstring * V))
  (key : jsstring) (v : V) :
  (List.length (keyedSet entries key v) <= S (List.length entries))%nat.
Proof.
  induction entries as [|[k w] rest IH]; simpl; [lia|].
  destruct (streq k key); simpl; lia.
Qed.

Lemma NoDup_keys_keyedSet (V : Type) (entries : list (jsstring * V))
  (key : jsstring) (v : V) :
  NoDup (map fst entries) -> NoDup (map fst (keyedSet entries key v)).
Proof.
  intros N. rewrite keys_keyedSet_eq.
  destruct (keyedGet entries key) eqn:G; [exact N|].
  apply NoDup_app; [exact N|repeat constructor; intros []|].
  intros k I [<-|[]]. now apply keyedGet_none_keys in G.
Qed.

Section MatchMapFacts.
Context `{Runtime} {World : Type} `{!Table World}.

Lemma buildMatchMap_shape (matchField : Field) (recordIds : list jsstring) :
  forall matchMap0 st matchMap st',
    buildMatchMap matchField recordIds matchMap0 st = (Ok matchMap, st') ->
    NoDup (map fst matchMap0) ->
    NoDup (map fst matchMap)
    /\ (List.length matchMap
        <= List.length matchMap0 + List.length recordIds)%nat
    /\ forall k r, In (k, r) matchMap ->
                   In (k, r) matchMap0 \/ (k <> [] /\ In r recordIds).
Proof.
  induction recordIds as [|recordId rest IH];
    intros matchMap0 st matchMap st'.
  - simpl. unfold ret. intros [= <- _] N. repeat split; auto. lia.
  - rewrite buildMatchMap_cons.
    destruct (getValue matchField recordId (world st)) as [[raw|e] w];
      [|discriminate].
    destruct (normalizeMatchValue raw) as [key|e]; [|discriminate].
    intros B N. simpl List.length.
    destruct (truthy key) eqn:T.
    + apply IH in B; [|now apply NoDup_keys_keyedSet].
      destruct B as (N' & L & I). split; [exact N'|]. split.
      * pose proof (keyedSet_length _ matchMap0 key recordId). lia.
      * intros k r Ik. destruct (I k r Ik) as [I0|[K R]];
          [|right; split; [exact K|now right]].
        apply In_keyedSet in I0 as [I0|[-> ->]]; [now left|right].
        split; [|now left]. intros E. rewrite E in T. discriminate.
    + apply IH in B; [|exact N]. destruct B as (N' & L & I).
      split; [exact N'|]. split; [lia|].
      intros k r Ik. destruct (I k r Ik) as [I0|[K R]]; auto.
      right. split; [exact K|now right].
Qed.

(** X21.  The key to record map has pairwise different keys, none of them
    empty, holds at most one entry per record, and maps every key to one of
    the listed records. *)
Theorem matchMap_is_well_formed (matchField : Field)
  (recordIds : list jsstring) (st st' : RunState)
  (matchMap : list (jsstring * jsstring)) :
  buildMatchMap matchField recordIds [] st = (Ok matchMap, st') ->
  NoDup (map fst matchMap)
  /\ (List.length matchMap <= List.length recordIds)%nat
  /\ forall k r, In (k, r) matchMap ->
                 k <> [] /\ In r recordIds /\ keyedGet matchMap k = Some r.
Proof.
  intros B.
  destruct (buildMatchMap_shape matchField recordIds [] st matchMap st' B)
    as (N & L & I); [constructor|].
  split; [exact N|]. split; [exact L|]. intros k r Ik.
  destruct (I k r Ik) as [[]|[K R]].
  repeat split; auto. now apply In_keyedGet_NoDup.
Qed.

(** X22.  A record read later takes over the key of an earlier record with the
    same key, and leaves all other keys alone. *)
Theorem later_record_wins (matchField : Field) (earlier : list jsstring)
  (recordId : jsstring) (st st1 : RunState)
  (matchMap : list (jsstring * jsstring)) (raw : JsValue) (w : World)
  (key : jsstring) :
  buildMatchMap matchField earlier [] st = (Ok matchMap, st1) ->
  getValue matchField recordId (world st1) = (Ok raw, w) ->
  normalizeMatchValue raw = Ok key ->
  key <> [] ->
  exists st2,
    buildMatchMap matchField (earlier ++ [recordId]) [] st
    = (Ok (keyedSet matchMap key recordId), st2)
    /\ keyedGet (keyedSet matchMap key recordId) key = Some recordId
    /\ forall other,
         other <> key ->
         keyedGet (keyedSet matchMap key recordId) other
         = keyedGet matchMap other.
Proof.
  intros B G K N.
  assert (T : truthy key = true).
  { destruct key; [congruence|reflexivity]. }
  rewrite buildMatchMap_app, B, buildMatchMap_cons, G, K, T.
  simpl. unfold ret.
  eexists. split; [reflexivity|]. split.
  - apply keyedGet_set_same.
  - intros other O. now apply keyedGet_set_other.
Qed.
End MatchMapFacts.

Lemma matchMap_is_well_formed_witness :
  NoDup (map fst [(u "Alice", u "r2")])
  /\ (List.length [(u "Alice", u "r2")] <= List.length [u "r1"; u "r2"])%nat.
Proof.
  destruct
    (@matchMap_is_well_formed sampleRuntime SampleWorld sampleTable
       (u "fldKey") [u "r1"; u "r2"] (startOn twins)
       (snd (@buildMatchMap sampleRuntime SampleWorld sampleTable
               (u "fldKey") [u "r1"; u "r2"] [] (startOn twins)))
       [(u "Alice", u "r2")] eq_refl)
    as (N & L & _).
  split; [exact N|exact L].
Defined.

Lemma later_record_wins_witness :
  keyedGet (keyedSet [(u "Alice", u "r1")] (u "Alice") (u "r2")) (u "Alice")
  = Some (u "r2").
Proof.
  destruct
    (@later_record_wins sampleRuntime SampleWorld sampleTable (u "fldKey")
       [u "r1"] (u "r2") (startOn twins)
       (snd (@buildMatchMap sampleRuntime SampleWorld sampleTable
               (u "fldKey") [u "r1"] [] (startOn twins)))
       [(u "Alice", u "r1")] (@JString sampleRuntime (u " Alice ")) twins
       (u "Alice") eq_refl eq_refl eq_refl ltac:(discriminate))
    as (st2 & _ & K & _).
  exact K.
Defined.

(** ** Preview *)

(** X23.  Every card of the preview stands for one group: it shows the number
    of its files and the names of the first three files of its ordering, which
    are the first three files of what is uploaded whenever the cap is at least
    three. *)
Theorem preview_is_upload_prefix `{Runtime} (groupedFiles : GroupedFiles)
  (kw : jsstring) (item : PreviewItem) (limit : Z) :
  In item (folderPreview groupedFiles kw) ->
  exists files,
    In (itemFolder item, files) groupedFiles
    /\ itemTotal item = List.length files
    /\ List.length (itemPreview item) = Nat.min 3 (List.length files)
    /\ firstn (Z.to_nat limit) (itemPreview item)
       = firstn 3 (map name (slice0 (orderFiles files kw) limit))
    /\ ((3 <= limit)%Z ->
        itemPreview item
        = firstn 3 (map name (slice0 (orderFiles files kw) limit))).
Proof.
  unfold folderPreview. intros I.
  apply in_map_iff in I as ([folder files] & <- & I).
  apply (Permutation_in _ (Object_entries_perm _ groupedFiles)) in I.
  exists files. cbn [itemFolder itemTotal itemPreview fst snd].
  assert (E : forall n,
             firstn n (map name (firstn 3 (orderFiles files kw)))
             = firstn 3 (map name (firstn n (orderFiles files kw)))).
  { intros n. rewrite !firstn_map, !firstn_firstn.
    now rewrite Nat.min_comm. }
  split; [exact I|]. split; [reflexivity|]. split.
  { rewrite length_map, length_firstn, orderFiles_length. reflexivity. }
  split; [apply E|].
  intros L. unfold slice0. rewrite <- E.
  apply eq_sym, firstn_all2.
  rewrite length_map, length_firstn. lia.
Qed.

Lemma preview_is_upload_prefix_witness :
  exists files,
    In (u "X", files) [(u "X", fiveNumbered)]
    /\ List.length files = 5.
Proof.
  destruct
    (@preview_is_upload_prefix sampleRuntime [(u "X", fiveNumbered)] FENGMIAN
       {| itemFolder := u "X"; itemTotal := 5;
          itemPreview := [u "1.png"; u "2.png"; u "3.png"] |} 10%Z
       (or_introl eq_refl))
    as (files & I & T & _).
  exists files. split; [exact I|]. now rewrite <- T.
Defined.

(** ** Picking files *)

Lemma splitDots_nonempty (s : jsstring) : splitDots s <> [].
Proof.
  destruct s as [|c r]; simpl; [discriminate|].
  destruct (N.eqb c DOT); [discriminate|].
  destruct (splitDots r); discriminate.
Qed.

Lemma splitDots_plain (s : jsstring) :
  existsb (fun c => N.eqb c DOT) s = false -> splitDots s = [s].
Proof.
  induction s as [|c r IH]; [reflexivity|]. simpl. intros E.
  apply orb_false_iff in E as [E1 E2]. now rewrite E1, (IH E2).
Qed.

Lemma splitDots_last (a b : jsstring) :
  last (splitDots (a ++ DOT :: b)) [] = last (splitDots b) [].
Proof.
  induction a as [|c r IH]; simpl app; cbn [splitDots].
  - rewrite N.eqb_refl.
    destruct (splitDots b) eqn:E; [now apply splitDots_nonempty in E|].
    reflexivity.
  - destruct (N.eqb c DOT).
    + rewrite <- IH.
      destruct (splitDots (r ++ DOT :: b)) eqn:E;
        [now apply splitDots_nonempty in E|reflexivity].
    + rewrite <- IH. clear IH.
      assert (L : (2 <= List.length (splitDots (r ++ DOT :: b)))%nat).
      { clear. induction r as [|x r IH]; simpl app; cbn [splitDots].
        - rewrite N.eqb_refl.
          destruct (splitDots b) eqn:E;
            [now apply splitDots_nonempty in E|simpl; lia].
        - destruct (N.eqb x DOT); [simpl; lia|].
          destruct (splitDots (r ++ DOT :: b)); simpl in *; lia. }
      destruct (splitDots (r ++ DOT :: b)) as [|s1 [|s2 rest]];
        simpl in L; try lia. reflexivity.
Qed.

Section PickerFacts.
Variable toLowerCase : jsstring -> jsstring.
Hypothesis toLowerCase_ascii :
  forall s, isAscii s = true -> toLowerCase s = lowerAscii s.

(** X24.  Whether a file counts as an image is decided by the part of its name
    after the last dot alone, without regard to the case of ASCII letters; a
    name without any dot is taken as its own extension. *)
Theorem extension_decides (f : File) (stem ext : jsstring) :
  isAscii ext = true ->
  existsb (fun c => N.eqb c DOT) ext = false ->
  (name f = stem ++ DOT :: ext \/ name f = ext) ->
  isSupportedImage toLowerCase f
  = existsb (streq (lowerAscii ext)) SUPPORTED_IMAGE_EXTS.
Proof.
  intros A D N. unfold isSupportedImage.
  assert (L : last (splitDots (name f)) [] = ext).
  { destruct N as [-> | ->].
    - now rewrite splitDots_last, splitDots_plain.
    - now rewrite splitDots_plain. }
  now rewrite L, toLowerCase_ascii.
Qed.
End PickerFacts.

Lemma lowerAscii_ok (s : jsstring) :
  isAscii s = true -> lowerAscii s = lowerAscii s.
Proof. reflexivity. Qed.

Lemma extension_decides_witness :
  isSupportedImage lowerAscii (fileNamed (u "holiday.v2.JpEg")) = true.
Proof.
  apply (extension_decides lowerAscii lowerAscii_ok
           (fileNamed (u "holiday.v2.JpEg")) (u "holiday.v2") (u "JpEg")).
  - reflexivity.
  - reflexivity.
  - left. reflexivity.
Defined.

Lemma group_members_selected (files : list File) (grouped : GroupedFiles)
  (key : jsstring) (fs : list File) (f : File) :
  groupFilesByFolder files = Ok grouped ->
  In (key, fs) grouped -> In f fs -> In f files.
Proof.
  destruct files as [|first rest].
  - simpl. intros [= <-] [].
  - unfold groupFilesByFolder. intros G I Hf.
    assert (N : NoDup (map fst grouped)).
    { refine (proj1 (forEach_invariant (inferredRoot first)
                (fun g => NoDup (map fst g)
                          /\ (forall key, In key (map fst g) ->
                                key <> []
                                /\ existsb (streq key) objectPrototypeKeys
                                   = false))
                _ (first :: rest) [] grouped _ G)).
      - intros g x g' Hp S.
        now apply (groupOne_keys (inferredRoot first) g g' x).
      - split; [constructor|intros k []]. }
    pose proof (In_keyedGet_NoDup _ grouped key fs N I) as K.
    rewrite (forEach_contents (inferredRoot first) (first :: rest) [] []
               grouped (fun _ => eq_refl) G key) in K.
    simpl app in K.
    destruct (filter (filedUnder (inferredRoot first) key) (first :: rest))
      as [|y l] eqn:E; [discriminate|].
    injection K as <-. rewrite <- E in Hf.
    now apply filter_In in Hf.
Qed.

Section PickThenUpload.
Context `{Runtime}.
Variable toLowerCase : jsstring -> jsstring.

(** X25.  From the picked folder to the writes: every file that a run would
    upload was among the picked files and counts as an image. *)
Theorem uploads_are_picked_images (picked : list File) (app : AppState)
  (grouped : GroupedFiles) (matchMap : list (jsstring * jsstring))
  (w : jsstring * list File) (f : File) :
  let app' := fst (handleFolderChange toLowerCase picked app) in
  groupFilesByFolder (selectedFiles app') = Ok grouped ->
  In w (plannedWrites app' matchMap (uploadLimit app')
          (Object_entries grouped)) ->
  In f (snd w) ->
  In f picked /\ isSupportedImage toLowerCase f = true.
Proof.
  intros app' G Iw If. unfold plannedWrites in Iw.
  apply in_flat_map in Iw as ([folder files] & Ig & Iw).
  destruct (plannedWrite_shape app' matchMap (uploadLimit app')
              (folder, files) w Iw) as (_ & _ & _ & _ & _ & S).
  apply S in If. cbn [snd] in If.
  apply (Permutation_in _ (Object_entries_perm _ grouped)) in Ig.
  pose proof (group_members_selected _ grouped folder files f G Ig If) as M.
  unfold app', handleFolderChange in M. cbn [fst selectedFiles
    setSelectedFiles] in M.
  now apply filter_In in M.
Qed.
End PickThenUpload.

Lemma uploads_are_picked_images_witness :
  In (fileAt (u "root/Alice/1.png") 1)
     [fileAt (u "root/Alice/1.png") 1; fileAt (u "root/Alice/notes.txt") 2]
  /\ isSupportedImage lowerAscii (fileAt (u "root/Alice/1.png") 1) = true.
Proof.
  apply (@uploads_are_picked_images sampleRuntime lowerAscii
           [fileAt (u "root/Alice/1.png") 1;
            fileAt (u "root/Alice/notes.txt") 2]
           emptyApp [(u "Alice", [fileAt (u "root/Alice/1.png") 1])]
           [(u "Alice", u "r1")]
           (u "r1", [fileAt (u "root/Alice/1.png") 1])
           (fileAt (u "root/Alice/1.png") 1)).
  - reflexivity.
  - vm_compute. auto.
  - simpl. auto.
Defined.

(** ** Dropped folders *)

Lemma join_truthy (seg : jsstring) (rest : list jsstring) :
  seg <> [] -> truthy (join [SLASH] (seg :: rest)) = true.
Proof.
  intros N. destruct seg as [|c r]; [contradiction|].
  now destruct rest.
Qed.

Lemma join_snoc (segs : list jsstring) (leaf : jsstring) :
  Forall (fun seg : jsstring => seg <> []) segs ->
  join [SLASH] (segs ++ [leaf]) = childPath (join [SLASH] segs) leaf.
Proof.
  induction 1 as [|seg rest Hs Hrest IH]; [reflexivity|].
  unfold childPath. rewrite (join_truthy seg rest Hs).
  destruct rest as [|seg' rest'].
  - reflexivity.
  - change (join [SLASH] ((seg :: seg' :: rest') ++ [leaf]))
      with (seg ++ [SLASH] ++ join [SLASH] ((seg' :: rest') ++ [leaf])).
    rewrite IH. unfold childPath.
    inversion Hrest as [|? ? Hs' _]; subst.
    rewrite (join_truthy seg' rest' Hs').
    change (join [SLASH] (seg :: seg' :: rest'))
      with (seg ++ [SLASH] ++ join [SLASH] (seg' :: rest')).
    now rewrite <- !app_assoc.
Qed.

Lemma cleanName_nonempty (s : jsstring) : cleanName s = true -> s <> [].
Proof. unfold cleanName. now destruct s. Qed.

Lemma placed_under (segs : list jsstring) (dirName : jsstring)
  (leaf : list jsstring * File) :
  placed segs (dirName :: fst leaf, snd leaf) = placed (segs ++ [dirName]) leaf.
Proof.
  unfold placed. cbn [fst snd]. now rewrite <- app_assoc.
Qed.

(** A traversal in which every read resolves appends the files below the
    entry, depth first, each with the relative path that its directories and
    its name spell. *)
Lemma traverse_collects :
  forall (entry : FsEntry) (segs : list jsstring) (files : list File),
    readable entry = true -> cleanNames entry = true ->
    Forall (fun seg : jsstring => seg <> []) segs ->
    traverseFileTree entry (join [SLASH] segs) files
    = Ok (files ++ map (placed segs) (leaves entry)).
Proof.
  fix IH 1. intros [file|e|dirName entries|dirName e|] segs files R C S;
    cbn [traverseFileTree leaves readable cleanNames] in *;
    try discriminate.
  - unfold placed. cbn [map fst snd app]. now rewrite join_snoc.
  - apply andb_true_iff in C as [Cd Ce].
    rewrite <- (join_snoc segs dirName S).
    assert (S' : Forall (fun seg : jsstring => seg <> []) (segs ++ [dirName])).
    { apply Forall_app. split; [exact S|].
      constructor; [now apply cleanName_nonempty|constructor]. }
    rewrite map_map.
    rewrite (map_ext _ (placed (segs ++ [dirName]))
               (fun leaf => placed_under segs dirName leaf)).
    clear Cd. revert files R Ce.
    induction entries as [|child rest IHrest]; intros files R Ce.
    + simpl. now rewrite app_nil_r.
    + cbn [forallb] in R, Ce.
      apply andb_true_iff in R as [R1 R2].
      apply andb_true_iff in Ce as [C1 C2].
      cbn [forEach flat_map]. rewrite (IH child _ files R1 C1 S').
      rewrite (IHrest _ R2 C2). now rewrite map_app, app_assoc.
  - now rewrite app_nil_r.
Qed.

Lemma leaves_clean :
  forall (entry : FsEntry) (leaf : list jsstring * File),
    cleanNames entry = true -> In leaf (leaves entry) ->
    Forall (fun seg : jsstring => cleanName seg = true) (fst leaf)
    /\ cleanName (name (snd leaf)) = true.
Proof.
  fix IH 1. intros [file|e|dirName entries|dirName e|] leaf C I;
    cbn [leaves cleanNames] in *; try destruct I.
  - subst leaf. split; [constructor|exact C].
  - destruct H.
  - apply andb_true_iff in C as [Cd Ce].
    apply in_map_iff in I as (inner & <- & I). cbn [fst snd].
    assert (X : Forall (fun seg : jsstring => cleanName seg = true) (fst inner)
                /\ cleanName (name (snd inner)) = true).
    { clear Cd. induction entries as [|child rest IHrest];
        [destruct I|].
      cbn [forallb] in Ce. apply andb_true_iff in Ce as [C1 C2].
      cbn [flat_map] in I. apply in_app_or in I as [I|I].
      - now apply (IH child).
      - now apply IHrest. }
    destruct X as [X1 X2]. split; [now constructor|exact X2].
Qed.

Lemma clean_segments (segs : list jsstring) :
  Forall (fun seg : jsstring => cleanName seg = true) segs ->
  Forall (fun seg => existsb isPathSep seg = false) segs
  /\ filter truthy segs = segs.
Proof.
  induction 1 as [|seg rest Hs Hrest [IH1 IH2]]; [now split|].
  unfold cleanName in Hs. apply andb_true_iff in Hs as [T P].
  apply negb_true_iff in P. split; [now constructor|].
  simpl. now rewrite T, IH2.
Qed.

Lemma strip_leading_slash_id (s : jsstring) :
  (forall t, s <> SLASH :: t) ->
  match stripPrefix [SLASH] s with Some rest => rest | None => s end = s.
Proof.
  intros N. destruct s as [|c t]; [reflexivity|]. cbn [stripPrefix].
  destruct (N.eqb SLASH c) eqn:E; [|reflexivity].
  apply N.eqb_eq in E. subst c. now destruct (N t).
Qed.

Lemma placed_parts (root : jsstring) (rest : list jsstring) (f : File) :
  Forall (fun seg : jsstring => cleanName seg = true) (root :: rest) ->
  cleanName (name f) = true ->
  pathParts (placed [] (root :: rest, f)) = root :: rest ++ [name f]
  /\ inferredRoot (placed [] (root :: rest, f)) = root.
Proof.
  intros Cd Cf.
  assert (Call : Forall (fun seg : jsstring => cleanName seg = true)
                        (root :: rest ++ [name f])).
  { change (root :: rest ++ [name f]) with ((root :: rest) ++ [name f]).
    apply Forall_app. split; [exact Cd|now repeat constructor]. }
  destruct (clean_segments _ Call) as [Sep Tr].
  assert (P : getRelativePath (placed [] (root :: rest, f))
              = join [SLASH] (root :: rest ++ [name f])).
  { unfold getRelativePath, placed, withRelativePath.
    cbn [webkitRelativePath fst snd app].
    inversion Cd as [|? ? Cr _]; subst.
    rewrite join_truthy by now apply cleanName_nonempty.
    apply strip_leading_slash_id. intros t E.
    unfold cleanName in Cr. apply andb_true_iff in Cr as [T Pr].
    apply negb_true_iff in Pr.
    destruct root as [|c r]; [discriminate|].
    cbn [existsb] in Pr. apply orb_false_iff in Pr as [Pc _].
    destruct (rest ++ [name f]); simpl in E; injection E as -> _;
      discriminate. }
  unfold pathParts, inferredRoot. rewrite P.
  rewrite splitPath_join_clean by (auto; discriminate).
  split; [exact Tr|reflexivity].
Qed.

(** X26.  Dropping one folder whose reads all resolve yields the files below
    it, depth first.  Each of them has the dropped folder as its root, is
    grouped under the first sub-folder on its way, and stays out of all groups
    when it lies in the dropped folder itself. *)
Theorem dropped_folder_groups_by_subfolder (root : jsstring)
  (children : list FsEntry) :
  readable (FsDirectory root children) = true ->
  cleanNames (FsDirectory root children) = true ->
  getAllFilesFromItems [Some (FsDirectory root children)]
  = Ok (map (placed []) (leaves (FsDirectory root children)))
  /\ forall leaf,
       In leaf (leaves (FsDirectory root children)) ->
       exists rest,
         fst leaf = root :: rest
         /\ inferredRoot (placed [] leaf) = root
         /\ pathParts (placed [] leaf)
            = root :: rest ++ [name (snd leaf)]
         /\ folderOf root (placed [] leaf) = hd_error rest.
Proof.
  intros R C. split.
  - unfold getAllFilesFromItems. cbn [flat_map app forEach].
    change (@nil codeunit) with (join [SLASH] (@nil jsstring)).
    rewrite (traverse_collects _ [] [] R C (Forall_nil _)).
    reflexivity.
  - intros leaf I.
    destruct (leaves_clean _ leaf C I) as [Cd Cf].
    cbn [leaves] in I. apply in_map_iff in I as (inner & E & _).
    destruct leaf as [dirs f]. injection E as <- <-.
    exists (fst inner). cbn [fst snd] in *.
    destruct (placed_parts root (fst inner) (snd inner) Cd Cf) as [P Rt].
    split; [reflexivity|]. split; [exact Rt|]. split; [exact P|].
    unfold folderOf. rewrite P. cbn [withoutRoot]. rewrite streq_refl.
    destruct (fst inner) as [|x [|y more]]; reflexivity.
Qed.

Lemma dropped_folder_groups_by_subfolder_witness :
  getAllFilesFromItems [Some droppedTree]
  = Ok (map (placed []) (leaves droppedTree)).
Proof.
  apply (proj1 (dropped_folder_groups_by_subfolder (u "root")
                  [FsFile (fileNamed (u "loose.png"));
                   FsDirectory (u "Alice")
                     [FsFile (fileNamed (u "1.png"));
                      FsDirectory (u "raw")
                        [FsFile (fileNamed (u "2.JPG"))]];
                   FsDirectory (u "Carol")
                     [FsFile (fileNamed (u "notes.txt"))]]
                  eq_refl eq_refl)).
Defined.

Lemma traverseFileTree_rejects :
  forall (entry : FsEntry) (path : jsstring) (files : list File),
    readable entry = false ->
    exists e, traverseFileTree entry path files = Throw e.
Proof.
  fix IH 1. intros [file|e|dirName entries|dirName e|] path files R;
    cbn [traverseFileTree readable] in *; try discriminate; eauto.
  generalize (childPath path dirName) as newPath. intros newPath.
  revert files R.
  induction entries as [|child rest IHrest]; intros files R;
    [discriminate|].
  cbn [forallb] in R. cbn [forEach].
  destruct (traverseFileTree child newPath files) as [collected|e] eqn:T;
    [|eauto].
  destruct (readable child) eqn:Rc.
  - apply IHrest. exact R.
  - destruct (IH child newPath files Rc) as [e E]. congruence.
Qed.

Section DropFacts.
Variable toLowerCase : jsstring -> jsstring.

(** X27.  One rejected read below a dropped entry aborts the whole drop: the
    failure is logged and the selection stays as it was. *)
Theorem unreadable_drop_keeps_selection (entry : FsEntry)
  (app : AppState) :
  readable entry = false ->
  exists e,
    getAllFilesFromItems [Some entry] = Throw e
    /\ handleDrop toLowerCase [Some entry] app
       = (app, [LogReadingDrop; LogDropFailed (errorMessage e)]).
Proof.
  intros R. unfold handleDrop, getAllFilesFromItems.
  cbn [flat_map List.app forEach].
  destruct (traverseFileTree_rejects entry [] [] R) as [e E].
  exists e. now rewrite E.
Qed.
End DropFacts.

Lemma unreadable_drop_keeps_selection_witness :
  exists e,
    getAllFilesFromItems [Some brokenTree] = Throw e
    /\ handleDrop lowerAscii [Some brokenTree] sampleApp
       = (sampleApp, [LogReadingDrop; LogDropFailed (errorMessage e)]).
Proof.
  apply (unreadable_drop_keeps_selection lowerAscii brokenTree sampleApp).
  reflexivity.
Defined.

(** ** Default fields *)

(** X28.  The effect that picks default fields never replaces a field that is
    already chosen, touches nothing but the two field ids, and is settled
    after one run: running it again changes nothing. *)
Theorem default_fields_settle (fieldMetaList : list FieldMeta)
  (app : AppState) :
  chooseDefaultFields fieldMetaList (chooseDefaultFields fieldMetaList app)
  = chooseDefaultFields fieldMetaList app
  /\ (matchFieldId app <> [] ->
      matchFieldId (chooseDefaultFields fieldMetaList app)
      = matchFieldId app)
  /\ (uploadFieldId app <> [] ->
      uploadFieldId (chooseDefaultFields fieldMetaList app)
      = uploadFieldId app)
  /\ selectedFiles (chooseDefaultFields fieldMetaList app)
     = selectedFiles app
  /\ maxImages (chooseDefaultFields fieldMetaList app) = maxImages app
  /\ priorityKeyword (chooseDefaultFields fieldMetaList app)
     = priorityKeyword app.
Proof.
  unfold chooseDefaultFields.
  destruct fieldMetaList as [|first rest]; [repeat split|].
  cbn [matchFieldId uploadFieldId selectedFiles maxImages priorityKeyword
       tableReady].
  repeat split.
  - f_equal.
    + destruct (truthy (matchFieldId app)) eqn:M; [now rewrite M|].
      destruct (find isTextOrNumber (first :: rest)) as [field|];
        [|now rewrite M].
      now destruct (truthy (fieldId field)).
    + destruct (truthy (uploadFieldId app)) eqn:U; [now rewrite U|].
      destruct (find isAttachment (first :: rest)) as [field|];
        [|now rewrite U].
      now destruct (truthy (fieldId field)).
  - intros N. destruct (matchFieldId app); [contradiction|reflexivity].
  - intros N. destruct (uploadFieldId app); [contradiction|reflexivity].
Qed.

Lemma Object_entries_complete_witness :
  (exists idx,
      Object_entries [(u "b", 1%nat); (u "10", 2%nat); (u "2", 3%nat)]
      = idx ++ [(u "b", 1%nat)]
      /\ Forall (fun e => isIndexKey e = true) idx
      /\ Sorted
           (fun a b => (decimalValue (fst a) <= decimalValue (fst b))%N) idx)
  /\ Object_entries [(u "b", 1%nat); (u "10", 2%nat); (u "2", 3%nat)]
     = [(u "2", 3%nat); (u "10", 2%nat); (u "b", 1%nat)]
  /\ Object_entries [(u "X", 1%nat); (u "Y", 2%nat)]
     = [(u "X", 1%nat); (u "Y", 2%nat)].
Proof.
  split; [|split].
  - exact (proj1 (proj2 (Object_entries_complete nat
                           [(u "b", 1%nat); (u "10", 2%nat);
                            (u "2", 3%nat)]))).
  - reflexivity.
  - apply (proj2 (proj2 (Object_entries_complete nat
                           [(u "X", 1%nat); (u "Y", 2%nat)]))).
    intros e [<-|[<-|[]]]; reflexivity.
Defined.

Lemma default_fields_settle_witness :
  matchFieldId
    (chooseDefaultFields
       [{| fieldId := u "fldText"; fieldType := Text |}] sampleApp)
  = matchFieldId sampleApp.
Proof.
  apply (proj1 (proj2 (default_fields_settle
                         [{| fieldId := u "fldText"; fieldType := Text |}]
                         sampleApp))).
  discriminate.
Defined.
